(** * Cloudnote: the path-addressed note store, its search and its tabs

    A shallow embedding of the note-handling code of the renderer's
    [App] component: the functions [getNoteByPath], [setNoteByPath],
    [handleNewNote], [handleAddSubNote], [handleToggleCollapse],
    [gatherAllNotes] and the search effect (the current [App] source), and
    [pathsEqual], [openNoteTab], [handleTabClick] and [handleTabClose] (the
    snapshot [App_20250207210341.tsx], the one that has tabs).

    Conventions of the embedding.
    - A JavaScript [number] used as an index is a [Z]; a path
      ([number[]]) is a [list Z].
    - A [Note[]] is a dense array: a [list Note].  Reading outside the
      indices gives [undefined] ([None]); what a write outside them does
      is spelled out in [array_store].
    - Every handler runs to completion between two renders, so the state it
      closes over is the current state; a handler is a function from the
      state before to the state after (or to the call it makes).  *)

From Stdlib Require Import List ZArith Lia Bool String Ascii.
Import ListNotations.
Local Open Scope Z_scope.

Set Implicit Arguments.

(** ** JavaScript arrays *)

Module JsArray.

Section Ops.
Variable A : Type.

(** [arr.length] *)
Definition len (arr : list A) : Z := Z.of_nat (List.length arr).

(** [arr[idx]]: [undefined] outside [0 .. length - 1]. *)
Definition get (arr : list A) (idx : Z) : option A :=
  if (idx <? 0) || (idx >=? len arr) then None
  else nth_error arr (Z.to_nat idx).

(** Replace the element at a position that exists. *)
Fixpoint update (arr : list A) (i : nat) (v : A) : list A :=
  match arr, i with
  | [], _ => []
  | _ :: rest, O => v :: rest
  | x :: rest, S j => x :: update rest j v
  end.

(** The outcome of [arr[idx] = v].  Inside the indices the element is
    replaced; at [idx = length] the array grows by one; anywhere else the
    result is no longer a dense array (holes below [idx], or a property
    that is not an element when [idx] is negative). *)
Inductive stored : Type :=
| Dense (arr : list A)
| Sparse.

Definition array_store (arr : list A) (idx : Z) (v : A) : stored :=
  if (0 <=? idx) && (idx <? len arr) then Dense (update arr (Z.to_nat idx) v)
  else if idx =? len arr then Dense (arr ++ [v])
  else Sparse.

(** [copy.splice(index, 1)] on a copy of [arr]: a negative start counts
    from the end, a start past the end removes nothing. *)
Definition remove_at (arr : list A) (i : nat) : list A :=
  firstn i arr ++ skipn (S i) arr.

Definition splice1 (arr : list A) (index : Z) : list A :=
  let start := if index <? 0 then Z.max (len arr + index) 0
               else Z.min index (len arr) in
  remove_at arr (Z.to_nat start).

(** [arr.findIndex(p)]: the first position where [p] holds, [-1] if none. *)
Fixpoint findIndex_from (p : A -> bool) (arr : list A) (i : Z) : Z :=
  match arr with
  | [] => -1
  | x :: rest => if p x then i else findIndex_from p rest (i + 1)
  end.

Definition findIndex (p : A -> bool) (arr : list A) : Z :=
  findIndex_from p arr 0.
End Ops.

Arguments Sparse {A}.

End JsArray.

Import JsArray.

(** ** Data model *)

(** [interface Note { title; content; subNotes?; isCollapsed? }] *)
#[local] Unset Elimination Schemes.
Inductive Note : Type :=
  mkNote { title : string;
           content : string;
           subNotes : option (list Note);
           isCollapsed : option bool }.
#[local] Set Elimination Schemes.

(** Induction on a note gives the property for each of its children. *)
Section NoteInd.
Variable P : Note -> Prop.
Hypothesis leaf : forall t c col, P (mkNote t c None col).
Hypothesis node : forall t c sub col,
    Forall P sub -> P (mkNote t c (Some sub) col).

Fixpoint Note_ind (n : Note) : P n :=
  match n with
  | mkNote t c None col => leaf t c col
  | mkNote t c (Some sub) col =>
      node t c col
        ((fix children (l : list Note) : Forall P l :=
            match l with
            | [] => Forall_nil P
            | m :: rest => Forall_cons m (Note_ind m) (children rest)
            end) sub)
  end.
End NoteInd.

Definition Forest := list Note.
Definition Path := list Z.

(** [interface SearchResult { path; note }] *)
Definition SearchResult := (Path * Note)%type.

(** Object spread with one field replaced: [{ ...n, subNotes: s }] etc. *)
Definition with_subNotes (n : Note) (s : option (list Note)) : Note :=
  mkNote (title n) (content n) s (isCollapsed n).
Definition with_isCollapsed (n : Note) (c : option bool) : Note :=
  mkNote (title n) (content n) (subNotes n) c.
Definition with_title (n : Note) (t : string) : Note :=
  mkNote t (content n) (subNotes n) (isCollapsed n).
Definition with_content (n : Note) (c : string) : Note :=
  mkNote (title n) c (subNotes n) (isCollapsed n).

(** Truthiness of an optional boolean: [!note.isCollapsed]. *)
Definition truthy (b : option bool) : bool :=
  match b with Some true => true | _ => false end.

(** ** The note store *)

Module NoteTree.

(** The loop of [getNoteByPath]: [level] is the array the next index is
    looked up in, the list is what remains of [path] from position [i]. *)
Fixpoint getLoop (level : list Note) (path : Path) : option Note :=
  match path with
  | [] => None
  | idx :: rest =>
      if (idx <? 0) || (idx >=? len level) then None
      else
        match get level idx with
        | None => None
        | Some current =>
            match rest with
            | [] => Some current
            | _ :: _ =>
                match subNotes current with
                | None => None
                | Some sub => getLoop sub rest
                end
            end
        end
  end.

(** [getNoteByPath(path)]; [None] is [null]. *)
Definition getNoteByPath (notes : Forest) (path : Path) : option Note :=
  match path with
  | [] => None
  | _ :: _ => getLoop notes path
  end.

(** What a run of [setNoteByPath] ends in. *)
Inductive SetResult : Type :=
| NoUpdate                      (* returned before [setNotes] *)
| Raised                        (* TypeError: [.subNotes] of [undefined] *)
| SetNotes (newNotes : Forest)  (* [setNotes(newNotes)] *)
| SetNotesSparse.               (* [setNotes] of an array that is not dense *)

(** The loop of [setNoteByPath] on the clone.  The source walks down the
    clone and writes in place; here each level is rebuilt around the level
    below it.  [None] is the TypeError. *)
Fixpoint setLoop (level : list Note) (path : Path) (updated : Note)
  : option (stored Note) :=
  match path with
  | [] => Some (Dense level)
  | idx :: rest =>
      match rest with
      | [] => Some (array_store level idx updated)
      | _ :: _ =>
          match get level idx with
          | None => None
          | Some parent =>
              let sub := match subNotes parent with
                         | None => []
                         | Some s => s
                         end in
              match setLoop sub rest updated with
              | None => None
              | Some Sparse => Some Sparse
              | Some (Dense sub') =>
                  Some (Dense (update level (Z.to_nat idx)
                                 (with_subNotes parent (Some sub'))))
              end
          end
      end
  end.

Definition setNoteByPath (notes : Forest) (path : Path) (updated : Note)
  : SetResult :=
  match path with
  | [] => NoUpdate
  | _ :: _ =>
      match setLoop notes path updated with
      | None => Raised
      | Some Sparse => SetNotesSparse
      | Some (Dense newNotes) => SetNotes newNotes
      end
  end.

(** The notes the two create handlers build. *)
Definition newNote : Note :=
  mkNote "Untitled Note" "" (Some []) (Some false).
Definition newSubNote : Note :=
  mkNote "Untitled SubNote" "" (Some []) (Some false).

(** The state the note handlers read and write. *)
Record App : Type := mkApp { notes : Forest; selectedPath : Path }.

(** How a handler that guards its write ends. *)
Inductive Handled : Type :=
| Ignored                   (* bare [return]: the path did not resolve *)
| Alerted (msg : string)    (* [alert(msg); return] *)
| Called (r : SetResult).   (* went on to [setNoteByPath] *)

(** [handleNewNote]: [setNotes(prev => [...prev, newNote])], then
    [setSelectedPath([notes.length])]. *)
Definition handleNewNote (st : App) : App :=
  mkApp (notes st ++ [newNote]) [len (notes st)].

(** [parent.subNotes ? [...parent.subNotes] : []] *)
Definition subNotes_or_empty (n : Note) : list Note :=
  match subNotes n with
  | Some s => s
  | None => []
  end.

Definition handleAddSubNote (notes : Forest) (path : Path) : Handled :=
  match getNoteByPath notes path with
  | None => Ignored
  | Some parent =>
      if len path >=? 4 then Alerted "Maximum nesting depth of 4 reached."
      else
        let newSubNotes := subNotes_or_empty parent ++ [newSubNote] in
        let updated := with_subNotes parent (Some newSubNotes) in
        Called (setNoteByPath notes path updated)
  end.

Definition handleToggleCollapse (notes : Forest) (path : Path) : Handled :=
  match getNoteByPath notes path with
  | None => Ignored
  | Some note =>
      let updated :=
        with_isCollapsed note (Some (negb (truthy (isCollapsed note)))) in
      Called (setNoteByPath notes path updated)
  end.

Definition handleNoteTitleChange (st : App) (value : string) : Handled :=
  match getNoteByPath (notes st) (selectedPath st) with
  | None => Ignored
  | Some current =>
      Called (setNoteByPath (notes st) (selectedPath st)
                (with_title current value))
  end.

Definition handleNoteContentChange (st : App) (value : string) : Handled :=
  match getNoteByPath (notes st) (selectedPath st) with
  | None => Ignored
  | Some current =>
      Called (setNoteByPath (notes st) (selectedPath st)
                (with_content current value))
  end.

Definition handleSelectPath (st : App) (path : Path) : App :=
  mkApp (notes st) path.

Definition handleGoHome (st : App) : App :=
  mkApp (notes st) [].

(** The state after a guarded handler.  A handler that returned, alerted
    or raised has set nothing; [None] stands for a state whose notes are no
    longer a dense array. *)
Definition commit (st : App) (h : Handled) : option App :=
  match h with
  | Ignored | Alerted _ => Some st
  | Called NoUpdate | Called Raised => Some st
  | Called (SetNotes newNotes) => Some (mkApp newNotes (selectedPath st))
  | Called SetNotesSparse => None
  end.

(** The user actions on notes, and a session of them. *)
Inductive Op : Type :=
| NewNote
| AddSubNote (path : Path)
| ToggleCollapse (path : Path)
| SelectPath (path : Path)
| GoHome
| TitleChange (value : string)
| ContentChange (value : string).

Definition step (st : App) (op : Op) : option App :=
  match op with
  | NewNote => Some (handleNewNote st)
  | AddSubNote path => commit st (handleAddSubNote (notes st) path)
  | ToggleCollapse path => commit st (handleToggleCollapse (notes st) path)
  | SelectPath path => Some (handleSelectPath st path)
  | GoHome => Some (handleGoHome st)
  | TitleChange value => commit st (handleNoteTitleChange st value)
  | ContentChange value => commit st (handleNoteContentChange st value)
  end.

Fixpoint run (st : App) (ops : list Op) : option App :=
  match ops with
  | [] => Some st
  | op :: rest =>
      match step st op with
      | None => None
      | Some st' => run st' rest
      end
  end.

End NoteTree.

(** ** Search *)

Module Search.

Import NoteTree.

(** [s.includes(q)] *)
Fixpoint includes (s q : string) : bool :=
  if String.prefix q s then true
  else match s with
       | EmptyString => false
       | String _ s' => includes s' q
       end.

(** The callback of [forEach] in [dfs], for the element [n] at index
    [idx]: [newPath] is already [[...currentPath, idx]], and [results] is
    the array the traversal pushes to. *)
Fixpoint visit (n : Note) (newPath : Path) (results : list SearchResult)
  : list SearchResult :=
  let results := results ++ [(newPath, n)] in
  match subNotes n with
  | None => results
  | Some sub =>
      if len sub >? 0 then
        (fix each (notesArr : list Note) (idx : Z)
             (results : list SearchResult) : list SearchResult :=
           match notesArr with
           | [] => results
           | m :: rest =>
               each rest (idx + 1) (visit m (newPath ++ [idx]) results)
           end) sub 0 results
      else results
  end.

(** [notesArr.forEach((n, idx) => ...)] from index [idx] on. *)
Fixpoint dfs_from (notesArr : list Note) (currentPath : Path) (idx : Z)
    (results : list SearchResult) : list SearchResult :=
  match notesArr with
  | [] => results
  | n :: rest =>
      dfs_from rest currentPath (idx + 1)
        (visit n (currentPath ++ [idx]) results)
  end.

Definition dfs (notesArr : list Note) (currentPath : Path)
    (results : list SearchResult) : list SearchResult :=
  dfs_from notesArr currentPath 0 results.

Definition gatherAllNotes (rootNotes : Forest) : list SearchResult :=
  dfs rootNotes [] [].

(** The search panel's state. *)
Record Panel : Type :=
  mkPanel { searchOpen : bool;
            searchQuery : string;
            searchResults : list SearchResult;
            searchSelectedIndex : Z }.

Definition is_empty (s : string) : bool :=
  match s with
  | EmptyString => true
  | String _ _ => false
  end.

Section Effect.
(** [String.prototype.toLowerCase] and [trim] belong to the language,
    not to the program: the development is parametric in them. *)
Variable toLowerCase : string -> string.
Variable trim : string -> string.

(** The filter's predicate; [note.title ?? ""] is [note.title] for a
    field of type [string]. *)
Definition matches (lowerQ : string) (r : SearchResult) : bool :=
  includes (toLowerCase (title (snd r))) lowerQ
  || includes (toLowerCase (content (snd r))) lowerQ.

(** What the effect hands to [setSearchResults] once the panel is open. *)
Definition search (notes : Forest) (query : string) : list SearchResult :=
  if is_empty (trim query) then []
  else
    let all := gatherAllNotes notes in
    let lowerQ := toLowerCase query in
    filter (matches lowerQ) all.

(** The effect on [searchQuery], [notes] and [searchOpen]. *)
Definition searchEffect (notes : Forest) (p : Panel) : Panel :=
  if negb (searchOpen p) then p
  else mkPanel (searchOpen p) (searchQuery p)
               (search notes (searchQuery p)) 0.
End Effect.

End Search.

(** ** Tabs (snapshot [App_20250207210341.tsx]) *)

Module Tabs.

(** [pathsEqual]: the loop runs once the lengths are known to agree. *)
Fixpoint pathsEqual_loop (a b : Path) : bool :=
  match a, b with
  | x :: a', y :: b' => if negb (x =? y) then false else pathsEqual_loop a' b'
  | _, _ => true
  end.

Definition pathsEqual (a b : Path) : bool :=
  if negb (len a =? len b) then false else pathsEqual_loop a b.

(** [openTabs], [activeTabIndex] ([-1]: no tab is active) and
    [selectedPath]; the last is [None] once it has been set to the
    [undefined] of a read outside [openTabs]. *)
Record TabSet : Type :=
  mkTabs { openTabs : list Path;
           activeTabIndex : Z;
           selectedPath : option Path }.

Definition openNoteTab (st : TabSet) (path : Path) : TabSet :=
  let existingIndex := findIndex (fun t => pathsEqual t path) (openTabs st) in
  if existingIndex >=? 0 then mkTabs (openTabs st) existingIndex (Some path)
  else mkTabs (openTabs st ++ [path]) (len (openTabs st)) (Some path).

Definition handleTabClick (st : TabSet) (index : Z) : TabSet :=
  mkTabs (openTabs st) index (get (openTabs st) index).

Definition handleTabClose (st : TabSet) (index : Z) : TabSet :=
  let tabs' := splice1 (openTabs st) index in
  let n := len (openTabs st) in
  if index =? activeTabIndex st then
    let newIndex := if index - 1 <? 0 then 0 else index - 1 in
    if newIndex >=? n - 1 then
      if n - 1 <=? 0 then mkTabs tabs' (-1) (Some [])
      else mkTabs tabs' (n - 2) (get (openTabs st) (n - 2))
    else mkTabs tabs' newIndex (selectedPath st)
  else if index <? activeTabIndex st then
    mkTabs tabs' (activeTabIndex st - 1) (selectedPath st)
  else mkTabs tabs' (activeTabIndex st) (selectedPath st).

(** For the statements: no path is open twice, and the active index is
    on a tab, or [-1] when there is none. *)
Definition tabs_ok (st : TabSet) : Prop :=
  NoDup (openTabs st)
  /\ ((openTabs st = [] /\ activeTabIndex st = -1)
      \/ 0 <= activeTabIndex st < len (openTabs st)).

End Tabs.

(** ** Notions the statements are phrased in *)

Module Spec.

Import NoteTree.

(** Going on from a note along the rest of a path. *)
Definition descend (n : Note) (rest : Path) : option Note :=
  match rest with
  | [] => Some n
  | _ :: _ =>
      match subNotes n with
      | None => None
      | Some sub => getLoop sub rest
      end
  end.

(** Every element of the path is an index of the level it is looked up
    in; a note without a children sequence offers no level to index. *)
Fixpoint inRange (level : list Note) (path : Path) : bool :=
  match path with
  | [] => true
  | idx :: rest =>
      match get level idx with
      | None => false
      | Some n =>
          match rest with
          | [] => true
          | _ :: _ =>
              match subNotes n with
              | None => false
              | Some sub => inRange sub rest
              end
          end
      end
  end.

(** [q] continues [p]. *)
Definition extends (p q : Path) : Prop := exists r, q = p ++ r.

(** [q] stops strictly above [p]. *)
Definition above (q p : Path) : Prop := exists r, r <> [] /\ p = q ++ r.

(** Neither path continues the other. *)
Definition apart (p q : Path) : Prop := ~ extends p q /\ ~ extends q p.

(** Two notes that agree on everything a note holds itself. *)
Definition same_fields (a b : Note) : Prop :=
  title a = title b /\ content a = content b /\ isCollapsed a = isCollapsed b.

(** Depth-first pre-order: a note, then each child's traversal, left to
    right. *)
Fixpoint preorder (n : Note) (p : Path) : list SearchResult :=
  (p, n) ::
  match subNotes n with
  | None => []
  | Some sub =>
      (fix children (l : list Note) (idx : Z) : list SearchResult :=
         match l with
         | [] => []
         | m :: rest => preorder m (p ++ [idx]) ++ children rest (idx + 1)
         end) sub 0
  end.

Fixpoint preorder_level (l : list Note) (p : Path) (idx : Z)
  : list SearchResult :=
  match l with
  | [] => []
  | m :: rest => preorder m (p ++ [idx]) ++ preorder_level rest p (idx + 1)
  end.

Definition preorder_forest (notes : Forest) : list SearchResult :=
  preorder_level notes [] 0.

(** [q] occurs in [s]. *)
Definition Contains (s q : string) : Prop :=
  exists a b, s = (a ++ q ++ b)%string.

(** A note with every collapsed flag, its own and below it, forgotten. *)
Fixpoint eraseCollapsed (n : Note) : Note :=
  match n with
  | mkNote t c s _ =>
      mkNote t c
        (match s with
         | None => None
         | Some sub => Some (map eraseCollapsed sub)
         end)
        None
  end.

Definition eraseResult (r : SearchResult) : SearchResult :=
  (fst r, eraseCollapsed (snd r)).

(** A run of [setNoteByPath] that reached [setNotes]. *)
Definition calls_setNotes (r : SetResult) : bool :=
  match r with
  | SetNotes _ | SetNotesSparse => true
  | NoUpdate | Raised => false
  end.

(** Where [handleAddSubNote] puts the note it creates under [parent],
    itself at [path]: behind the children [parent] has. *)
Definition childPath (parent : Note) (path : Path) : Path :=
  path ++ [len (subNotes_or_empty parent)].

(** The parent as [handleAddSubNote] rebuilds it. *)
Definition with_child (parent child : Note) : Note :=
  with_subNotes parent (Some (subNotes_or_empty parent ++ [child])).

(** No note of the forest lies deeper than four levels. *)
Definition depth_bounded (f : Forest) : Prop :=
  forall q n, getNoteByPath f q = Some n -> len q <= 4.

(** The path a create action yields and the note it creates there, when
    it creates one: [handleNewNote] selects the path, [handleAddSubNote]
    leaves it to [childPath]. *)
Definition created (st : App) (op : Op) : option (Path * Note) :=
  match op with
  | NewNote => Some ([len (notes st)], newNote)
  | AddSubNote path =>
      match getNoteByPath (notes st) path with
      | None => None
      | Some parent =>
          if len path >=? 4 then None
          else Some (childPath parent path, newSubNote)
      end
  | _ => None
  end.

(** The note at [path] has the title, content and collapsed flag of
    [made], and a children sequence. *)
Definition keeps (f : Forest) (path : Path) (made : Note) : Prop :=
  exists n, getNoteByPath f path = Some n
            /\ same_fields made n /\ subNotes n <> None.

(** The create actions among the user's actions. *)
Definition is_create (op : Op) : bool :=
  match op with
  | NewNote | AddSubNote _ => true
  | _ => false
  end.

End Spec.

(** ** An instance of the string functions on ASCII text *)

Module AsciiText.

Definition lower_char (c : ascii) : ascii :=
  let n := nat_of_ascii c in
  if ((65 <=? n) && (n <=? 90))%nat then ascii_of_nat (n + 32) else c.

Fixpoint toLowerCase (s : string) : string :=
  match s with
  | EmptyString => EmptyString
  | String c s' => String (lower_char c) (toLowerCase s')
  end.

Definition is_space (c : ascii) : bool :=
  let n := nat_of_ascii c in
  ((n =? 32) || ((9 <=? n) && (n <=? 13)))%nat.

Fixpoint trimStart (s : string) : string :=
  match s with
  | EmptyString => EmptyString
  | String c s' => if is_space c then trimStart s' else s
  end.

Fixpoint trimEnd (s : string) : string :=
  match s with
  | EmptyString => EmptyString
  | String c s' =>
      match trimEnd s' with
      | EmptyString => if is_space c then EmptyString else String c EmptyString
      | t => String c t
      end
  end.

Definition trim (s : string) : string := trimEnd (trimStart s).

End AsciiText.

(** ** The search panel's keys *)

Module SearchKeys.

Import NoteTree Search.

(** The notes, the selection and the panel together. *)
Record View : Type := mkView { app : App; panel : Panel }.

Definition openSearchPanel (p : Panel) : Panel :=
  mkPanel true "" (searchResults p) 0.

Definition closeSearchPanel (p : Panel) : Panel :=
  mkPanel false "" [] 0.

(** [setSelectedPath(res.path); closeSearchPanel()] *)
Definition goToSearchResult (v : View) (res : SearchResult) : View :=
  mkView (mkApp (notes (app v)) (fst res)) (closeSearchPanel (panel v)).

Definition with_index (p : Panel) (i : Z) : Panel :=
  mkPanel (searchOpen p) (searchQuery p) (searchResults p) i.

(** [handleSearchKeyDown]; [key] is [e.key]. *)
Definition handleSearchKeyDown (v : View) (key : string) : View :=
  let results := searchResults (panel v) in
  let prev := searchSelectedIndex (panel v) in
  if len results =? 0 then v
  else if String.eqb key "ArrowDown" then
    let next := prev + 1 in
    mkView (app v)
      (with_index (panel v) (if next >=? len results then 0 else next))
  else if String.eqb key "ArrowUp" then
    let next := prev - 1 in
    mkView (app v)
      (with_index (panel v) (if next <? 0 then len results - 1 else next))
  else if String.eqb key "Enter" then
    match get results prev with
    | Some res => goToSearchResult v res
    | None => v
    end
  else if String.eqb key "Escape" then
    mkView (app v) (closeSearchPanel (panel v))
  else v.

(** [onChange] of the search input. *)
Definition setSearchQuery (p : Panel) (value : string) : Panel :=
  mkPanel (searchOpen p) value (searchResults p) (searchSelectedIndex p).

(** For the statements: the cursor is on a result, or at [0] when there
    is none. *)
Definition cursor_ok (p : Panel) : Prop :=
  (searchResults p = [] /\ searchSelectedIndex p = 0)
  \/ 0 <= searchSelectedIndex p < len (searchResults p).

(** The same key pressed [k] times. *)
Fixpoint press (v : View) (key : string) (k : nat) : View :=
  match k with
  | O => v
  | S k' => press (handleSearchKeyDown v key) key k'
  end.

End SearchKeys.

(** ** The note list as it is drawn *)

Module Render.

Import NoteTree.

(** The glyph on the collapse button. *)
Inductive Glyph : Type := PointsRight | PointsDown.

(** What [renderNoteItem] draws for one note: the path its handlers are
    bound to, the label, the collapse button if there is one, and whether
    there is a [+] button. *)
Record Row : Type :=
  mkRow { row_path : Path;
          row_label : string;
          row_toggle : option Glyph;
          row_add : bool }.

(** [note.subNotes && note.subNotes.length > 0] *)
Definition hasSubNotes (note : Note) : bool :=
  match subNotes note with
  | None => false
  | Some sub => len sub >? 0
  end.

(** [s || "Untitled"] *)
Definition or_untitled (s : string) : string :=
  match s with
  | EmptyString => "Untitled"
  | String _ _ => s
  end.

Definition row_of (note : Note) (path : Path) : Row :=
  mkRow path (or_untitled (title note))
    (if hasSubNotes note
     then Some (if truthy (isCollapsed note) then PointsRight else PointsDown)
     else None)
    (len path <? 4).

(** [renderNoteItem(note, path)]: the element is given by its rows in
    document order, the note's own row first and then, unless the note is
    collapsed or has no sub-notes, the rows of each child. *)
Fixpoint renderNoteItem (note : Note) (path : Path) : list Row :=
  row_of note path ::
  if negb (truthy (isCollapsed note)) && hasSubNotes note then
    match subNotes note with
    | None => []
    | Some sub =>
        (fix children (l : list Note) (i : Z) : list Row :=
           match l with
           | [] => []
           | child :: rest =>
               renderNoteItem child (path ++ [i]) ++ children rest (i + 1)
           end) sub 0
    end
  else [].

(** [arr.map((note, i) => renderNoteItem(note, [...path, i]))] from
    index [i] on. *)
Fixpoint renderItems_from (l : list Note) (path : Path) (i : Z) : list Row :=
  match l with
  | [] => []
  | child :: rest =>
      renderNoteItem child (path ++ [i]) ++ renderItems_from rest path (i + 1)
  end.

(** [notes.map((note, index) => renderNoteItem(note, [index]))] *)
Definition renderNotes (notes : Forest) : list Row :=
  renderItems_from notes [] 0.

(** The main area: [selectedNote ? renderNoteEditor(selectedNote) : tasks]. *)
Definition selectedNote (st : App) : option Note :=
  getNoteByPath (notes st) (selectedPath st).

(** For the statements: the note a path leads to when every note passed
    on the way is expanded. *)
Fixpoint visibleLoop (level : list Note) (path : Path) : option Note :=
  match path with
  | [] => None
  | idx :: rest =>
      match get level idx with
      | None => None
      | Some current =>
          match rest with
          | [] => Some current
          | _ :: _ =>
              if truthy (isCollapsed current) then None
              else match subNotes current with
                   | None => None
                   | Some sub => visibleLoop sub rest
                   end
          end
      end
  end.

Definition visible_below (n : Note) (rest : Path) : option Note :=
  match rest with
  | [] => Some n
  | _ :: _ =>
      if truthy (isCollapsed n) then None
      else match subNotes n with
           | None => None
           | Some sub => visibleLoop sub rest
           end
  end.

End Render.

(** ** Tasks *)

Module Tasks.

Record Task : Type :=
  mkTask { id : string; title : string; description : string;
           dueDate : string }.

(** The task list and the modal's fields. *)
Record State : Type :=
  mkState { tasks : list Task;
            taskModalOpen : bool;
            editingTaskId : option string;
            taskTitle : string;
            taskDescription : string;
            taskDueDate : string }.

Definition openNewTaskModal (st : State) : State :=
  mkState (tasks st) true None "" "" "".

Definition openEditTaskModal (st : State) (task : Task) : State :=
  mkState (tasks st) true (Some (id task)) (title task) (description task)
    (dueDate task).

Definition closeTaskModal (st : State) : State :=
  mkState (tasks st) false (editingTaskId st) (taskTitle st)
    (taskDescription st) (taskDueDate st).

Definition handleTaskClick (st : State) (task : Task) : State :=
  openEditTaskModal st task.

(** [if (editingTaskId)]: [null] and the empty string are falsy. *)
Definition editing (st : State) : option string :=
  match editingTaskId st with
  | None => None
  | Some EmptyString => None
  | Some i => Some i
  end.

(** [{ ...t, title, description, dueDate }] for the tasks with the edited
    id. *)
Definition overwrite (st : State) (i : string) (t : Task) : Task :=
  if String.eqb (id t) i
  then mkTask (id t) (taskTitle st) (taskDescription st) (taskDueDate st)
  else t.

Section Save.
(** [trim] as in the search; [uuid] is what [crypto.randomUUID()]
    returns for this call. *)
Variable trim : string -> string.

(** [handleCreateOrUpdateTask]: the state after, and the alert if one was
    shown. *)
Definition handleCreateOrUpdateTask (uuid : string) (st : State)
  : State * option string :=
  if Search.is_empty (trim (taskTitle st))
  then (st, Some "Task title is required."%string)
  else
    let tasks' :=
      match editing st with
      | Some i => map (overwrite st i) (tasks st)
      | None =>
          tasks st ++ [mkTask uuid (taskTitle st) (taskDescription st)
                         (taskDueDate st)]
      end in
    (mkState tasks' false (editingTaskId st) (taskTitle st)
       (taskDescription st) (taskDueDate st), None).
End Save.

Definition handleCheck (st : State) (index : Z) : State :=
  mkState (splice1 (tasks st) index) (taskModalOpen st) (editingTaskId st)
    (taskTitle st) (taskDescription st) (taskDueDate st).

End Tasks.

(** ** Notes and tabs together (snapshot [App_20250207210341.tsx]) *)

Module TabApp.

Import NoteTree Tabs.

(** The notes beside the tabs; [selectedPath] is the one of [TabSet]. *)
Record State : Type := mkState { notes : Forest; tabs : TabSet }.

(** [handleNewNote]: the note is appended and [[notes.length]] opened in a
    tab. *)
Definition handleNewNote (st : State) : State :=
  mkState (notes st ++ [newNote]) (openNoteTab (tabs st) [len (notes st)]).

Definition handleSelectPath (st : State) (path : Path) : State :=
  mkState (notes st) (openNoteTab (tabs st) path).

Definition handleGoHome (st : State) : State :=
  mkState (notes st)
    (mkTabs (openTabs (tabs st)) (activeTabIndex (tabs st)) (Some [])).

(** [goToSearchResult], as far as notes and tabs go: the later
    [setSelectedPath] of [openNoteTab] is the one that stays. *)
Definition goToSearchResult (st : State) (res : SearchResult) : State :=
  mkState (notes st) (openNoteTab (tabs st) (fst res)).

(** The guarded writes.  [getNoteByPath(selectedPath)] on a selection
    that is [undefined] raises at [path.length], before anything is set:
    the TypeError is recorded as [Called Raised]. *)
Definition on_selection (st : State) (change : Note -> Note) : Handled :=
  match selectedPath (tabs st) with
  | None => Called Raised
  | Some path =>
      match getNoteByPath (notes st) path with
      | None => Ignored
      | Some current => Called (setNoteByPath (notes st) path (change current))
      end
  end.

Definition handleNoteTitleChange (st : State) (value : string) : Handled :=
  on_selection st (fun current => with_title current value).

Definition handleNoteContentChange (st : State) (value : string) : Handled :=
  on_selection st (fun current => with_content current value).

Definition commit (st : State) (h : Handled) : option State :=
  match h with
  | Ignored | Alerted _ => Some st
  | Called NoUpdate | Called Raised => Some st
  | Called (SetNotes newNotes) => Some (mkState newNotes (tabs st))
  | Called SetNotesSparse => None
  end.

(** One tab of [renderTabBar]: its label and whether it is drawn active. *)
Definition tab_label (notes : Forest) (path : Path) : string :=
  match getNoteByPath notes path with
  | Some note => Render.or_untitled (title note)
  | None => "[Missing]"
  end.

Fixpoint renderTabs_from (notes : Forest) (active : Z) (l : list Path)
    (i : Z) : list (string * bool) :=
  match l with
  | [] => []
  | path :: rest =>
      (tab_label notes path, i =? active)
        :: renderTabs_from notes active rest (i + 1)
  end.

Definition renderTabBar (st : State) : list (string * bool) :=
  renderTabs_from (notes st) (activeTabIndex (tabs st)) (openTabs (tabs st)) 0.

(** What the user can do, with what the page lets them do it on: a row
    of the note list, a tab of the tab bar, a result of the search. *)
Inductive Event : Type :=
| ClickNewNote
| ClickAdd (path : Path)
| ClickToggle (path : Path)
| ClickRow (path : Path)
| ClickTab (index : Z)
| ClickClose (index : Z)
| ClickResult (res : SearchResult)
| ClickHome
| TypeTitle (value : string)
| TypeContent (value : string).

Definition handle (st : State) (e : Event) : option State :=
  match e with
  | ClickNewNote => Some (handleNewNote st)
  | ClickAdd path => commit st (handleAddSubNote (notes st) path)
  | ClickToggle path => commit st (handleToggleCollapse (notes st) path)
  | ClickRow path => Some (handleSelectPath st path)
  | ClickTab index => Some (mkState (notes st) (handleTabClick (tabs st) index))
  | ClickClose index =>
      Some (mkState (notes st) (handleTabClose (tabs st) index))
  | ClickResult res => Some (goToSearchResult st res)
  | ClickHome => Some (handleGoHome st)
  | TypeTitle value => commit st (handleNoteTitleChange st value)
  | TypeContent value => commit st (handleNoteContentChange st value)
  end.

(** For the statements.  What the page offers in a state: the buttons
    of the rows it draws, the tabs it draws, the results of a search on the
    notes it holds. *)
Section Offered.
Variable toLowerCase : string -> string.
Variable trim : string -> string.

Definition offered (st : State) (e : Event) : Prop :=
  match e with
  | ClickAdd path =>
      exists r, In r (Render.renderNotes (notes st))
                /\ Render.row_path r = path /\ Render.row_add r = true
  | ClickToggle path =>
      exists r, In r (Render.renderNotes (notes st))
                /\ Render.row_path r = path /\ Render.row_toggle r <> None
  | ClickRow path =>
      exists r, In r (Render.renderNotes (notes st))
                /\ Render.row_path r = path
  | ClickTab index | ClickClose index =>
      0 <= index < len (openTabs (tabs st))
  | ClickResult res =>
      exists query,
        In res (Search.search toLowerCase trim (notes st) query)
  | ClickNewNote | ClickHome | TypeTitle _ | TypeContent _ => True
  end.

(** The states a session can be in, from the notes found at start-up and
    no tab. *)
Inductive reachable (start : Forest) : State -> Prop :=
| at_start : reachable start (mkState start (mkTabs [] (-1) (Some [])))
| after (st st' : State) (e : Event) :
    reachable start st -> offered st e -> handle st e = Some st' ->
    reachable start st'.
End Offered.

(** Every path that resolves in [f] resolves in [f']. *)
Definition grows (f f' : Forest) : Prop :=
  forall q, getLoop f q <> None -> getLoop f' q <> None.

(** Every tab and the selection name a note that is there. *)
Definition sound (st : State) : Prop :=
  tabs_ok (tabs st)
  /\ (forall p, In p (openTabs (tabs st)) -> getNoteByPath (notes st) p <> None)
  /\ exists p, selectedPath (tabs st) = Some p
               /\ (p = [] \/ getNoteByPath (notes st) p <> None).

End TabApp.

(** * Properties *)

Unset Implicit Arguments.

Import NoteTree Spec.

(** ** The embedding at work *)

(** A write inside, at the end of, and beyond an array. *)
Example array_store_cases :
  array_store [10; 20] 1 7 = Dense [10; 7]
  /\ array_store [10; 20] 2 7 = Dense [10; 20; 7]
  /\ array_store [10; 20] 5 7 = Sparse
  /\ array_store [10; 20] (-1) 7 = Sparse.
Proof. repeat split. Qed.

(** [splice] with a start inside, past the end and counted from the end. *)
Example splice1_cases :
  splice1 [10; 20; 30] 1 = [10; 30]
  /\ splice1 [10; 20; 30] 3 = [10; 20; 30]
  /\ splice1 [10; 20; 30] (-1) = [10; 20].
Proof. repeat split. Qed.

(** A session: a root note "Shopping" with a sub-note "Sub" whose content
    is "bread"; the search for "bread" finds the sub-note alone, at a path
    of length 2. *)
Example shopping_session :
  exists st,
    run (mkApp [] [])
      [NewNote; TitleChange "Shopping"; ContentChange "milk eggs";
       AddSubNote [0]; SelectPath [0; 0];
       TitleChange "Sub"; ContentChange "bread"] = Some st
    /\ Search.search AsciiText.toLowerCase AsciiText.trim (notes st) "bread"
       = [([0; 0], mkNote "Sub" "bread" (Some []) (Some false))]
    /\ Search.search AsciiText.toLowerCase AsciiText.trim (notes st) "  "
       = [].
Proof. eexists; repeat split. Qed.

(** A fifth level is refused with the alert, an absent parent in silence. *)
Example fifth_level_refused :
  exists st,
    run (mkApp [] [])
      [NewNote; AddSubNote [0]; AddSubNote [0; 0]; AddSubNote [0; 0; 0]]
    = Some st
    /\ handleAddSubNote (notes st) [0; 0; 0; 0]
       = Alerted "Maximum nesting depth of 4 reached."
    /\ handleAddSubNote (notes st) [0; 0; 0; 1] = Ignored
    /\ step st (AddSubNote [0; 0; 0; 0]) = Some st.
Proof. eexists; repeat split. Qed.

(** ** Arrays *)

(** Case analysis on the integer tests of a goal. *)
Ltac ztests :=
  rewrite ?Z.geb_leb, ?Z.gtb_ltb;
  repeat match goal with
         | |- context [Z.ltb ?a ?b] => destruct (Z.ltb_spec a b)
         | |- context [Z.leb ?a ?b] => destruct (Z.leb_spec a b)
         | |- context [Z.eqb ?a ?b] => destruct (Z.eqb_spec a b)
         end;
  cbn [orb andb negb].

Ltac ztests_in H :=
  rewrite ?Z.geb_leb, ?Z.gtb_ltb in H;
  repeat match type of H with
         | context [Z.ltb ?a ?b] => destruct (Z.ltb_spec a b)
         | context [Z.leb ?a ?b] => destruct (Z.leb_spec a b)
         | context [Z.eqb ?a ?b] => destruct (Z.eqb_spec a b)
         end;
  cbn [orb andb negb] in H.

Section ArrayFacts.
Variable A : Type.
Implicit Types (arr : list A) (idx : Z) (v : A).

Lemma len_nonneg arr : 0 <= len arr.
Proof. unfold len; lia. Qed.

Lemma len_app arr arr' : len (arr ++ arr') = len arr + len arr'.
Proof. unfold len; rewrite length_app; lia. Qed.

Lemma len_cons v arr : len (v :: arr) = 1 + len arr.
Proof. unfold len; cbn [List.length]; lia. Qed.

Lemma len_nil : len (@nil A) = 0.
Proof. reflexivity. Qed.

Lemma len_update arr i v : len (update arr i v) = len arr.
Proof.
  unfold len; f_equal; revert i.
  induction arr as [|x arr IH]; intros [|i]; simpl; auto.
Qed.

Lemma get_inv arr idx v :
  get arr idx = Some v ->
  0 <= idx < len arr /\ nth_error arr (Z.to_nat idx) = Some v.
Proof.
  unfold get; intros H; ztests_in H; try discriminate.
  split; [lia | exact H].
Qed.

Lemma get_in_range arr idx :
  0 <= idx < len arr -> exists v, get arr idx = Some v.
Proof.
  intros H; unfold get; ztests; try lia.
  destruct (nth_error arr (Z.to_nat idx)) eqn:E; [eauto|].
  apply nth_error_None in E; unfold len in H; lia.
Qed.

Lemma get_out_of_range arr idx :
  idx < 0 \/ len arr <= idx -> get arr idx = None.
Proof. intros H; unfold get; ztests; auto; lia. Qed.

Lemma get_nil idx : get (@nil A) idx = None.
Proof. apply get_out_of_range; rewrite len_nil; lia. Qed.

Lemma get_cons_0 v arr : get (v :: arr) 0 = Some v.
Proof. pose proof (len_nonneg arr); unfold get; rewrite len_cons; ztests; auto; lia. Qed.

Lemma get_cons_succ v arr idx :
  0 <= idx -> get (v :: arr) (idx + 1) = get arr idx.
Proof.
  intros H; unfold get; rewrite len_cons; ztests; try lia; auto.
  replace (Z.to_nat (idx + 1)) with (S (Z.to_nat idx)) by lia.
  reflexivity.
Qed.

Lemma get_cons v arr idx :
  get (v :: arr) idx = if idx =? 0 then Some v else get arr (idx - 1).
Proof.
  destruct (Z.eqb_spec idx 0) as [->|Hne].
  - apply get_cons_0.
  - destruct (Z_lt_le_dec idx 0).
    + rewrite !get_out_of_range; auto; lia.
    + replace idx with (idx - 1 + 1) at 1 by lia.
      apply get_cons_succ; lia.
Qed.

Lemma nth_error_update_same arr i v :
  (i < List.length arr)%nat -> nth_error (update arr i v) i = Some v.
Proof.
  revert i; induction arr as [|x arr IH]; intros [|i] H; simpl in *;
    try lia; auto.
  apply IH; lia.
Qed.

Lemma nth_error_update_other arr i j v :
  i <> j -> nth_error (update arr i v) j = nth_error arr j.
Proof.
  revert i j; induction arr as [|x arr IH]; intros [|i] [|j] H; simpl;
    try congruence; auto.
Qed.

Lemma update_same_value arr i v :
  nth_error arr i = Some v -> update arr i v = arr.
Proof.
  revert i; induction arr as [|x arr IH]; intros [|i] H; simpl in *;
    try congruence.
  f_equal; auto.
Qed.

Lemma get_update_same arr idx v :
  0 <= idx < len arr -> get (update arr (Z.to_nat idx) v) idx = Some v.
Proof.
  intros H; unfold get; rewrite len_update; ztests; try lia.
  apply nth_error_update_same; unfold len in H; lia.
Qed.

Lemma get_update_other arr idx j v :
  0 <= idx -> idx <> j -> get (update arr (Z.to_nat idx) v) j = get arr j.
Proof.
  intros H Hne; unfold get; rewrite len_update; ztests; auto.
  apply nth_error_update_other; lia.
Qed.

Lemma get_app_l arr arr' idx v :
  get arr idx = Some v -> get (arr ++ arr') idx = Some v.
Proof.
  intros H; destruct (get_inv _ _ _ H) as [Hr Hn].
  pose proof (len_nonneg arr').
  unfold get; rewrite len_app; ztests; try lia.
  rewrite nth_error_app1; [exact Hn | unfold len in Hr; lia].
Qed.

Lemma get_snoc_last arr v : get (arr ++ [v]) (len arr) = Some v.
Proof.
  pose proof (len_nonneg arr).
  unfold get; rewrite len_app, len_cons, len_nil; ztests; try lia.
  unfold len; rewrite Nat2Z.id, nth_error_app2 by lia.
  rewrite Nat.sub_diag; reflexivity.
Qed.

Lemma get_snoc arr v idx x :
  get (arr ++ [v]) idx = Some x ->
  get arr idx = Some x \/ (idx = len arr /\ x = v).
Proof.
  intros H; destruct (get_inv _ _ _ H) as [Hr _].
  rewrite len_app, len_cons, len_nil in Hr.
  destruct (Z.eq_dec idx (len arr)) as [->|Hne].
  - right; split; [reflexivity|].
    rewrite get_snoc_last in H; congruence.
  - left.
    assert (Hlt : 0 <= idx < len arr) by lia.
    destruct (get_in_range arr idx Hlt) as [y Hy].
    rewrite (get_app_l arr [v] idx y Hy) in H; congruence.
Qed.
End ArrayFacts.

(** ** Paths *)

Lemma extends_cons i p j q : extends (i :: p) (j :: q) <-> i = j /\ extends p q.
Proof.
  unfold extends; split.
  - intros [r H]; simpl in H; injection H as -> ->; eauto.
  - intros [-> [r ->]]; exists r; reflexivity.
Qed.

Lemma extends_nil_l q : extends [] q.
Proof. exists q; reflexivity. Qed.

Lemma above_cons i q p : above (i :: q) (i :: p) <-> above q p.
Proof.
  unfold above; split.
  - intros (r & Hr & H); simpl in H; injection H as ->; eauto.
  - intros (r & Hr & ->); exists r; auto.
Qed.

Lemma apart_cons i p q : apart p q -> apart (i :: p) (i :: q).
Proof.
  intros [H1 H2]; split; rewrite extends_cons; tauto.
Qed.

Lemma apart_heads i p j q : i <> j -> apart (i :: p) (j :: q).
Proof.
  intros H; split; rewrite extends_cons; intros [E _]; congruence.
Qed.

(** Two paths continue one another, or one stops strictly above the
    other, or they part. *)
Lemma path_trichotomy (p q : Path) :
  extends p q \/ above q p \/ apart p q.
Proof.
  revert q; induction p as [|i p IH]; intros q.
  - left; apply extends_nil_l.
  - destruct q as [|j q].
    + right; left; exists (i :: p); split; [discriminate | reflexivity].
    + destruct (Z.eq_dec i j) as [->|Hne].
      * destruct (IH q) as [H|[H|H]].
        -- left; apply extends_cons; auto.
        -- right; left; apply above_cons; auto.
        -- right; right; apply apart_cons; auto.
      * right; right; apply apart_heads; auto.
Qed.

(** ** Resolving *)

Section Resolve.
Implicit Types (level : list Note) (p q r : Path) (n u : Note).

Lemma getLoop_cons level idx rest :
  getLoop level (idx :: rest) =
  match get level idx with
  | None => None
  | Some current => descend current rest
  end.
Proof.
  cbn [getLoop].
  destruct (get level idx) as [cur|] eqn:E.
  - destruct (get_inv _ _ _ _ E) as [Hr _]; ztests; try lia.
    destruct rest; reflexivity.
  - ztests; reflexivity.
Qed.

Lemma getNoteByPath_getLoop level p : getNoteByPath level p = getLoop level p.
Proof. destruct p; reflexivity. Qed.

Lemma descend_cons n idx rest :
  descend n (idx :: rest) =
  match subNotes n with
  | None => None
  | Some sub => getLoop sub (idx :: rest)
  end.
Proof. reflexivity. Qed.

Lemma descend_app n p r :
  descend n (p ++ r) =
  match descend n p with
  | None => None
  | Some m => descend m r
  end.
Proof.
  revert n; induction p as [|i p IH]; intros n; [reflexivity|].
  cbn [app]; rewrite !descend_cons.
  destruct (subNotes n) as [sub|]; [|reflexivity].
  rewrite !getLoop_cons.
  destruct (get sub i) as [cur|]; [apply IH | reflexivity].
Qed.

Lemma getLoop_app level p r :
  p <> [] ->
  getLoop level (p ++ r) =
  match getLoop level p with
  | None => None
  | Some n => descend n r
  end.
Proof.
  destruct p as [|i p]; [congruence|]; intros _.
  cbn [app]; rewrite !getLoop_cons.
  destruct (get level i) as [cur|]; [apply descend_app | reflexivity].
Qed.

(** A level that grows at its end keeps what it resolved. *)
Lemma getLoop_app_level level more p n :
  getLoop level p = Some n -> getLoop (level ++ more) p = Some n.
Proof.
  destruct p as [|i p]; [discriminate|].
  rewrite !getLoop_cons.
  destruct (get level i) as [cur|] eqn:E; [|discriminate].
  rewrite (get_app_l _ _ more _ _ E); auto.
Qed.

(** What a level with one more element resolves. *)
Lemma getLoop_snoc level x p n :
  getLoop (level ++ [x]) p = Some n ->
  getLoop level p = Some n
  \/ exists r, p = len level :: r /\ descend x r = Some n.
Proof.
  destruct p as [|i p]; [discriminate|].
  rewrite !getLoop_cons.
  destruct (get (level ++ [x]) i) as [cur|] eqn:E; [|discriminate].
  destruct (get_snoc _ _ _ _ _ E) as [H|[-> ->]]; intros D.
  - left; rewrite H; exact D.
  - right; eauto.
Qed.

Lemma inRange_resolves level p :
  p <> [] ->
  (inRange level p = true <-> exists n, getLoop level p = Some n).
Proof.
  revert level; induction p as [|i p IH]; intros level Hp; [congruence|].
  cbn [inRange]; rewrite getLoop_cons.
  destruct (get level i) as [cur|].
  - destruct p as [|j p].
    + cbn; split; eauto.
    + rewrite descend_cons.
      destruct (subNotes cur) as [sub|].
      * apply IH; discriminate.
      * split; [discriminate | intros [? ?]; discriminate].
  - split; [discriminate | intros [? ?]; discriminate].
Qed.
End Resolve.

(** ** Replacing *)

Section Replace.
Implicit Types (level : list Note) (p q r : Path) (n u : Note).

Lemma array_store_inside (A : Type) (arr : list A) idx (v : A) :
  0 <= idx < len arr ->
  array_store arr idx v = Dense (update arr (Z.to_nat idx) v).
Proof. intros H; unfold array_store; ztests; auto; exfalso; lia. Qed.

Lemma array_store_end (A : Type) (arr : list A) (v : A) :
  array_store arr (len arr) v = Dense (arr ++ [v]).
Proof.
  pose proof (len_nonneg _ arr); unfold array_store; ztests; auto; exfalso; lia.
Qed.

Lemma array_store_beyond (A : Type) (arr : list A) idx (v : A) :
  idx < 0 \/ len arr < idx -> array_store arr idx v = Sparse.
Proof.
  intros H; pose proof (len_nonneg _ arr).
  unfold array_store; ztests; auto; exfalso; lia.
Qed.

Lemma setLoop_last level idx u :
  setLoop level [idx] u = Some (array_store level idx u).
Proof. reflexivity. Qed.

Lemma setLoop_inner level idx j rest u :
  setLoop level (idx :: j :: rest) u =
  match get level idx with
  | None => None
  | Some parent =>
      match setLoop (subNotes_or_empty parent) (j :: rest) u with
      | None => None
      | Some Sparse => Some Sparse
      | Some (Dense sub') =>
          Some (Dense (update level (Z.to_nat idx)
                         (with_subNotes parent (Some sub'))))
      end
  end.
Proof. reflexivity. Qed.

(** On a path that resolves, the loop ends with a dense array of the
    same length. *)
Lemma setLoop_resolved level p u old :
  getLoop level p = Some old ->
  exists level', setLoop level p u = Some (Dense level')
                 /\ len level' = len level.
Proof.
  revert level; induction p as [|i p IH]; intros level H; [discriminate|].
  rewrite getLoop_cons in H.
  destruct (get level i) as [cur|] eqn:E; [|discriminate].
  destruct (get_inv _ _ _ _ E) as [Hr _].
  destruct p as [|j p].
  - rewrite setLoop_last, array_store_inside by exact Hr.
    eexists; split; [reflexivity | apply len_update].
  - rewrite setLoop_inner, E.
    rewrite descend_cons in H.
    unfold subNotes_or_empty.
    destruct (subNotes cur) as [sub|]; [|discriminate].
    destruct (IH sub H) as (sub' & -> & _).
    eexists; split; [reflexivity | apply len_update].
Qed.

(** What the array resolves after a replacement at a path that resolved
    before: below the path the new note, above it the same notes around
    the new one, elsewhere no change. *)
Lemma getLoop_after_set level p u old level' q :
  getLoop level p = Some old ->
  setLoop level p u = Some (Dense level') ->
  q <> [] ->
  (exists r, q = p ++ r /\ getLoop level' q = descend u r)
  \/ (above q p /\
      exists a a', getLoop level q = Some a /\ getLoop level' q = Some a'
                   /\ same_fields a a'
                   /\ subNotes a <> None /\ subNotes a' <> None)
  \/ (apart p q /\ getLoop level' q = getLoop level q).
Proof.
  revert level level' q; induction p as [|i p IH];
    intros level level' q H S Hq; [discriminate|].
  destruct q as [|j q]; [congruence|clear Hq].
  rewrite getLoop_cons in H.
  destruct (get level i) as [cur|] eqn:E; [|discriminate].
  destruct (get_inv _ _ _ _ E) as [Hr _].
  destruct p as [|k p].
  - rewrite setLoop_last, array_store_inside in S by exact Hr.
    injection S as <-.
    destruct (Z.eq_dec i j) as [<-|Hne].
    + left; exists q; split; [reflexivity|].
      rewrite getLoop_cons, get_update_same by exact Hr; reflexivity.
    + right; right; split; [apply apart_heads; exact Hne|].
      rewrite !getLoop_cons, get_update_other by lia; reflexivity.
  - rewrite setLoop_inner, E in S.
    rewrite descend_cons in H.
    unfold subNotes_or_empty in S.
    destruct (subNotes cur) as [sub|] eqn:Es; [|discriminate].
    destruct (setLoop sub (k :: p) u) as [[sub'|]|] eqn:S'; try discriminate.
    injection S as <-.
    destruct (Z.eq_dec i j) as [<-|Hne].
    + rewrite !getLoop_cons, get_update_same, E by exact Hr.
      destruct q as [|j q].
      * right; left; split.
        -- exists (k :: p); split; [discriminate | reflexivity].
        -- exists cur, (with_subNotes cur (Some sub')).
           repeat split; cbn; congruence.
      * rewrite !descend_cons, Es; cbn [with_subNotes subNotes].
        destruct (IH sub sub' (j :: q) H S') as [(r & -> & G)|[(A & G)|(A & G)]];
          [discriminate| | |].
        -- left; exists r; split; [reflexivity | exact G].
        -- right; left; split; [apply above_cons; exact A | exact G].
        -- right; right; split; [apply apart_cons; exact A | exact G].
    + right; right; split; [apply apart_heads; exact Hne|].
      rewrite !getLoop_cons, get_update_other by lia; reflexivity.
Qed.

Lemma getLoop_set_same level p u old level' :
  getLoop level p = Some old ->
  setLoop level p u = Some (Dense level') ->
  getLoop level' p = Some u.
Proof.
  intros H S.
  assert (Hp : p <> []) by (destruct p; [discriminate | congruence]).
  destruct (getLoop_after_set level p u old level' p H S Hp) as [(r & E & G)|[(A & _)|(A & _)]].
  - assert (r = []) as ->.
    { apply (f_equal (@List.length Z)) in E; rewrite length_app in E.
      destruct r; [reflexivity | simpl in E; lia]. }
    rewrite G; reflexivity.
  - destruct A as (r & Hr & E).
    apply (f_equal (@List.length Z)) in E; rewrite length_app in E.
    destruct r; [congruence | simpl in E; lia].
  - destruct A as [A _]; exfalso; apply A; exists []; symmetry; apply app_nil_r.
Qed.

Lemma getLoop_set_below level p u old level' r :
  getLoop level p = Some old ->
  setLoop level p u = Some (Dense level') ->
  getLoop level' (p ++ r) = descend u r.
Proof.
  intros H S.
  assert (Hp : p <> []) by (destruct p; [discriminate | congruence]).
  rewrite getLoop_app, (getLoop_set_same level p u old level' H S) by exact Hp;
    reflexivity.
Qed.

Lemma getLoop_set_apart level p u old level' q :
  getLoop level p = Some old ->
  setLoop level p u = Some (Dense level') ->
  apart p q ->
  getLoop level' q = getLoop level q.
Proof.
  intros H S A.
  destruct q as [|j q]; [reflexivity|].
  assert (Hq : j :: q <> []) by discriminate.
  destruct (getLoop_after_set level p u old level' (j :: q) H S Hq)
    as [(r & E & _)|[((r & _ & E) & _)|(_ & G)]]; [| |exact G].
  - destruct A as [A _]; exfalso; apply A; exists r; exact E.
  - destruct A as [_ A]; exfalso; apply A; exists r; exact E.
Qed.

Lemma getLoop_set_above level p u old level' q a :
  getLoop level p = Some old ->
  setLoop level p u = Some (Dense level') ->
  above q p ->
  getLoop level q = Some a ->
  exists a', getLoop level' q = Some a' /\ same_fields a a'
             /\ subNotes a' <> None.
Proof.
  intros H S A Ha.
  assert (Hq : q <> []) by (destruct q; [discriminate | congruence]).
  destruct (getLoop_after_set level p u old level' q H S Hq)
    as [(r & E & _)|[(_ & b & b' & Hb & Hb' & F & _ & N)|((_ & X) & _)]].
  - destruct A as (r' & Hr' & E').
    rewrite E', <- app_assoc in E.
    apply (f_equal (@List.length Z)) in E; rewrite !length_app in E.
    destruct r'; [congruence | simpl in E; lia].
  - exists b'; rewrite Hb in Ha; injection Ha as <-; auto.
  - destruct A as (r' & _ & E'); exfalso; apply X; exists r'; exact E'.
Qed.
End Replace.

(** ** [setNoteByPath] *)

Section SetNoteByPath.
Implicit Types (notes : Forest) (path q : Path) (updated : Note).

Lemma setNoteByPath_resolved notes path updated old :
  getNoteByPath notes path = Some old ->
  exists newNotes,
    setNoteByPath notes path updated = SetNotes newNotes
    /\ setLoop notes path updated = Some (Dense newNotes)
    /\ len newNotes = len notes.
Proof.
  rewrite getNoteByPath_getLoop; intros H.
  destruct (setLoop_resolved _ _ updated _ H) as (newNotes & S & L).
  exists newNotes; repeat split; auto.
  destruct path; [discriminate|].
  unfold setNoteByPath; rewrite S; reflexivity.
Qed.

(** Writing behind the children of a note that resolves is replacing
    that note by itself with one more child. *)
Lemma setLoop_childPath (level : list Note) path parent updated :
  getLoop level path = Some parent ->
  setLoop level (childPath parent path) updated
  = setLoop level path (with_child parent updated).
Proof.
  unfold childPath.
  revert level; induction path as [|i path IH]; intros level H;
    [discriminate|].
  rewrite getLoop_cons in H.
  destruct (get level i) as [cur|] eqn:E; [|discriminate].
  destruct (get_inv _ _ _ _ E) as [Hr _].
  destruct path as [|j path].
  - injection H as ->.
    cbn [app]; rewrite setLoop_inner, E, !setLoop_last, array_store_end.
    rewrite array_store_inside by exact Hr; reflexivity.
  - rewrite descend_cons in H.
    change ((i :: j :: path) ++ [len (subNotes_or_empty parent)])
      with (i :: j :: (path ++ [len (subNotes_or_empty parent)])).
    rewrite !setLoop_inner, E.
    unfold subNotes_or_empty at 1 3.
    destruct (subNotes cur) as [sub|]; [|discriminate].
    change (j :: path ++ [len (subNotes_or_empty parent)])
      with ((j :: path) ++ [len (subNotes_or_empty parent)]).
    rewrite (IH sub H); reflexivity.
Qed.

(** Off the indices: a step through an element that is not there raises,
    a last element beyond the end leaves holes. *)
Lemma setNoteByPath_stray notes idx rest updated :
  (rest <> [] -> get notes idx = None ->
   setNoteByPath notes (idx :: rest) updated = Raised)
  /\ (idx < 0 \/ len notes < idx ->
      setNoteByPath notes [idx] updated = SetNotesSparse).
Proof.
  split.
  - intros Hr G; destruct rest as [|j rest]; [congruence|].
    unfold setNoteByPath; rewrite setLoop_inner, G; reflexivity.
  - intros H; unfold setNoteByPath.
    rewrite setLoop_last, array_store_beyond by exact H; reflexivity.
Qed.
End SetNoteByPath.

(** C10.  On the empty path [getNoteByPath] returns [null] and
    [setNoteByPath] returns before it reaches [setNotes]: the handler that
    made the call leaves the state as it was. *)
Theorem empty_path_is_inert (st : App) (updated : Note) :
  getNoteByPath (notes st) [] = None
  /\ setNoteByPath (notes st) [] updated = NoUpdate
  /\ calls_setNotes (setNoteByPath (notes st) [] updated) = false
  /\ commit st (Called (setNoteByPath (notes st) [] updated)) = Some st.
Proof. repeat split. Qed.

(** C1, as stated, fails: [setNoteByPath] checks no index.  On the empty
    forest the path [[0]] is out of range, and the note is stored; the path
    [[0; 0]] is out of range, and the run ends in a TypeError, not in a
    return. *)
Lemma setNoteByPath_unchecked :
  inRange [] [0] = false
  /\ setNoteByPath [] [0] newNote = SetNotes [newNote]
  /\ calls_setNotes (setNoteByPath [] [0] newNote) = true
  /\ inRange [] [0; 0] = false
  /\ setNoteByPath [] [0; 0] newNote = Raised.
Proof. repeat split. Qed.

(** C1, amended.  For a path that is not empty [setNoteByPath] never
    returns early.  If every element of the path is in range, it sets a
    forest of the same length in which the path resolves to the new note,
    every path that parts from it resolves as before, and every note above
    it keeps its title, content and collapsed flag.  If the path is the
    length of the forest, or a parent that resolves followed by the number
    of the parent's children (none for a parent without a children
    sequence, which gets one), the note is appended there. *)
Theorem setNoteByPath_replaces (notes : Forest) (path : Path) (updated : Note) :
  path <> [] ->
  setNoteByPath notes path updated <> NoUpdate
  /\ (inRange notes path = true ->
      exists newNotes,
        setNoteByPath notes path updated = SetNotes newNotes
        /\ len newNotes = len notes
        /\ getNoteByPath newNotes path = Some updated
        /\ (forall q, apart path q ->
                      getNoteByPath newNotes q = getNoteByPath notes q)
        /\ (forall q a, above q path -> getNoteByPath notes q = Some a ->
                        exists a', getNoteByPath newNotes q = Some a'
                                   /\ same_fields a a'))
  /\ (path = [len notes] ->
      setNoteByPath notes path updated = SetNotes (notes ++ [updated]))
  /\ (forall parentPath parent,
         getNoteByPath notes parentPath = Some parent ->
         path = childPath parent parentPath ->
         exists newNotes,
           setNoteByPath notes path updated = SetNotes newNotes
           /\ getNoteByPath newNotes parentPath
              = Some (with_subNotes parent
                        (Some (subNotes_or_empty parent ++ [updated])))
           /\ getNoteByPath newNotes path = Some updated).
Proof.
  intros Hp; split; [|split; [|split]].
  - destruct path; [congruence|].
    unfold setNoteByPath.
    destruct (setLoop notes (z :: path) updated) as [[?|]|]; discriminate.
  - intros R.
    apply (inRange_resolves notes path Hp) in R; destruct R as [old H].
    rewrite <- getNoteByPath_getLoop in H.
    destruct (setNoteByPath_resolved _ _ updated _ H) as (newNotes & S & L & Hl).
    rewrite getNoteByPath_getLoop in H.
    exists newNotes; repeat split; auto.
    + rewrite getNoteByPath_getLoop; eapply getLoop_set_same; eauto.
    + intros q A; rewrite !getNoteByPath_getLoop.
      eapply getLoop_set_apart; eauto.
    + intros q a A Ha; rewrite getNoteByPath_getLoop in *.
      destruct (getLoop_set_above _ _ _ _ _ _ _ H L A Ha) as (a' & G & F & _); eauto.
  - intros ->; unfold setNoteByPath.
    rewrite setLoop_last, array_store_end; reflexivity.
  - intros parentPath parent H ->.
    assert (L0 := H); rewrite getNoteByPath_getLoop in L0.
    destruct (setNoteByPath_resolved _ _ (with_child parent updated) _ H)
      as (newNotes & S & L & Hl).
    exists newNotes.
    assert (G : getLoop newNotes parentPath = Some (with_child parent updated))
      by (eapply getLoop_set_same; eauto).
    repeat split.
    + unfold setNoteByPath; rewrite (setLoop_childPath _ _ _ updated L0), L.
      unfold childPath; destruct parentPath; [discriminate | reflexivity].
    + rewrite getNoteByPath_getLoop; exact G.
    + rewrite getNoteByPath_getLoop; unfold childPath.
      rewrite getLoop_app, G by (destruct parentPath; [discriminate|congruence]).
      cbn [descend with_child with_subNotes subNotes].
      rewrite getLoop_cons, get_snoc_last; reflexivity.
Qed.

Lemma setNoteByPath_replaces_witness :
  exists newNotes,
    setNoteByPath [newNote] [0] newSubNote = SetNotes newNotes
    /\ getNoteByPath newNotes [0] = Some newSubNote.
Proof.
  assert (Hp : [0] <> @nil Z) by discriminate.
  destruct (setNoteByPath_replaces [newNote] [0] newSubNote Hp) as (_ & H & _).
  destruct (H eq_refl) as (newNotes & S & _ & G & _).
  exists newNotes; split; assumption.
Defined.

(** ** The handlers *)

Section Handlers.
Implicit Types (st : App) (path q : Path).

(** A handler that found its note goes on to a [setNotes]. *)
Lemma guarded_write (f : Forest) path (old updated : Note) :
  getNoteByPath f path = Some old ->
  exists newNotes,
    setNoteByPath f path updated = SetNotes newNotes
    /\ getLoop f path = Some old
    /\ setLoop f path updated = Some (Dense newNotes).
Proof.
  intros H.
  destruct (setNoteByPath_resolved _ _ updated _ H) as (newNotes & S & L & _).
  rewrite getNoteByPath_getLoop in H; eauto.
Qed.

Lemma handleAddSubNote_adds (f : Forest) path parent :
  getNoteByPath f path = Some parent ->
  len path < 4 ->
  handleAddSubNote f path
  = Called (setNoteByPath f path (with_child parent newSubNote)).
Proof.
  intros H L; unfold handleAddSubNote; rewrite H.
  ztests; [exfalso; lia | reflexivity].
Qed.

Lemma handleAddSubNote_appends (f : Forest) path parent :
  getNoteByPath f path = Some parent ->
  len path < 4 ->
  exists f',
    handleAddSubNote f path = Called (SetNotes f')
    /\ getLoop f path = Some parent
    /\ setLoop f path (with_child parent newSubNote) = Some (Dense f')
    /\ getNoteByPath f' (childPath parent path) = Some newSubNote.
Proof.
  intros H L; rewrite (handleAddSubNote_adds f path parent H L).
  destruct (guarded_write _ _ _ (with_child parent newSubNote) H)
    as (f' & S & G & W).
  exists f'; rewrite S; repeat split; auto.
  unfold childPath.
  rewrite getNoteByPath_getLoop, (getLoop_set_below _ _ _ _ _ _ G W).
  cbn [descend with_child with_subNotes subNotes].
  rewrite getLoop_cons, get_snoc_last; reflexivity.
Qed.

(** No handler leaves the notes in a state that is not a dense array. *)
Lemma commit_guarded st (h : Handled) :
  (forall r, h = Called r -> exists f', r = SetNotes f') ->
  exists st', commit st h = Some st'.
Proof.
  intros H; destruct h as [|msg|r]; cbn [commit]; eauto.
  destruct (H r eq_refl) as (f' & ->); eauto.
Qed.

Lemma step_total st (op : Op) : exists st', step st op = Some st'.
Proof.
  destruct op as [|a|a|a| |value|value]; cbn [step]; eauto;
    apply commit_guarded; intros r.
  - unfold handleAddSubNote.
    destruct (getNoteByPath (notes st) a) as [parent|] eqn:H; [|discriminate].
    destruct (len a >=? 4); [discriminate|].
    destruct (guarded_write _ _ _ (with_child parent newSubNote) H)
      as (f' & S & _).
    unfold with_child in S; rewrite S; intros E; injection E as <-; eauto.
  - unfold handleToggleCollapse.
    destruct (getNoteByPath (notes st) a) as [note|] eqn:H; [|discriminate].
    destruct (guarded_write _ _ _
                (with_isCollapsed note
                   (Some (negb (truthy (isCollapsed note))))) H)
      as (f' & S & _).
    rewrite S; intros E; injection E as <-; eauto.
  - unfold handleNoteTitleChange.
    destruct (getNoteByPath (notes st) (selectedPath st)) as [cur|] eqn:H;
      [|discriminate].
    destruct (guarded_write _ _ _ (with_title cur value) H) as (f' & S & _).
    rewrite S; intros E; injection E as <-; eauto.
  - unfold handleNoteContentChange.
    destruct (getNoteByPath (notes st) (selectedPath st)) as [cur|] eqn:H;
      [|discriminate].
    destruct (guarded_write _ _ _ (with_content cur value) H) as (f' & S & _).
    rewrite S; intros E; injection E as <-; eauto.
Qed.

Lemma run_total (ops : list Op) : forall st, exists st', run st ops = Some st'.
Proof.
  induction ops as [|op ops IH]; intros st; cbn [run]; [eauto|].
  destruct (step_total st op) as (st1 & ->); apply IH.
Qed.
End Handlers.

(** C2, as stated, fails: a path of length 4 that does not resolve is
    turned away without the alert, because the handler resolves the path
    before it looks at its length. *)
Lemma handleAddSubNote_resolves_first :
  len [0; 0; 0; 0] = 4
  /\ getNoteByPath [] [0; 0; 0; 0] = None
  /\ handleAddSubNote [] [0; 0; 0; 0] = Ignored.
Proof. repeat split. Qed.

(** C2, amended.  A parent path that does not resolve is turned away in
    silence, whatever its length; one that resolves and has length 4 or
    more is turned away with the alert; both leave the state as it was.
    Otherwise the forest set has the new note behind the parent's children,
    at the parent's path followed by the number of children the parent
    had, with the older children and every path that parts from the
    parent's where they were. *)
Theorem handleAddSubNote_spec (st : App) (path : Path) :
  match getNoteByPath (notes st) path with
  | None =>
      handleAddSubNote (notes st) path = Ignored
      /\ commit st (handleAddSubNote (notes st) path) = Some st
  | Some parent =>
      if len path >=? 4 then
        handleAddSubNote (notes st) path
        = Alerted "Maximum nesting depth of 4 reached."
        /\ commit st (handleAddSubNote (notes st) path) = Some st
      else
        exists newNotes,
          handleAddSubNote (notes st) path = Called (SetNotes newNotes)
          /\ commit st (handleAddSubNote (notes st) path)
             = Some (mkApp newNotes (selectedPath st))
          /\ getNoteByPath newNotes path
             = Some (with_subNotes parent
                       (Some (subNotes_or_empty parent ++ [newSubNote])))
          /\ getNoteByPath newNotes
               (path ++ [len (subNotes_or_empty parent)]) = Some newSubNote
          /\ (forall i c, get (subNotes_or_empty parent) i = Some c ->
                          getNoteByPath newNotes (path ++ [i]) = Some c)
          /\ (forall q, apart path q ->
                        getNoteByPath newNotes q = getNoteByPath (notes st) q)
  end.
Proof.
  destruct (getNoteByPath (notes st) path) as [parent|] eqn:H.
  - destruct (len path >=? 4) eqn:L.
    + unfold handleAddSubNote; rewrite H, L; split; reflexivity.
    + assert (Hl : len path < 4) by (ztests_in L; [discriminate | lia]).
      rewrite (handleAddSubNote_adds _ _ _ H Hl).
      destruct (guarded_write _ _ _ (with_child parent newSubNote) H)
        as (newNotes & S & G & W).
      assert (Hp : path <> []) by (destruct path; [discriminate|congruence]).
      exists newNotes; rewrite S; repeat split.
      * rewrite getNoteByPath_getLoop; eapply getLoop_set_same; eauto.
      * rewrite getNoteByPath_getLoop, (getLoop_set_below _ _ _ _ _ _ G W).
        cbn [descend with_child with_subNotes subNotes].
        rewrite getLoop_cons, get_snoc_last; reflexivity.
      * intros i c Hc.
        rewrite getNoteByPath_getLoop, (getLoop_set_below _ _ _ _ _ _ G W).
        cbn [descend with_child with_subNotes subNotes].
        rewrite getLoop_cons, (get_app_l _ _ _ _ _ Hc); reflexivity.
      * intros q A; rewrite !getNoteByPath_getLoop.
        eapply getLoop_set_apart; eauto.
  - unfold handleAddSubNote; rewrite H; split; reflexivity.
Qed.

(** ** Depth *)

Section Depth.
Implicit Types (st : App) (f : Forest) (p q r : Path) (n u : Note).

Lemma getNoteByPath_nonempty f q n :
  getNoteByPath f q = Some n -> 1 <= len q.
Proof.
  destruct q; [discriminate|]; intros _; rewrite len_cons.
  pose proof (len_nonneg _ q); lia.
Qed.

Lemma descend_same_subNotes n u r :
  subNotes u = subNotes n -> r <> [] -> descend u r = descend n r.
Proof.
  intros E Hr; destruct r; [congruence|].
  rewrite !descend_cons, E; reflexivity.
Qed.

Lemma descend_subNotes_or_empty n r x :
  r <> [] -> getLoop (subNotes_or_empty n) r = Some x ->
  descend n r = Some x.
Proof.
  intros Hr; destruct r as [|i r]; [congruence|].
  rewrite descend_cons; unfold subNotes_or_empty.
  destruct (subNotes n); [auto|].
  rewrite getLoop_cons, get_nil; discriminate.
Qed.

Lemma descend_leaf t c col r x :
  descend (mkNote t c (Some []) col) r = Some x -> r = [].
Proof.
  destruct r as [|i r]; [reflexivity|].
  rewrite descend_cons; cbn [subNotes].
  rewrite getLoop_cons, get_nil; discriminate.
Qed.

(** What lies below a parent that got one more child. *)
Lemma descend_with_child parent child r x :
  r <> [] ->
  descend (with_child parent child) r = Some x ->
  descend parent r = Some x
  \/ exists r', r = len (subNotes_or_empty parent) :: r'
                /\ descend child r' = Some x.
Proof.
  intros Hr D; destruct r as [|i r]; [congruence|].
  rewrite descend_cons in D; cbn [with_child with_subNotes subNotes] in D.
  destruct (getLoop_snoc _ _ _ _ D) as [G|G]; [left | right; exact G].
  apply descend_subNotes_or_empty; [discriminate | exact G].
Qed.

Lemma depth_after_set f p u old f' :
  depth_bounded f ->
  getLoop f p = Some old ->
  setLoop f p u = Some (Dense f') ->
  (forall r n, r <> [] -> descend u r = Some n ->
               descend old r = Some n \/ len (p ++ r) <= 4) ->
  depth_bounded f'.
Proof.
  intros B H S D q n G.
  assert (Hp : p <> []) by (destruct p; [discriminate|congruence]).
  assert (Hq : q <> []) by (destruct q; [discriminate|congruence]).
  rewrite getNoteByPath_getLoop in G.
  destruct (getLoop_after_set f p u old f' q H S Hq)
    as [(r & -> & E)|[(_ & a & _ & Ha & _)|(_ & E)]].
  - destruct r as [|i r].
    + rewrite app_nil_r; apply (B p old).
      rewrite getNoteByPath_getLoop; exact H.
    + rewrite E in G.
      destruct (D (i :: r) n) as [D'|D']; [discriminate | exact G | | exact D'].
      apply (B _ n); rewrite getNoteByPath_getLoop, getLoop_app, H by exact Hp.
      exact D'.
  - apply (B q a); rewrite getNoteByPath_getLoop; exact Ha.
  - apply (B q n); rewrite getNoteByPath_getLoop, <- E; exact G.
Qed.

Lemma depth_after_edit f p u old :
  depth_bounded f ->
  getNoteByPath f p = Some old ->
  subNotes u = subNotes old ->
  exists f', setNoteByPath f p u = SetNotes f' /\ depth_bounded f'.
Proof.
  intros B H E.
  destruct (guarded_write f p old u H) as (f' & S & G & W).
  exists f'; split; [exact S|].
  apply (depth_after_set f p u old f' B G W).
  intros r n Hr D; left.
  rewrite <- (descend_same_subNotes old u r E Hr); exact D.
Qed.

Lemma depth_after_new f : depth_bounded f -> depth_bounded (f ++ [newNote]).
Proof.
  intros B q n G; rewrite getNoteByPath_getLoop in G.
  destruct (getLoop_snoc _ _ _ _ G) as [G'|(r & -> & D)].
  - apply (B q n); rewrite getNoteByPath_getLoop; exact G'.
  - apply descend_leaf in D; subst r; rewrite len_cons, len_nil; lia.
Qed.

Lemma depth_after_add f p parent :
  depth_bounded f ->
  getNoteByPath f p = Some parent ->
  len p < 4 ->
  exists f', handleAddSubNote f p = Called (SetNotes f') /\ depth_bounded f'.
Proof.
  intros B H L.
  rewrite (handleAddSubNote_adds f p parent H L).
  destruct (guarded_write f p parent (with_child parent newSubNote) H)
    as (f' & S & G & W).
  exists f'; split; [rewrite S; reflexivity|].
  apply (depth_after_set f p _ parent f' B G W).
  intros r n Hr D.
  destruct (descend_with_child parent newSubNote r n Hr D)
    as [D'|(r' & -> & D')]; [left; exact D'|right].
  apply descend_leaf in D'; subst r'.
  rewrite len_app, len_cons, len_nil; lia.
Qed.

(** Every action goes through, and keeps the bound. *)
Lemma step_depth st op :
  depth_bounded (notes st) ->
  exists st', step st op = Some st' /\ depth_bounded (notes st').
Proof.
  intros B; destruct op as [|path|path|path| |value|value]; cbn [step].
  - eexists; split; [reflexivity | apply depth_after_new; exact B].
  - unfold handleAddSubNote.
    destruct (getNoteByPath (notes st) path) as [parent|] eqn:H;
      [|exists st; auto].
    destruct (len path >=? 4) eqn:L; [exists st; auto|].
    assert (Hl : len path < 4) by (ztests_in L; [discriminate | lia]).
    destruct (depth_after_add _ _ _ B H Hl) as (f' & S & B').
    unfold handleAddSubNote in S; rewrite H, L in S.
    rewrite S; eexists; split; [reflexivity | exact B'].
  - unfold handleToggleCollapse.
    destruct (getNoteByPath (notes st) path) as [note|] eqn:H;
      [|exists st; auto].
    destruct (depth_after_edit _ _
                (with_isCollapsed note
                   (Some (negb (truthy (isCollapsed note))))) _ B H eq_refl)
      as (f' & -> & B').
    eexists; split; [reflexivity | exact B'].
  - exists (handleSelectPath st path); auto.
  - exists (handleGoHome st); auto.
  - unfold handleNoteTitleChange.
    destruct (getNoteByPath (notes st) (selectedPath st)) as [cur|] eqn:H;
      [|exists st; auto].
    destruct (depth_after_edit _ _ (with_title cur value) _ B H eq_refl)
      as (f' & -> & B').
    eexists; split; [reflexivity | exact B'].
  - unfold handleNoteContentChange.
    destruct (getNoteByPath (notes st) (selectedPath st)) as [cur|] eqn:H;
      [|exists st; auto].
    destruct (depth_after_edit _ _ (with_content cur value) _ B H eq_refl)
      as (f' & -> & B').
    eexists; split; [reflexivity | exact B'].
Qed.

Lemma run_depth ops : forall st,
  depth_bounded (notes st) ->
  exists st', run st ops = Some st' /\ depth_bounded (notes st').
Proof.
  induction ops as [|op ops IH]; intros st B; cbn [run].
  - exists st; auto.
  - destruct (step_depth st op B) as (st1 & -> & B1).
    apply IH; exact B1.
Qed.

Lemma created_length st op p made :
  depth_bounded (notes st) ->
  created st op = Some (p, made) -> 1 <= len p <= 4.
Proof.
  intros B; destruct op as [|path|path|path| |value|value]; cbn [created];
    try discriminate.
  - intros E; injection E as <- _; rewrite len_cons, len_nil; lia.
  - destruct (getNoteByPath (notes st) path) as [parent|] eqn:H;
      [|discriminate].
    destruct (len path >=? 4) eqn:L; [discriminate|].
    intros E; injection E as <- _.
    pose proof (getNoteByPath_nonempty _ _ _ H).
    unfold childPath; rewrite len_app, len_cons, len_nil.
    ztests_in L; [discriminate | lia].
Qed.
End Depth.

(** C5.  Whatever the user does from the empty forest, every action goes
    through, every note that can be reached lies at a path of length 1 to
    4, and so does every path a create action then yields. *)
Theorem depth_invariant (ops : list Op) :
  exists st,
    run (mkApp [] []) ops = Some st
    /\ (forall p n, getNoteByPath (notes st) p = Some n -> 1 <= len p <= 4)
    /\ (forall op p made, created st op = Some (p, made) -> 1 <= len p <= 4).
Proof.
  assert (B0 : depth_bounded (notes (mkApp [] []))).
  { intros q n G; destruct q; [discriminate|].
    cbn [getNoteByPath notes] in G.
    rewrite getLoop_cons, get_nil in G; discriminate. }
  destruct (run_depth ops _ B0) as (st & R & B).
  exists st; split; [exact R|]; split.
  - intros p n G; split; [eapply getNoteByPath_nonempty; eauto | eapply B; eauto].
  - intros op p made; apply created_length; exact B.
Qed.

(** ** Created notes stay where they were put *)

Section RoundTrip.
Implicit Types (st : App) (f : Forest) (p q r path : Path) (n made : Note).

Lemma same_fields_refl n : same_fields n n.
Proof. repeat split. Qed.

Lemma keeps_after_new f path made :
  keeps f path made -> keeps (f ++ [newNote]) path made.
Proof.
  intros (n & G & F & N); exists n; split; [|split; assumption].
  rewrite getNoteByPath_getLoop in *; apply getLoop_app_level; exact G.
Qed.

Lemma keeps_after_add f a parent f' path made :
  keeps f path made ->
  getLoop f a = Some parent ->
  setLoop f a (with_child parent newSubNote) = Some (Dense f') ->
  keeps f' path made.
Proof.
  intros (n & G & F & N) H S; unfold keeps.
  rewrite getNoteByPath_getLoop in G.
  assert (Ha : a <> []) by (destruct a; [discriminate|congruence]).
  assert (Hq : path <> []) by (destruct path; [discriminate|congruence]).
  destruct (getLoop_after_set f a _ parent f' path H S Hq)
    as [(r & -> & E)|[(_ & b & b' & Hb & Hb' & Fb & _ & Nb)|(_ & E)]].
  - rewrite getNoteByPath_getLoop, E.
    rewrite getLoop_app, H in G by exact Ha.
    destruct r as [|i r].
    + injection G as <-.
      exists (with_child parent newSubNote); repeat split; try apply F.
      discriminate.
    + exists n; repeat split; try apply F; auto.
      rewrite descend_cons in *; cbn [with_child with_subNotes subNotes].
      unfold subNotes_or_empty.
      destruct (subNotes parent) as [kids|]; [|discriminate].
      apply getLoop_app_level; exact G.
  - rewrite Hb in G; injection G as ->.
    exists b'; rewrite getNoteByPath_getLoop; repeat split; auto.
    all: destruct F as (F1 & F2 & F3), Fb as (B1 & B2 & B3); congruence.
  - exists n; rewrite getNoteByPath_getLoop, E; repeat split; auto; apply F.
Qed.

Lemma step_keeps st op path made :
  is_create op = true ->
  keeps (notes st) path made ->
  exists st', step st op = Some st' /\ keeps (notes st') path made.
Proof.
  intros C K; destruct op as [|a|a|a| |value|value]; try discriminate;
    cbn [step].
  - eexists; split; [reflexivity | apply keeps_after_new; exact K].
  - unfold handleAddSubNote.
    destruct (getNoteByPath (notes st) a) as [parent|] eqn:H;
      [|exists st; auto].
    destruct (len a >=? 4) eqn:L; [exists st; auto|].
    destruct (guarded_write _ _ _ (with_child parent newSubNote) H)
      as (f' & S & G & W).
    unfold with_child in S; rewrite S.
    eexists; split; [reflexivity|].
    eapply keeps_after_add; eauto.
Qed.

Lemma run_keeps later : forall st path made,
  forallb is_create later = true ->
  keeps (notes st) path made ->
  exists st', run st later = Some st' /\ keeps (notes st') path made.
Proof.
  induction later as [|op later IH]; intros st path made C K; cbn [run].
  - exists st; auto.
  - cbn [forallb] in C; apply andb_prop in C; destruct C as [C1 C2].
    destruct (step_keeps st op path made C1 K) as (st1 & -> & K1).
    apply IH; assumption.
Qed.

(** Right after a create action its path resolves to the note it made. *)
Lemma created_resolves st op path made :
  created st op = Some (path, made) ->
  exists st', step st op = Some st'
              /\ getNoteByPath (notes st') path = Some made
              /\ subNotes made = Some []
              /\ (op = NewNote -> selectedPath st' = path).
Proof.
  destruct op as [|a|a|a| |value|value]; cbn [created step]; try discriminate.
  - intros E; injection E as <- <-.
    eexists; repeat split.
    cbn [handleNewNote notes getNoteByPath].
    rewrite getLoop_cons, get_snoc_last; reflexivity.
  - destruct (getNoteByPath (notes st) a) as [parent|] eqn:H; [|discriminate].
    destruct (len a >=? 4) eqn:L; [discriminate|].
    assert (Hl : len a < 4) by (ztests_in L; [discriminate | lia]).
    destruct (handleAddSubNote_appends _ _ _ H Hl) as (f' & -> & _ & _ & G).
    intros E; injection E as <- <-.
    eexists; repeat split; [exact G | discriminate].
Qed.
End RoundTrip.

(** C6, as stated, fails: a note that was created with no children has
    one as soon as [handleAddSubNote] is called on its path. *)
Lemma created_note_gains_children :
  created (mkApp [] []) NewNote = Some ([0], newNote)
  /\ exists st,
      run (mkApp [] []) [NewNote; AddSubNote [0]] = Some st
      /\ getNoteByPath (notes st) [0]
         = Some (mkNote "Untitled Note" "" (Some [newSubNote]) (Some false))
      /\ getNoteByPath (notes st) [0] <> Some newNote.
Proof.
  split; [reflexivity|].
  eexists; split; [reflexivity|]; split; [reflexivity | discriminate].
Qed.

(** C6, amended.  From any state, a create action goes through, and so
    do the create actions after it.  The path the action yields resolves,
    right after it, to the note it made (one of the two default notes,
    with no children and not collapsed; [handleNewNote] also selects that
    path), and after the later create actions to a note with that title,
    content and collapsed flag, and a children sequence. *)
Theorem create_round_trip (st : App) (op : Op) (later : list Op) :
  is_create op = true ->
  forallb is_create later = true ->
  exists st' st'',
    step st op = Some st'
    /\ run st' later = Some st''
    /\ forall path made,
        created st op = Some (path, made) ->
        (made = newNote \/ made = newSubNote)
        /\ (op = NewNote -> selectedPath st' = path)
        /\ getNoteByPath (notes st') path = Some made
        /\ exists n, getNoteByPath (notes st'') path = Some n
                     /\ title n = title made
                     /\ content n = content made
                     /\ isCollapsed n = isCollapsed made
                     /\ subNotes n <> None.
Proof.
  intros _ Hlater.
  destruct (step_total st op) as (st' & S).
  destruct (run_total later st') as (st'' & R).
  exists st', st''; split; [exact S|]; split; [exact R|].
  intros path made E.
  destruct (created_resolves st op path made E) as (s1 & S1 & G & N & Sel).
  rewrite S in S1; injection S1 as <-.
  assert (K : keeps (notes st') path made).
  { exists made; repeat split; [exact G | rewrite N; discriminate]. }
  destruct (run_keeps later st' path made Hlater K) as (s2 & R2 & n & G2 & F & N2).
  rewrite R in R2; injection R2 as <-.
  split; [|split; [exact Sel|split; [exact G|]]].
  - destruct op as [|a|a|a| |value|value]; cbn [created] in E;
      try discriminate.
    + injection E as _ <-; auto.
    + destruct (getNoteByPath (notes st) a); [|discriminate].
      destruct (len a >=? 4); [discriminate|].
      injection E as _ <-; auto.
  - exists n; destruct F as (F1 & F2 & F3); repeat split; auto.
Qed.

Lemma create_round_trip_witness :
  exists st' st'',
    step (mkApp [] []) NewNote = Some st'
    /\ run st' [AddSubNote [0]; NewNote] = Some st''
    /\ exists n, getNoteByPath (notes st'') [0] = Some n
                 /\ title n = "Untitled Note"%string
                 /\ subNotes n <> None.
Proof.
  destruct (create_round_trip (mkApp [] []) NewNote [AddSubNote [0]; NewNote]
              eq_refl eq_refl) as (st' & st'' & S & R & H).
  destruct (H [0] newNote eq_refl) as (_ & _ & _ & n & G & T & _ & _ & N).
  exists st', st''; split; [exact S|]; split; [exact R|].
  exists n; split; [exact G|]; split; [exact T | exact N].
Defined.

(** ** Gathering *)

Import Search.

Section Gather.
Implicit Types (l : list Note) (p q r : Path) (n m x : Note)
         (res : list SearchResult).

Lemma preorder_unfold n p :
  preorder n p = (p, n) :: preorder_level (subNotes_or_empty n) p 0.
Proof.
  destruct n as [t c [sub|] col]; cbn [preorder subNotes subNotes_or_empty];
    [|reflexivity].
  f_equal; generalize 0.
  induction sub as [|m sub IH]; intros idx; cbn [preorder_level];
    [reflexivity|].
  f_equal; apply IH.
Qed.

Lemma visit_unfold n p res :
  visit n p res = dfs_from (subNotes_or_empty n) p 0 (res ++ [(p, n)]).
Proof.
  destruct n as [t c [sub|] col]; cbn [visit subNotes subNotes_or_empty];
    [|reflexivity].
  destruct (Z.gtb_spec (len sub) 0) as [_|Hl].
  - generalize (res ++ [(p, mkNote t c (Some sub) col)]); generalize 0.
    induction sub as [|a l IH]; intros idx acc; cbn [dfs_from];
      [reflexivity|].
    apply IH.
  - destruct sub as [|a l]; [reflexivity|].
    rewrite len_cons in Hl; pose proof (len_nonneg _ l); lia.
Qed.

Lemma dfs_from_preorder l :
  Forall (fun m => forall p res, visit m p res = res ++ preorder m p) l ->
  forall p idx res,
    dfs_from l p idx res = res ++ preorder_level l p idx.
Proof.
  induction 1 as [|m l Hm _ IH]; intros p idx res;
    cbn [dfs_from preorder_level].
  - symmetry; apply app_nil_r.
  - rewrite IH, Hm, app_assoc; reflexivity.
Qed.

(** The traversal pushes, behind what it was given, the note and then
    the traversals of its children. *)
Lemma visit_preorder n : forall p res, visit n p res = res ++ preorder n p.
Proof.
  induction n as [t c col|t c sub col IH] using Note_ind; intros p res;
    rewrite visit_unfold, preorder_unfold; cbn [subNotes_or_empty subNotes].
  - reflexivity.
  - rewrite (dfs_from_preorder sub IH), <- app_assoc; reflexivity.
Qed.

Lemma gatherAllNotes_preorder (notes : Forest) :
  gatherAllNotes notes = preorder_forest notes.
Proof.
  unfold gatherAllNotes, dfs, preorder_forest.
  rewrite dfs_from_preorder; [reflexivity|].
  apply Forall_forall; intros m _; apply visit_preorder.
Qed.

(** The entries of a level's traversal. *)
Lemma In_preorder_level l :
  Forall (fun m => forall p q x,
              In (q, x) (preorder m p)
              <-> exists r, q = p ++ r /\ descend m r = Some x) l ->
  forall p idx q x,
    In (q, x) (preorder_level l p idx)
    <-> exists i r m, 0 <= i /\ get l i = Some m
                      /\ q = p ++ (idx + i) :: r /\ descend m r = Some x.
Proof.
  induction 1 as [|m0 l Hm _ IH]; intros p idx q x; cbn [preorder_level].
  - split; [intros []|].
    intros (i & r & m & _ & G & _); rewrite get_nil in G; discriminate.
  - rewrite in_app_iff, Hm, IH; split.
    + intros [(r & -> & D)|(i & r & m & Hi & G & -> & D)].
      * exists 0, r, m0; rewrite get_cons_0, <- app_assoc, Z.add_0_r; auto with zarith.
      * exists (i + 1), r, m; rewrite get_cons_succ by exact Hi.
        replace (idx + (i + 1)) with (idx + 1 + i) by lia.
        repeat split; auto; lia.
    + intros (i & r & m & Hi & G & -> & D).
      rewrite get_cons in G.
      destruct (Z.eqb_spec i 0) as [->|Hne].
      * injection G as ->; left; exists r.
        rewrite <- app_assoc, Z.add_0_r; auto.
      * right; exists (i - 1), r, m.
        replace (idx + 1 + (i - 1)) with (idx + i) by lia.
        repeat split; auto; lia.
Qed.

Lemma In_preorder n : forall p q x,
  In (q, x) (preorder n p) <-> exists r, q = p ++ r /\ descend n r = Some x.
Proof.
  induction n as [t c col|t c sub col IH] using Note_ind; intros p q x;
    rewrite preorder_unfold; cbn [subNotes_or_empty subNotes preorder_level In].
  - split.
    + intros [E|[]]; injection E as <- <-; exists []; rewrite app_nil_r; auto.
    + intros ([|i r] & -> & D).
      * injection D as <-; rewrite app_nil_r; auto.
      * discriminate.
  - rewrite (In_preorder_level sub IH); split.
    + intros [E|(i & r & m & Hi & G & -> & D)].
      * injection E as <- <-; exists []; rewrite app_nil_r; auto.
      * exists (i :: r); split; [reflexivity|].
        rewrite descend_cons; cbn [subNotes]; rewrite getLoop_cons, G.
        exact D.
    + intros ([|i r] & -> & D).
      * injection D as <-; rewrite app_nil_r; auto.
      * right; rewrite descend_cons in D; cbn [subNotes] in D.
        rewrite getLoop_cons in D.
        destruct (get sub i) as [m|] eqn:G; [|discriminate].
        destruct (get_inv _ _ _ _ G) as [Hi _].
        exists i, r, m; repeat split; auto; lia.
Qed.

Lemma In_preorder_forest (notes : Forest) q x :
  In (q, x) (preorder_forest notes) <-> getNoteByPath notes q = Some x.
Proof.
  unfold preorder_forest; rewrite getNoteByPath_getLoop.
  rewrite In_preorder_level
    by (apply Forall_forall; intros m _; apply In_preorder).
  split.
  - intros (i & r & m & _ & G & -> & D); cbn [app Z.add].
    rewrite getLoop_cons, G; exact D.
  - destruct q as [|i r]; [discriminate|].
    rewrite getLoop_cons.
    destruct (get notes i) as [m|] eqn:G; [|discriminate].
    destruct (get_inv _ _ _ _ G) as [Hi _].
    intros D; exists i, r, m; repeat split; auto; lia.
Qed.
End Gather.

Section GatherOnce.
Implicit Types (l : list Note) (p q r : Path) (n m x : Note).

Lemma In_paths (L : list SearchResult) q :
  In q (map fst L) <-> exists x, In (q, x) L.
Proof.
  rewrite in_map_iff; split.
  - intros ([q' x] & E & H); cbn in E; subst q'; eauto.
  - intros (x & H); exists (q, x); auto.
Qed.

Lemma NoDup_paths_level l :
  Forall (fun m => forall p, NoDup (map fst (preorder m p))) l ->
  forall p idx, NoDup (map fst (preorder_level l p idx)).
Proof.
  induction 1 as [|m0 l Hm _ IH]; intros p idx; cbn [preorder_level map].
  - constructor.
  - rewrite map_app; apply NoDup_app; [apply Hm | apply IH|].
    intros q H1 H2.
    apply In_paths in H1; destruct H1 as (x1 & H1).
    apply In_paths in H2; destruct H2 as (x2 & H2).
    apply In_preorder in H1; destruct H1 as (r1 & E1 & _).
    apply In_preorder_level in H2;
      [|apply Forall_forall; intros m _; apply In_preorder].
    destruct H2 as (i & r2 & _ & Hi & _ & E2 & _).
    rewrite E1, <- app_assoc in E2; apply app_inv_head in E2.
    cbn [app] in E2; injection E2 as E2 _; lia.
Qed.

(** No path is gathered twice. *)
Lemma NoDup_paths n : forall p, NoDup (map fst (preorder n p)).
Proof.
  induction n as [t c col|t c sub col IH] using Note_ind; intros p;
    rewrite preorder_unfold; cbn [subNotes_or_empty subNotes map fst].
  - constructor; [intros [] | constructor].
  - constructor; [|apply NoDup_paths_level; exact IH].
    intros H; apply In_paths in H; destruct H as (x & H).
    apply In_preorder_level in H;
      [|apply Forall_forall; intros m _; apply In_preorder].
    destruct H as (i & r & _ & _ & _ & E & _).
    apply (f_equal (@List.length Z)) in E; rewrite length_app in E.
    cbn [List.length] in E; lia.
Qed.
End GatherOnce.

(** C9.  The entries of [gatherAllNotes] are the pairs of a path and the
    note [getNoteByPath] returns for it, internal notes included, and no
    path is entered twice: one entry per note. *)
Theorem gather_resolve_consistent (notes : Forest) :
  (forall p n, In (p, n) (gatherAllNotes notes)
               <-> getNoteByPath notes p = Some n)
  /\ NoDup (map fst (gatherAllNotes notes))
  /\ NoDup (gatherAllNotes notes).
Proof.
  rewrite gatherAllNotes_preorder.
  assert (N : NoDup (map fst (preorder_forest notes))).
  { apply NoDup_paths_level, Forall_forall; intros m _; apply NoDup_paths. }
  split; [intros p n; apply In_preorder_forest|]; split; [exact N|].
  apply NoDup_map_inv in N; exact N.
Qed.

(** ** Searching *)

Section Includes.
Implicit Types (s q a b : string).

Lemma prefix_continues q : forall s,
  String.prefix q s = true <-> exists b, s = (q ++ b)%string.
Proof.
  induction q as [|c q IH]; intros s.
  - split; [intros _; exists s; reflexivity | intros _; destruct s; reflexivity].
  - destruct s as [|d s]; cbn [String.prefix String.append].
    + split; [discriminate | intros [b E]; discriminate].
    + destruct (ascii_dec c d) as [->|Hne].
      * rewrite IH; split; intros [b E]; exists b; congruence.
      * split; [discriminate | intros [b E]; congruence].
Qed.

Lemma includes_unfold s q :
  includes s q =
  if String.prefix q s then true
  else match s with
       | EmptyString => false
       | String _ s' => includes s' q
       end.
Proof. destruct s; reflexivity. Qed.

Lemma includes_Contains s q : includes s q = true <-> Contains s q.
Proof.
  unfold Contains; split.
  - induction s as [|c s IH]; rewrite includes_unfold;
      destruct (String.prefix q _) eqn:P.
    + intros _; apply prefix_continues in P; destruct P as [b E].
      exists EmptyString, b; exact E.
    + discriminate.
    + intros _; apply prefix_continues in P; destruct P as [b E].
      exists EmptyString, b; exact E.
    + intros H; destruct (IH H) as (a & b & E).
      exists (String c a), b; cbn [String.append]; congruence.
  - intros (a & b & E); revert s E.
    induction a as [|c a IH]; intros s E; rewrite includes_unfold.
    + assert (P : String.prefix q s = true)
        by (apply prefix_continues; exists b; exact E).
      rewrite P; reflexivity.
    + destruct (String.prefix q s); [reflexivity|].
      cbn [String.append] in E; subst s; apply (IH _ eq_refl).
Qed.
End Includes.

(** C3.  The search gives nothing for a query that trims to the empty
    string.  For any other query it gives, in the order of the pre-order
    traversal [gatherAllNotes] makes, the entries whose lower-cased title or
    content contains the lower-cased query: every note that resolves, at
    whatever depth, is among the results if and only if it matches.  This
    is what the effect stores while the panel is open. *)
Theorem search_complete (toLowerCase trim : string -> string)
    (notes : Forest) (query : string) :
  let lowerQ := toLowerCase query in
  let hit (n : Note) :=
    Contains (toLowerCase (title n)) lowerQ
    \/ Contains (toLowerCase (content n)) lowerQ in
  gatherAllNotes notes = preorder_forest notes
  /\ search toLowerCase trim notes query
     = (if is_empty (trim query) then []
        else filter (matches toLowerCase lowerQ) (gatherAllNotes notes))
  /\ (forall r, matches toLowerCase lowerQ r = true <-> hit (snd r))
  /\ (forall p n,
         In (p, n) (search toLowerCase trim notes query)
         <-> is_empty (trim query) = false
             /\ getNoteByPath notes p = Some n /\ hit n)
  /\ (forall pnl,
         searchOpen pnl = true ->
         searchResults (searchEffect toLowerCase trim notes pnl)
         = search toLowerCase trim notes (searchQuery pnl)).
Proof.
  intros lowerQ hit.
  assert (M : forall r, matches toLowerCase lowerQ r = true <-> hit (snd r)).
  { intros r; unfold matches, hit.
    rewrite orb_true_iff, !includes_Contains; reflexivity. }
  split; [apply gatherAllNotes_preorder|]; split; [reflexivity|].
  split; [exact M|]; split.
  - intros p n; unfold search; fold lowerQ.
    destruct (is_empty (trim query)).
    + split; [intros [] | intros (E & _); discriminate].
    + rewrite filter_In, M.
      rewrite gatherAllNotes_preorder, In_preorder_forest; cbn [snd].
      tauto.
  - intros pnl O; unfold searchEffect; rewrite O; reflexivity.
Qed.

(** ** Collapsing *)

Section Collapse.
Implicit Types (level l : list Note) (p q r : Path) (n u : Note).

Lemma eraseCollapsed_unfold n :
  eraseCollapsed n
  = mkNote (title n) (content n)
      (option_map (map eraseCollapsed) (subNotes n)) None.
Proof. destruct n as [t c [sub|] col]; reflexivity. Qed.

Lemma eraseCollapsed_flag n c :
  eraseCollapsed (with_isCollapsed n c) = eraseCollapsed n.
Proof. rewrite !eraseCollapsed_unfold; reflexivity. Qed.

Lemma map_update (A B : Type) (g : A -> B) (arr : list A) i v :
  map g (update arr i v) = update (map g arr) i (g v).
Proof.
  revert i; induction arr as [|x arr IH]; intros [|i]; cbn [update map];
    try reflexivity.
  f_equal; apply IH.
Qed.

Lemma update_erased level idx cur u :
  get level idx = Some cur ->
  eraseCollapsed u = eraseCollapsed cur ->
  map eraseCollapsed (update level (Z.to_nat idx) u) = map eraseCollapsed level.
Proof.
  intros G E; rewrite map_update, E.
  apply update_same_value.
  destruct (get_inv _ _ _ _ G) as [_ N].
  rewrite nth_error_map, N; reflexivity.
Qed.

(** Replacing a note by one that differs from it in collapsed flags only
    changes nothing but collapsed flags. *)
Lemma erase_after_set p : forall level level' u old,
  getLoop level p = Some old ->
  setLoop level p u = Some (Dense level') ->
  eraseCollapsed u = eraseCollapsed old ->
  map eraseCollapsed level' = map eraseCollapsed level.
Proof.
  induction p as [|i p IH]; intros level level' u old H S E; [discriminate|].
  rewrite getLoop_cons in H.
  destruct (get level i) as [cur|] eqn:G; [|discriminate].
  destruct (get_inv _ _ _ _ G) as [Hr _].
  destruct p as [|j p].
  - injection H as ->.
    rewrite setLoop_last, array_store_inside in S by exact Hr.
    injection S as <-; apply (update_erased _ _ _ _ G E).
  - rewrite setLoop_inner, G in S; rewrite descend_cons in H.
    unfold subNotes_or_empty in S.
    destruct (subNotes cur) as [sub|] eqn:Es; [|discriminate].
    destruct (setLoop sub (j :: p) u) as [[sub'|]|] eqn:S'; try discriminate.
    injection S as <-; apply (update_erased _ _ _ _ G).
    rewrite !eraseCollapsed_unfold; cbn [with_subNotes title content subNotes].
    rewrite Es; cbn [option_map].
    rewrite (IH sub sub' u old H S' E); reflexivity.
Qed.

Lemma preorder_level_erased l :
  Forall (fun m => forall p, preorder (eraseCollapsed m) p
                             = map eraseResult (preorder m p)) l ->
  forall p idx,
    preorder_level (map eraseCollapsed l) p idx
    = map eraseResult (preorder_level l p idx).
Proof.
  induction 1 as [|m l Hm _ IH]; intros p idx; cbn [map preorder_level].
  - reflexivity.
  - rewrite map_app, Hm, IH; reflexivity.
Qed.

(** The traversal of the erased note is the erased traversal. *)
Lemma preorder_erased n : forall p,
  preorder (eraseCollapsed n) p = map eraseResult (preorder n p).
Proof.
  induction n as [t c col|t c sub col IH] using Note_ind; intros p;
    rewrite !preorder_unfold.
  - reflexivity.
  - cbn [eraseCollapsed subNotes_or_empty subNotes map].
    rewrite (preorder_level_erased sub IH); reflexivity.
Qed.

Lemma gatherAllNotes_erased (f : Forest) :
  gatherAllNotes (map eraseCollapsed f) = map eraseResult (gatherAllNotes f).
Proof.
  rewrite !gatherAllNotes_preorder; unfold preorder_forest.
  apply preorder_level_erased, Forall_forall; intros m _.
  apply preorder_erased.
Qed.

Variables toLowerCase trim : string -> string.

Lemma matches_erased lowerQ (r : SearchResult) :
  matches toLowerCase lowerQ (eraseResult r) = matches toLowerCase lowerQ r.
Proof.
  unfold matches, eraseResult; cbn [snd].
  rewrite eraseCollapsed_unfold; reflexivity.
Qed.

(** The search looks at titles and contents only. *)
Lemma search_erased (f : Forest) query :
  search toLowerCase trim (map eraseCollapsed f) query
  = map eraseResult (search toLowerCase trim f query).
Proof.
  unfold search; destruct (is_empty (trim query)); [reflexivity|].
  rewrite gatherAllNotes_erased, filter_map_swap.
  f_equal; apply filter_ext; intros r; apply matches_erased.
Qed.

Lemma paths_erased (L : list SearchResult) :
  map fst (map eraseResult L) = map fst L.
Proof. rewrite map_map; apply map_ext; intros [q x]; reflexivity. Qed.
End Collapse.

(** C8, as stated, fails: a search result holds the note, and the note
    holds its collapsed flag, so the results before and after a toggle are
    not the same values. *)
Lemma search_results_hold_the_flag :
  exists newNotes,
    handleToggleCollapse [newNote] [0] = Called (SetNotes newNotes)
    /\ search AsciiText.toLowerCase AsciiText.trim [newNote] "note"
       = [([0], newNote)]
    /\ search AsciiText.toLowerCase AsciiText.trim newNotes "note"
       = [([0], mkNote "Untitled Note" "" (Some []) (Some true))]
    /\ search AsciiText.toLowerCase AsciiText.trim newNotes "note"
       <> search AsciiText.toLowerCase AsciiText.trim [newNote] "note".
Proof.
  eexists; split; [reflexivity|]; split; [reflexivity|];
    split; [reflexivity|].
  vm_compute; discriminate.
Qed.

(** C8, amended.  On a path that resolves [handleToggleCollapse] sets a
    forest in which the note at the path is the old one with its flag
    negated; nothing but collapsed flags differs between the two forests;
    every note that is not above the path is the note it was, and the notes
    above keep their title, content and flag.  A search on the two forests
    gives the same paths in the same order, and the same notes up to
    collapsed flags. *)
Theorem handleToggleCollapse_frame (notes : Forest) (path : Path) (note : Note) :
  getNoteByPath notes path = Some note ->
  exists newNotes,
    handleToggleCollapse notes path = Called (SetNotes newNotes)
    /\ getNoteByPath newNotes path
       = Some (mkNote (title note) (content note) (subNotes note)
                 (Some (negb (truthy (isCollapsed note)))))
    /\ map eraseCollapsed newNotes = map eraseCollapsed notes
    /\ (forall q, q <> path -> ~ above q path ->
                  getNoteByPath newNotes q = getNoteByPath notes q)
    /\ (forall q n, q <> path -> getNoteByPath notes q = Some n ->
                    exists n', getNoteByPath newNotes q = Some n'
                               /\ same_fields n n')
    /\ (forall toLowerCase trim query,
           map fst (search toLowerCase trim newNotes query)
           = map fst (search toLowerCase trim notes query)
           /\ map eraseResult (search toLowerCase trim newNotes query)
              = map eraseResult (search toLowerCase trim notes query)).
Proof.
  intros H; unfold handleToggleCollapse; rewrite H.
  set (u := with_isCollapsed note (Some (negb (truthy (isCollapsed note))))).
  destruct (guarded_write _ _ _ u H) as (newNotes & S & G & W).
  assert (Hp : path <> []) by (destruct path; [discriminate|congruence]).
  assert (E : map eraseCollapsed newNotes = map eraseCollapsed notes)
    by (apply (erase_after_set path notes newNotes u note G W),
          eraseCollapsed_flag).
  assert (K : forall q, q <> path -> ~ above q path ->
                        getLoop newNotes q = getLoop notes q).
  { intros q Hq Ha.
    destruct (path_trichotomy path q) as [(r & ->)|[A|A]].
    - rewrite (getLoop_set_below _ _ _ _ _ r G W), getLoop_app, G by exact Hp.
      apply descend_same_subNotes; [reflexivity|].
      intros ->; apply Hq; apply app_nil_r.
    - contradiction.
    - apply (getLoop_set_apart _ _ _ _ _ _ G W A). }
  exists newNotes; rewrite S; split; [reflexivity|].
  split; [|split; [exact E|split; [|split]]].
  - rewrite getNoteByPath_getLoop; apply (getLoop_set_same _ _ _ _ _ G W).
  - intros q Hq Ha; rewrite !getNoteByPath_getLoop; apply K; assumption.
  - intros q n Hq Hn; rewrite getNoteByPath_getLoop in *.
    destruct (path_trichotomy path q) as [X|[A|X]].
    + exists n; split; [|apply same_fields_refl].
      rewrite K; [exact Hn | exact Hq|].
      intros (r & Hr & Er); destruct X as (r' & ->).
      rewrite <- app_assoc in Er.
      apply (f_equal (@List.length Z)) in Er; rewrite !length_app in Er.
      destruct r; [congruence | cbn [List.length] in Er; lia].
    + destruct (getLoop_set_above _ _ _ _ _ _ _ G W A Hn) as (n' & G' & F & _).
      exists n'; auto.
    + exists n; split; [|apply same_fields_refl].
      rewrite (getLoop_set_apart _ _ _ _ _ _ G W X); exact Hn.
  - intros toLowerCase trim query.
    assert (R : map eraseResult (search toLowerCase trim newNotes query)
                = map eraseResult (search toLowerCase trim notes query))
      by (rewrite <- !search_erased, E; reflexivity).
    split; [|exact R].
    rewrite <- (paths_erased (search toLowerCase trim newNotes query)), R.
    apply paths_erased.
Qed.

Lemma handleToggleCollapse_frame_witness :
  exists newNotes,
    handleToggleCollapse [newNote] [0] = Called (SetNotes newNotes)
    /\ map eraseCollapsed newNotes = map eraseCollapsed [newNote].
Proof.
  destruct (handleToggleCollapse_frame [newNote] [0] newNote eq_refl)
    as (newNotes & S & _ & E & _).
  exists newNotes; split; [exact S | exact E].
Defined.

(** ** Tabs *)

Import Tabs.

Section TabFacts.
Implicit Types (a b p : Path) (tabs : list Path) (st : TabSet).

Lemma pathsEqual_loop_eq a : forall b,
  List.length a = List.length b ->
  (pathsEqual_loop a b = true <-> a = b).
Proof.
  induction a as [|x a IH]; intros [|y b] L; cbn [pathsEqual_loop];
    try discriminate.
  - tauto.
  - injection L as L; destruct (Z.eqb_spec x y) as [->|Hne]; cbn [negb].
    + rewrite (IH b L); split; [intros ->; reflexivity|].
      intros E; injection E as ->; reflexivity.
    + split; [discriminate | intros E; congruence].
Qed.

(** [pathsEqual] is equality, element by element. *)
Lemma pathsEqual_eq a b : pathsEqual a b = true <-> a = b.
Proof.
  unfold pathsEqual, len.
  destruct (Z.eqb_spec (Z.of_nat (List.length a)) (Z.of_nat (List.length b)))
    as [E|Hne]; cbn [negb].
  - apply pathsEqual_loop_eq; lia.
  - split; [discriminate | intros ->; congruence].
Qed.

Lemma findIndex_from_app (A : Type) (f : A -> bool) (l more : list A) :
  forall i, (forall x, In x l -> f x = false) ->
            findIndex_from f (l ++ more) i = findIndex_from f more (i + len l).
Proof.
  induction l as [|x l IH]; intros i H; cbn [findIndex_from app].
  - rewrite len_nil, Z.add_0_r; reflexivity.
  - rewrite (H x (or_introl eq_refl)), IH, len_cons.
    + f_equal; lia.
    + intros y Hy; apply H; right; exact Hy.
Qed.

(** What [findIndex] returns: [-1] when no element passes, else the
    position of one that does. *)
Lemma findIndex_from_result (A : Type) (f : A -> bool) (l : list A) :
  forall i,
    0 <= i ->
    (findIndex_from f l i = -1 /\ forall x, In x l -> f x = false)
    \/ (exists x, i <= findIndex_from f l i
                  /\ get l (findIndex_from f l i - i) = Some x
                  /\ f x = true).
Proof.
  induction l as [|x l IH]; intros i Hi; cbn [findIndex_from].
  - left; split; [reflexivity | intros x []].
  - destruct (f x) eqn:Fx.
    + right; exists x; rewrite Z.sub_diag, get_cons_0; repeat split; auto; lia.
    + destruct (IH (i + 1)) as [(E & H)|(y & Hl & G & Fy)]; [lia| |].
      * left; split; [exact E|].
        intros z [<-|Hz]; [exact Fx | apply H; exact Hz].
      * right; exists y; split; [lia|]; split; [|exact Fy].
        rewrite get_cons.
        destruct (Z.eqb_spec (findIndex_from f l (i + 1) - i) 0); [lia|].
        rewrite <- G; f_equal; lia.
Qed.

Lemma remove_at_cons (A : Type) (x : A) (l : list A) i :
  remove_at (x :: l) (S i) = x :: remove_at l i.
Proof. reflexivity. Qed.

Lemma nth_error_remove_before (A : Type) (l : list A) : forall i j,
  (j < i)%nat -> nth_error (remove_at l i) j = nth_error l j.
Proof.
  induction l as [|x l IH]; intros i j H.
  - unfold remove_at; rewrite firstn_nil, skipn_nil; reflexivity.
  - destruct i as [|i]; [lia|]; rewrite remove_at_cons.
    destruct j as [|j]; [reflexivity|]; cbn [nth_error]; apply IH; lia.
Qed.

Lemma nth_error_remove_after (A : Type) (l : list A) : forall i j,
  (i <= j)%nat -> nth_error (remove_at l i) j = nth_error l (S j).
Proof.
  induction l as [|x l IH]; intros i j H.
  - unfold remove_at; rewrite firstn_nil, skipn_nil.
    destruct j; reflexivity.
  - destruct i as [|i]; [reflexivity|]; rewrite remove_at_cons.
    destruct j as [|j]; [lia|]; cbn [nth_error]; apply IH; lia.
Qed.

Lemma length_remove_at (A : Type) (l : list A) : forall i,
  (i < List.length l)%nat -> S (List.length (remove_at l i)) = List.length l.
Proof.
  induction l as [|x l IH]; intros i H; cbn [List.length] in *; [lia|].
  destruct i as [|i]; [reflexivity|].
  rewrite remove_at_cons; cbn [List.length]; rewrite IH; lia.
Qed.

Lemma len_remove_at (A : Type) (l : list A) i :
  0 <= i < len l -> len (remove_at l (Z.to_nat i)) = len l - 1.
Proof.
  unfold len; intros H.
  pose proof (length_remove_at A l (Z.to_nat i)); lia.
Qed.

Lemma get_remove_before (A : Type) (l : list A) i j :
  0 <= i < len l -> j < i ->
  get (remove_at l (Z.to_nat i)) j = get l j.
Proof.
  intros Hi Hj; unfold get; rewrite len_remove_at by exact Hi.
  ztests; auto; try (exfalso; lia).
  apply nth_error_remove_before; lia.
Qed.

Lemma get_remove_after (A : Type) (l : list A) i j :
  0 <= i < len l -> i <= j ->
  get (remove_at l (Z.to_nat i)) j = get l (j + 1).
Proof.
  intros Hi Hj; unfold get; rewrite len_remove_at by exact Hi.
  ztests; auto; try (exfalso; lia).
  replace (Z.to_nat (j + 1)) with (S (Z.to_nat j)) by lia.
  apply nth_error_remove_after; lia.
Qed.

Lemma splice1_inside (A : Type) (l : list A) index :
  0 <= index < len l -> splice1 l index = remove_at l (Z.to_nat index).
Proof.
  intros H; unfold splice1.
  destruct (Z.ltb_spec index 0); [lia|].
  rewrite Z.min_l by lia; reflexivity.
Qed.

Lemma openTabs_close st index :
  openTabs (handleTabClose st index) = splice1 (openTabs st) index.
Proof.
  unfold handleTabClose.
  repeat match goal with |- context [if ?c then _ else _] => destruct c end;
    reflexivity.
Qed.
End TabFacts.

(** C7.  [openNoteTab] looks for a tab equal to the path element by
    element; the tab it makes active holds the path; a path that was open
    adds no tab, one that was not is appended and made active.  A second
    call right after the first changes nothing: same tabs, same active
    index. *)
Theorem openNoteTab_idempotent (st : TabSet) (p : Path) :
  let st1 := openNoteTab st p in
  let st2 := openNoteTab st1 p in
  (forall a b, pathsEqual a b = true <-> a = b)
  /\ activeTabIndex st2 = activeTabIndex st1
  /\ openTabs st2 = openTabs st1
  /\ get (openTabs st1) (activeTabIndex st1) = Some p
  /\ (In p (openTabs st) -> openTabs st1 = openTabs st)
  /\ (~ In p (openTabs st) ->
      openTabs st1 = openTabs st ++ [p]
      /\ activeTabIndex st1 = len (openTabs st))
  /\ (NoDup (openTabs st) -> NoDup (openTabs st1)).
Proof.
  cbv zeta; split; [exact pathsEqual_eq|].
  set (f := fun t => pathsEqual t p).
  assert (Fp : f p = true) by (apply pathsEqual_eq; reflexivity).
  destruct (findIndex_from_result _ f (openTabs st) 0 (Z.le_refl 0))
    as [(E & H)|(x & Hl & G & Fx)].
  - (* not open: appended *)
    assert (Hp : ~ In p (openTabs st)).
    { intros I; rewrite (H p I) in Fp; discriminate. }
    assert (S1 : openNoteTab st p
                 = mkTabs (openTabs st ++ [p]) (len (openTabs st)) (Some p)).
    { unfold openNoteTab, findIndex; fold f; rewrite E; reflexivity. }
    assert (S2 : openNoteTab (openNoteTab st p) p = openNoteTab st p).
    { rewrite S1; unfold openNoteTab at 1, findIndex; fold f.
      cbn [openTabs].
      rewrite (findIndex_from_app _ f _ [p] 0 H); cbn [findIndex_from].
      rewrite Fp, Z.add_0_l.
      pose proof (len_nonneg _ (openTabs st)).
      destruct (Z.geb_spec (len (openTabs st)) 0); [reflexivity | lia]. }
    rewrite S2, S1; cbn [openTabs activeTabIndex].
    repeat split; auto.
    + apply get_snoc_last.
    + intros I; contradiction.
    + intros N; apply NoDup_app; auto.
      * constructor; [intros [] | constructor].
      * intros a Ia [<-|[]]; contradiction.
  - (* open already: focused *)
    rewrite Z.sub_0_r in G.
    assert (Ex : x = p) by (apply pathsEqual_eq; exact Fx).
    subst x.
    assert (Ip : In p (openTabs st)).
    { destruct (get_inv _ _ _ _ G) as [_ N]; apply nth_error_In in N; exact N. }
    assert (S1 : openNoteTab st p
                 = mkTabs (openTabs st) (findIndex f (openTabs st)) (Some p)).
    { unfold openNoteTab; fold f; unfold findIndex at 1.
      destruct (Z.geb_spec (findIndex_from f (openTabs st) 0) 0);
        [reflexivity | lia]. }
    assert (S2 : openNoteTab (openNoteTab st p) p = openNoteTab st p).
    { rewrite S1; unfold openNoteTab at 1; fold f; cbn [openTabs].
      unfold findIndex at 1.
      destruct (Z.geb_spec (findIndex_from f (openTabs st) 0) 0);
        [reflexivity | lia]. }
    rewrite S2, S1; cbn [openTabs activeTabIndex].
    split; [reflexivity|]; split; [reflexivity|]; split; [exact G|].
    split; [reflexivity|]; split; [intros N; contradiction | auto].
Qed.

(** C4.  Closing the tab at a position that exists removes that tab.  If
    it was the active one, the tab before it becomes active; if it was the
    first, the tab that is first now; if it was the only one, no tab is
    active and the selection is emptied.  If it stood before the active
    one, the active index moves down by one and stays on the same tab.  So
    closing [B] in [[A; B; C]] with [B] active leaves [[A; C]] with [A]
    active, and closing [A] in [[A]] leaves no tab and no active index. *)
Theorem handleTabClose_reselects (st : TabSet) (index : Z) :
  0 <= index < len (openTabs st) ->
  let st' := handleTabClose st index in
  let n := len (openTabs st) in
  openTabs st' = remove_at (openTabs st) (Z.to_nat index)
  /\ len (openTabs st') = n - 1
  /\ (index = activeTabIndex st ->
      (0 < index ->
       activeTabIndex st' = index - 1
       /\ get (openTabs st') (index - 1) = get (openTabs st) (index - 1))
      /\ (index = 0 -> 1 < n ->
          activeTabIndex st' = 0
          /\ get (openTabs st') 0 = get (openTabs st) 1)
      /\ (n = 1 ->
          openTabs st' = [] /\ activeTabIndex st' = -1
          /\ selectedPath st' = Some []))
  /\ (index < activeTabIndex st ->
      activeTabIndex st' = activeTabIndex st - 1
      /\ get (openTabs st') (activeTabIndex st')
         = get (openTabs st) (activeTabIndex st))
  /\ (forall A B C sel,
         let r := handleTabClose (mkTabs [A; B; C] 1 sel) 1 in
         openTabs r = [A; C] /\ activeTabIndex r = 0
         /\ get (openTabs r) (activeTabIndex r) = Some A)
  /\ (forall A sel,
         let r := handleTabClose (mkTabs [A] 0 sel) 0 in
         openTabs r = [] /\ activeTabIndex r = -1
         /\ selectedPath r = Some []).
Proof.
  intros Hi; cbv zeta.
  assert (T : openTabs (handleTabClose st index)
              = remove_at (openTabs st) (Z.to_nat index))
    by (rewrite openTabs_close; apply splice1_inside; exact Hi).
  split; [exact T|]; rewrite T.
  split; [apply len_remove_at; exact Hi|].
  split; [|split; [|split]].
  - intros Ea; split; [|split].
    + intros Hpos; split.
      * unfold handleTabClose; rewrite <- Ea, Z.eqb_refl.
        destruct (Z.ltb_spec (index - 1) 0); [lia|].
        destruct (Z.geb_spec (index - 1) (len (openTabs st) - 1)); [lia|].
        reflexivity.
      * apply get_remove_before; [exact Hi | lia].
    + intros E0 Hn; rewrite E0 in Ea, Hi |- *; split.
      * unfold handleTabClose; rewrite <- Ea.
        ztests; cbn [activeTabIndex]; try reflexivity; exfalso; lia.
      * apply (get_remove_after _ (openTabs st) 0 0); lia.
    + intros Hn.
      assert (E0 : index = 0) by lia.
      rewrite E0 in Ea, Hi |- *.
      destruct (openTabs st) as [|a [|b l]] eqn:Et.
      * exfalso; rewrite len_nil in Hn; lia.
      * split; [reflexivity|].
        unfold handleTabClose; rewrite <- Ea, Et; split; reflexivity.
      * exfalso; rewrite !len_cons in Hn; pose proof (len_nonneg _ l); lia.
  - intros Hlt; split.
    + unfold handleTabClose.
      destruct (Z.eqb_spec index (activeTabIndex st)); [lia|].
      destruct (Z.ltb_spec index (activeTabIndex st)); [reflexivity | lia].
    + unfold handleTabClose at 1.
      destruct (Z.eqb_spec index (activeTabIndex st)); [lia|].
      destruct (Z.ltb_spec index (activeTabIndex st)); [|lia].
      cbn [activeTabIndex].
      rewrite get_remove_after by (try exact Hi; lia).
      f_equal; lia.
  - intros A B C sel; repeat split.
  - intros A sel; repeat split.
Qed.

Lemma handleTabClose_reselects_witness :
  openTabs (handleTabClose (mkTabs [[0]; [1]; [1; 0]] 1 (Some [1])) 1)
  = [[0]; [1; 0]]
  /\ activeTabIndex (handleTabClose (mkTabs [[0]; [1]; [1; 0]] 1 (Some [1])) 1)
     = 0.
Proof.
  assert (Hi : 0 <= 1 < len (openTabs (mkTabs [[0]; [1]; [1; 0]] 1 (Some [1]))))
    by (unfold len; cbn; lia).
  destruct (handleTabClose_reselects _ 1 Hi) as (T & _ & A & _).
  split; [exact T|].
  destruct (A eq_refl) as (P & _); apply P; lia.
Defined.

(** * Further properties of the note store *)

Section Writes.
Implicit Types (level : list Note) (p q r : Path) (n u v : Note).

Lemma update_update (A : Type) (arr : list A) i (x y : A) :
  update (update arr i x) i y = update arr i y.
Proof.
  revert i; induction arr as [|a arr IH]; intros [|i]; cbn [update];
    try reflexivity.
  f_equal; apply IH.
Qed.

Lemma update_swap (A : Type) (arr : list A) i j (x y : A) :
  i <> j -> update (update arr i x) j y = update (update arr j y) i x.
Proof.
  revert i j; induction arr as [|a arr IH]; intros [|i] [|j] H;
    cbn [update]; try reflexivity; try congruence.
  f_equal; apply IH; congruence.
Qed.

Lemma with_subNotes_same n sub :
  subNotes n = Some sub -> with_subNotes n (Some sub) = n.
Proof. destruct n as [t c s col]; cbn; intros ->; reflexivity. Qed.

(** Writing the note that is there changes nothing. *)
Lemma setLoop_same p : forall level old,
  getLoop level p = Some old -> setLoop level p old = Some (Dense level).
Proof.
  induction p as [|i p IH]; intros level old H; [discriminate|].
  rewrite getLoop_cons in H.
  destruct (get level i) as [cur|] eqn:G; [|discriminate].
  destruct (get_inv _ _ _ _ G) as [Hr N].
  destruct p as [|j p].
  - injection H as ->.
    rewrite setLoop_last, array_store_inside by exact Hr.
    rewrite (update_same_value _ _ _ _ N); reflexivity.
  - rewrite descend_cons in H; rewrite setLoop_inner, G.
    unfold subNotes_or_empty.
    destruct (subNotes cur) as [sub|] eqn:Es; [|discriminate].
    rewrite (IH sub old H), (with_subNotes_same _ _ Es).
    rewrite (update_same_value _ _ _ _ N); reflexivity.
Qed.

(** Of two writes at one path the later one stays. *)
Lemma setLoop_twice p : forall level l1 old u v,
  getLoop level p = Some old ->
  setLoop level p u = Some (Dense l1) ->
  setLoop l1 p v = setLoop level p v.
Proof.
  induction p as [|i p IH]; intros level l1 old u v H S; [discriminate|].
  rewrite getLoop_cons in H.
  destruct (get level i) as [cur|] eqn:G; [|discriminate].
  destruct (get_inv _ _ _ _ G) as [Hr N].
  destruct p as [|j p].
  - rewrite setLoop_last, array_store_inside in S by exact Hr.
    injection S as <-.
    rewrite !setLoop_last, !array_store_inside, update_update;
      rewrite ?len_update; auto.
  - rewrite descend_cons in H; rewrite setLoop_inner, G in S.
    unfold subNotes_or_empty in S.
    destruct (subNotes cur) as [sub|] eqn:Es; [|discriminate].
    destruct (setLoop sub (j :: p) u) as [[sub1|]|] eqn:S1; try discriminate.
    injection S as <-.
    rewrite !setLoop_inner, G, get_update_same by exact Hr.
    unfold subNotes_or_empty; cbn [with_subNotes subNotes]; rewrite Es.
    rewrite (IH sub sub1 old u v H S1).
    destruct (setLoop sub (j :: p) v) as [[sub2|]|]; try reflexivity.
    rewrite update_update; reflexivity.
Qed.

(** Writes at paths that part do not see each other. *)
Lemma setLoop_swap p : forall q level l1 l2 a b u v,
  apart p q ->
  getLoop level p = Some a ->
  getLoop level q = Some b ->
  setLoop level p u = Some (Dense l1) ->
  setLoop level q v = Some (Dense l2) ->
  setLoop l1 q v = setLoop l2 p u.
Proof.
  induction p as [|i p IH]; intros q level l1 l2 a b u v A Hp Hq Sp Sq;
    [discriminate|].
  destruct q as [|j q]; [discriminate|].
  destruct (Z.eq_dec i j) as [<-|Hne].
  - (* the same element: both paths go on below it *)
    assert (Ap : apart p q).
    { destruct A as [A1 A2]; split; intros X;
        [apply A1 | apply A2]; apply extends_cons; auto. }
    assert (Np : p <> []).
    { intros ->; destruct Ap as [X _]; apply X, extends_nil_l. }
    assert (Nq : q <> []).
    { intros ->; destruct Ap as [_ X]; apply X, extends_nil_l. }
    destruct p as [|i' p]; [congruence|]; destruct q as [|j' q]; [congruence|].
    rewrite getLoop_cons in Hp, Hq.
    destruct (get level i) as [cur|] eqn:G; [|discriminate].
    destruct (get_inv _ _ _ _ G) as [Hr _].
    rewrite descend_cons in Hp, Hq.
    rewrite setLoop_inner, G in Sp, Sq.
    unfold subNotes_or_empty in Sp, Sq.
    destruct (subNotes cur) as [sub|] eqn:Es; [|discriminate].
    destruct (setLoop sub (i' :: p) u) as [[s1|]|] eqn:S1; try discriminate.
    destruct (setLoop sub (j' :: q) v) as [[s2|]|] eqn:S2; try discriminate.
    injection Sp as <-; injection Sq as <-.
    rewrite !setLoop_inner, !get_update_same by exact Hr.
    unfold subNotes_or_empty; cbn [with_subNotes subNotes].
    rewrite (IH (j' :: q) sub s1 s2 a b u v Ap Hp Hq S1 S2).
    destruct (setLoop s2 (i' :: p) u) as [[s3|]|]; try reflexivity.
    rewrite !update_update; reflexivity.
  - (* different elements *)
    rewrite getLoop_cons in Hp, Hq.
    destruct (get level i) as [ci|] eqn:Gi; [|discriminate].
    destruct (get level j) as [cj|] eqn:Gj; [|discriminate].
    destruct (get_inv _ _ _ _ Gi) as [Hi _].
    destruct (get_inv _ _ _ _ Gj) as [Hj _].
    assert (Nij : Z.to_nat i <> Z.to_nat j) by lia.
    assert (E1 : exists X, l1 = update level (Z.to_nat i) X
                 /\ forall l, get l i = Some ci -> len l = len level ->
                     setLoop l (i :: p) u
                     = Some (Dense (update l (Z.to_nat i) X))).
    { destruct p as [|i' p].
      - rewrite setLoop_last, array_store_inside in Sp by exact Hi.
        injection Sp as <-; exists u; split; [reflexivity|].
        intros l _ L; rewrite setLoop_last, array_store_inside by lia.
        reflexivity.
      - rewrite setLoop_inner, Gi in Sp.
        destruct (setLoop (subNotes_or_empty ci) (i' :: p) u)
          as [[s1|]|] eqn:S1; try discriminate.
        injection Sp as <-; eexists; split; [reflexivity|].
        intros l Gl _; rewrite setLoop_inner, Gl, S1; reflexivity. }
    assert (E2 : exists Y, l2 = update level (Z.to_nat j) Y
                 /\ forall l, get l j = Some cj -> len l = len level ->
                     setLoop l (j :: q) v
                     = Some (Dense (update l (Z.to_nat j) Y))).
    { destruct q as [|j' q].
      - rewrite setLoop_last, array_store_inside in Sq by exact Hj.
        injection Sq as <-; exists v; split; [reflexivity|].
        intros l _ L; rewrite setLoop_last, array_store_inside by lia.
        reflexivity.
      - rewrite setLoop_inner, Gj in Sq.
        destruct (setLoop (subNotes_or_empty cj) (j' :: q) v)
          as [[s2|]|] eqn:S2; try discriminate.
        injection Sq as <-; eexists; split; [reflexivity|].
        intros l Gl _; rewrite setLoop_inner, Gl, S2; reflexivity. }
    destruct E1 as (X & -> & F1), E2 as (Y & -> & F2).
    rewrite F2, F1; rewrite ?len_update, ?get_update_other by lia; auto.
    rewrite (update_swap _ _ _ _ _ _ Nij); reflexivity.
Qed.
End Writes.

(** X1.  Writing back the note a path resolves to sets the forest that
    was there. *)
Theorem setNoteByPath_same (notes : Forest) (path : Path) (note : Note) :
  getNoteByPath notes path = Some note ->
  setNoteByPath notes path note = SetNotes notes.
Proof.
  intros H; assert (G := H); rewrite getNoteByPath_getLoop in G.
  destruct path; [discriminate|].
  unfold setNoteByPath; rewrite (setLoop_same _ _ _ G); reflexivity.
Qed.

Lemma setNoteByPath_same_witness :
  setNoteByPath [newNote; newSubNote] [1] newSubNote
  = SetNotes [newNote; newSubNote].
Proof. apply (setNoteByPath_same [newNote; newSubNote] [1]); reflexivity. Defined.

(** X2.  Of two writes at one path that resolves the later one stays: the
    forest is the one the later write alone would have set. *)
Theorem setNoteByPath_last_write (notes f1 : Forest) (path : Path)
    (old u v : Note) :
  getNoteByPath notes path = Some old ->
  setNoteByPath notes path u = SetNotes f1 ->
  setNoteByPath f1 path v = setNoteByPath notes path v
  /\ getNoteByPath f1 path = Some u.
Proof.
  intros H S; assert (G := H); rewrite getNoteByPath_getLoop in G.
  destruct (guarded_write _ _ _ u H) as (f & S' & _ & W).
  rewrite S in S'; injection S' as <-.
  split.
  - destruct path; [discriminate|].
    unfold setNoteByPath; rewrite (setLoop_twice _ _ _ _ _ v G W); reflexivity.
  - rewrite getNoteByPath_getLoop; apply (getLoop_set_same _ _ _ _ _ G W).
Qed.

Lemma setNoteByPath_last_write_witness :
  setNoteByPath [newSubNote] [0] newNote = setNoteByPath [newNote] [0] newNote.
Proof.
  apply (setNoteByPath_last_write [newNote] [newSubNote] [0]
           newNote newSubNote newNote); reflexivity.
Defined.

(** X3.  Writes at two paths that resolve and part from each other
    commute: both orders go through and set the same forest. *)
Theorem setNoteByPath_commute (notes : Forest) (p q : Path) (a b u v : Note) :
  apart p q ->
  getNoteByPath notes p = Some a ->
  getNoteByPath notes q = Some b ->
  exists f1 f2 f3,
    setNoteByPath notes p u = SetNotes f1
    /\ setNoteByPath notes q v = SetNotes f2
    /\ setNoteByPath f1 q v = SetNotes f3
    /\ setNoteByPath f2 p u = SetNotes f3.
Proof.
  intros A Hp Hq.
  destruct (guarded_write _ _ _ u Hp) as (f1 & S1 & Gp & W1).
  destruct (guarded_write _ _ _ v Hq) as (f2 & S2 & Gq & W2).
  assert (Hq1 : getNoteByPath f1 q = Some b).
  { rewrite getNoteByPath_getLoop, (getLoop_set_apart _ _ _ _ _ _ Gp W1 A).
    exact Gq. }
  destruct (guarded_write _ _ _ v Hq1) as (f3 & S3 & _ & W3).
  exists f1, f2, f3; repeat split; auto.
  destruct p as [|i p]; [discriminate|].
  unfold setNoteByPath.
  rewrite <- (setLoop_swap _ _ _ _ _ _ _ _ _ A Gp Gq W1 W2), W3; reflexivity.
Qed.

Lemma setNoteByPath_commute_witness :
  exists f3,
    setNoteByPath [newSubNote; newNote] [1] newSubNote = SetNotes f3
    /\ setNoteByPath [newNote; newSubNote] [0] newSubNote = SetNotes f3.
Proof.
  assert (A : apart [0] [1]) by (apply apart_heads; discriminate).
  destruct (setNoteByPath_commute [newNote; newNote] [0] [1]
              newNote newNote newSubNote newSubNote A eq_refl eq_refl)
    as (f1 & f2 & f3 & S1 & S2 & S3 & S4).
  injection S1 as <-; injection S2 as <-.
  exists f3; split; assumption.
Defined.

(** X4.  Two toggles in a row at a path that resolves both go through
    and leave, at that path, the note with its flag made a boolean; if the
    flag was a boolean the forest is the one before the first toggle. *)
Theorem handleToggleCollapse_twice (notes : Forest) (path : Path) (note : Note) :
  getNoteByPath notes path = Some note ->
  exists f1 f2,
    handleToggleCollapse notes path = Called (SetNotes f1)
    /\ handleToggleCollapse f1 path = Called (SetNotes f2)
    /\ setNoteByPath notes path
         (with_isCollapsed note (Some (truthy (isCollapsed note))))
       = SetNotes f2
    /\ (forall b, isCollapsed note = Some b -> f2 = notes).
Proof.
  intros H.
  set (u1 := with_isCollapsed note (Some (negb (truthy (isCollapsed note))))).
  destruct (guarded_write _ _ _ u1 H) as (f1 & S1 & G & W1).
  assert (H1 : getNoteByPath f1 path = Some u1).
  { rewrite getNoteByPath_getLoop; apply (getLoop_set_same _ _ _ _ _ G W1). }
  set (u2 := with_isCollapsed note (Some (truthy (isCollapsed note)))).
  assert (E2 : with_isCollapsed u1 (Some (negb (truthy (isCollapsed u1))))
               = u2).
  { unfold u1, u2, with_isCollapsed; cbn [isCollapsed title content subNotes].
    cbn [truthy]; destruct (truthy (isCollapsed note)); reflexivity. }
  assert (L : setNoteByPath f1 path u2 = setNoteByPath notes path u2).
  { destruct path; [discriminate|]; unfold setNoteByPath.
    rewrite (setLoop_twice _ _ _ _ _ u2 G W1); reflexivity. }
  destruct (guarded_write _ _ _ u2 H) as (f2 & S2 & _ & _).
  exists f1, f2; unfold handleToggleCollapse.
  rewrite H, H1; fold u1; rewrite E2, L, S1, S2.
  repeat split.
  intros b Eb.
  assert (Eu : u2 = note).
  { unfold u2; destruct note as [t c s col]; cbn in Eb |- *; subst col.
    destruct b; reflexivity. }
  rewrite Eu in S2; destruct path; [discriminate|].
  unfold setNoteByPath in S2; rewrite (setLoop_same _ _ _ G) in S2.
  congruence.
Qed.

Lemma handleToggleCollapse_twice_witness :
  exists f1,
    handleToggleCollapse [newNote] [0] = Called (SetNotes f1)
    /\ handleToggleCollapse f1 [0] = Called (SetNotes [newNote]).
Proof.
  destruct (handleToggleCollapse_twice [newNote] [0] newNote eq_refl)
    as (f1 & f2 & S1 & S2 & _ & E).
  exists f1; split; [exact S1|].
  rewrite <- (E false eq_refl); exact S2.
Defined.

Section Monotone.
Implicit Types (f level : list Note) (p q r : Path) (n u : Note).

(** A write that keeps below the new note what resolved below the old
    one keeps every path that resolved. *)
Lemma resolves_after_set f p u old f' q :
  getLoop f p = Some old ->
  setLoop f p u = Some (Dense f') ->
  (forall r n, r <> [] -> descend old r = Some n -> descend u r <> None) ->
  getLoop f q <> None -> getLoop f' q <> None.
Proof.
  intros H S D Hq.
  assert (Hp : p <> []) by (destruct p; [discriminate|congruence]).
  assert (Nq : q <> []) by (destruct q; [intros _; apply Hq; reflexivity|congruence]).
  destruct (getLoop_after_set f p u old f' q H S Nq)
    as [(r & -> & E)|[(_ & a & a' & _ & Ha' & _)|(_ & E)]].
  - rewrite E; destruct r as [|i r]; [discriminate|].
    rewrite getLoop_app, H in Hq by exact Hp.
    destruct (descend old (i :: r)) as [n|] eqn:Dn; [|congruence].
    apply (D (i :: r) n); [discriminate | exact Dn].
  - rewrite Ha'; discriminate.
  - rewrite E; exact Hq.
Qed.

Lemma resolves_after_edit f p u old q :
  getNoteByPath f p = Some old ->
  subNotes u = subNotes old ->
  exists f', setNoteByPath f p u = SetNotes f'
             /\ (getLoop f q <> None -> getLoop f' q <> None).
Proof.
  intros H E.
  destruct (guarded_write f p old u H) as (f' & S & G & W).
  exists f'; split; [exact S|].
  apply (resolves_after_set f p u old f' q G W).
  intros r n Hr D; rewrite (descend_same_subNotes old u r E Hr), D.
  discriminate.
Qed.

Lemma resolves_after_child f p parent q :
  getNoteByPath f p = Some parent ->
  exists f', setNoteByPath f p (with_child parent newSubNote) = SetNotes f'
             /\ (getLoop f q <> None -> getLoop f' q <> None).
Proof.
  intros H.
  destruct (guarded_write f p parent (with_child parent newSubNote) H)
    as (f' & S & G & W).
  exists f'; split; [exact S|].
  apply (resolves_after_set f p _ parent f' q G W).
  intros r n Hr D; destruct r as [|i r]; [congruence|].
  rewrite descend_cons in *; cbn [with_child with_subNotes subNotes].
  unfold subNotes_or_empty.
  destruct (subNotes parent) as [kids|]; [|discriminate].
  rewrite (getLoop_app_level _ [newSubNote] _ _ D); discriminate.
Qed.
End Monotone.

(** X5.  No action on the notes makes a path stop resolving: a path that
    resolved before a step resolves after it. *)
Theorem paths_stay_valid (st st' : App) (op : Op) (q : Path) :
  step st op = Some st' ->
  getNoteByPath (notes st) q <> None ->
  getNoteByPath (notes st') q <> None.
Proof.
  rewrite !getNoteByPath_getLoop.
  destruct op as [|a|a|a| |value|value]; cbn [step].
  - intros E; injection E as <-; cbn [handleNewNote notes].
    destruct (getLoop (notes st) q) as [n|] eqn:G; [|congruence].
    rewrite (getLoop_app_level _ [newNote] _ _ G); auto.
  - unfold handleAddSubNote.
    destruct (getNoteByPath (notes st) a) as [parent|] eqn:H;
      [|intros E; injection E as <-; auto].
    destruct (len a >=? 4); [intros E; injection E as <-; auto|].
    destruct (resolves_after_child _ _ _ q H) as (f' & S & M).
    unfold with_child in S; rewrite S; intros E; injection E as <-.
    exact M.
  - unfold handleToggleCollapse.
    destruct (getNoteByPath (notes st) a) as [note|] eqn:H;
      [|intros E; injection E as <-; auto].
    destruct (resolves_after_edit _ _
                (with_isCollapsed note
                   (Some (negb (truthy (isCollapsed note))))) _ q H eq_refl)
      as (f' & -> & M).
    intros E; injection E as <-; exact M.
  - intros E; injection E as <-; auto.
  - intros E; injection E as <-; auto.
  - unfold handleNoteTitleChange.
    destruct (getNoteByPath (notes st) (NoteTree.selectedPath st))
      as [cur|] eqn:H;
      [|intros E; injection E as <-; auto].
    destruct (resolves_after_edit _ _ (with_title cur value) _ q H eq_refl)
      as (f' & -> & M).
    intros E; injection E as <-; exact M.
  - unfold handleNoteContentChange.
    destruct (getNoteByPath (notes st) (NoteTree.selectedPath st))
      as [cur|] eqn:H;
      [|intros E; injection E as <-; auto].
    destruct (resolves_after_edit _ _ (with_content cur value) _ q H eq_refl)
      as (f' & -> & M).
    intros E; injection E as <-; exact M.
Qed.

Lemma paths_stay_valid_witness :
  getNoteByPath [mkNote "Untitled Note" "" (Some []) (Some true)] [0] <> None.
Proof.
  apply (paths_stay_valid (mkApp [newNote] [])
           (mkApp [mkNote "Untitled Note" "" (Some []) (Some true)] [])
           (ToggleCollapse [0]) [0]); [reflexivity | discriminate].
Defined.

Section Typing.
Implicit Types (st : App) (cur : Note) (v a b : string).

(** A write through the selection, as the two typing handlers make it. *)
Lemma typed_step st cur (op : Op) (change : Note -> Note) :
  getNoteByPath (notes st) (NoteTree.selectedPath st) = Some cur ->
  step st op
  = commit st (Called (setNoteByPath (notes st) (NoteTree.selectedPath st)
                         (change cur))) ->
  exists f',
    step st op = Some (mkApp f' (NoteTree.selectedPath st))
    /\ getLoop (notes st) (NoteTree.selectedPath st) = Some cur
    /\ setLoop (notes st) (NoteTree.selectedPath st) (change cur)
       = Some (Dense f')
    /\ getNoteByPath f' (NoteTree.selectedPath st) = Some (change cur).
Proof.
  intros H E.
  destruct (guarded_write _ _ _ (change cur) H) as (f' & S & G & W).
  exists f'; rewrite E, S; repeat split; auto.
  rewrite getNoteByPath_getLoop; apply (getLoop_set_same _ _ _ _ _ G W).
Qed.

Lemma title_step st cur v :
  getNoteByPath (notes st) (NoteTree.selectedPath st) = Some cur ->
  step st (TitleChange v)
  = commit st (Called (setNoteByPath (notes st) (NoteTree.selectedPath st)
                         (with_title cur v))).
Proof.
  intros H; cbn [step]; unfold handleNoteTitleChange; rewrite H; reflexivity.
Qed.

Lemma content_step st cur v :
  getNoteByPath (notes st) (NoteTree.selectedPath st) = Some cur ->
  step st (ContentChange v)
  = commit st (Called (setNoteByPath (notes st) (NoteTree.selectedPath st)
                         (with_content cur v))).
Proof.
  intros H; cbn [step]; unfold handleNoteContentChange; rewrite H; reflexivity.
Qed.

(** Two typed changes in a row amount to one write of the note changed
    twice. *)
Lemma typed_twice st cur (op1 op2 : Op) (c1 c2 : Note -> Note) :
  getNoteByPath (notes st) (NoteTree.selectedPath st) = Some cur ->
  (forall s n, getNoteByPath (notes s) (NoteTree.selectedPath s) = Some n ->
     step s op1
     = commit s (Called (setNoteByPath (notes s) (NoteTree.selectedPath s)
                           (c1 n)))) ->
  (forall s n, getNoteByPath (notes s) (NoteTree.selectedPath s) = Some n ->
     step s op2
     = commit s (Called (setNoteByPath (notes s) (NoteTree.selectedPath s)
                           (c2 n)))) ->
  exists f',
    run st [op1; op2] = Some (mkApp f' (NoteTree.selectedPath st))
    /\ setNoteByPath (notes st) (NoteTree.selectedPath st) (c2 (c1 cur))
       = SetNotes f'.
Proof.
  intros H E1 E2.
  destruct (typed_step st cur op1 c1 H (E1 st cur H)) as (f1 & S1 & G & W1 & H1).
  set (s1 := mkApp f1 (NoteTree.selectedPath st)).
  destruct (typed_step s1 (c1 cur) op2 c2 H1 (E2 s1 (c1 cur) H1))
    as (f2 & S2 & _ & W2 & _).
  exists f2; cbn [run]; rewrite S1; fold s1; rewrite S2; split; [reflexivity|].
  cbn [s1 notes NoteTree.selectedPath] in W2.
  rewrite (setLoop_twice _ _ _ _ _ (c2 (c1 cur)) G W1) in W2.
  destruct (NoteTree.selectedPath st); [discriminate|].
  unfold setNoteByPath; rewrite W2; reflexivity.
Qed.
End Typing.

(** X6.  Typing a title and typing a content on the selected note
    commute, and a title typed over another leaves only the later one:
    when the selection resolves, the outcome is one write of the note with
    both fields set; when it does not, nothing changes. *)
Theorem typing_commutes (st : App) (a a' b : string) :
  run st [TitleChange a; ContentChange b]
  = run st [ContentChange b; TitleChange a]
  /\ run st [TitleChange a; TitleChange a'] = run st [TitleChange a']
  /\ match getNoteByPath (notes st) (NoteTree.selectedPath st) with
     | Some cur =>
         exists f',
           run st [TitleChange a; ContentChange b]
           = Some (mkApp f' (NoteTree.selectedPath st))
           /\ setNoteByPath (notes st) (NoteTree.selectedPath st)
                (mkNote a b (subNotes cur) (isCollapsed cur))
              = SetNotes f'
     | None => run st [TitleChange a; ContentChange b] = Some st
     end.
Proof.
  destruct (getNoteByPath (notes st) (NoteTree.selectedPath st))
    as [cur|] eqn:H.
  - destruct (typed_twice st cur (TitleChange a) (ContentChange b)
                (fun n => with_title n a) (fun n => with_content n b) H
                (fun s n => title_step s n a) (fun s n => content_step s n b))
      as (f1 & R1 & S1).
    destruct (typed_twice st cur (ContentChange b) (TitleChange a)
                (fun n => with_content n b) (fun n => with_title n a) H
                (fun s n => content_step s n b) (fun s n => title_step s n a))
      as (f2 & R2 & S2).
    destruct (typed_twice st cur (TitleChange a) (TitleChange a')
                (fun n => with_title n a) (fun n => with_title n a') H
                (fun s n => title_step s n a) (fun s n => title_step s n a'))
      as (f3 & R3 & S3).
    destruct (typed_step st cur (TitleChange a') (fun n => with_title n a') H
                (title_step st cur a' H)) as (f4 & R4 & _ & W4 & _).
    change (with_content (with_title cur a) b)
      with (mkNote a b (subNotes cur) (isCollapsed cur)) in S1.
    change (with_title (with_content cur b) a)
      with (mkNote a b (subNotes cur) (isCollapsed cur)) in S2.
    change (with_title (with_title cur a) a') with (with_title cur a') in S3.
    split; [|split].
    + rewrite R1, R2; congruence.
    + rewrite R3; cbn [run]; rewrite R4.
      destruct (NoteTree.selectedPath st) as [|i p] eqn:Ep; [discriminate|].
      unfold setNoteByPath in S3; rewrite W4 in S3; congruence.
    + exists f1; split; assumption.
  - assert (T : forall v, step st (TitleChange v) = Some st)
      by (intros v; cbn [step]; unfold handleNoteTitleChange; rewrite H;
          reflexivity).
    assert (C : forall v, step st (ContentChange v) = Some st)
      by (intros v; cbn [step]; unfold handleNoteContentChange; rewrite H;
          reflexivity).
    cbn [run]; rewrite !T, !C, ?T, ?C; auto.
Qed.

(** X7.  Once a title is typed on the selected note, a search for any
    query that does not trim to nothing and that the lower-cased title
    contains, lower-cased, lists the selected path. *)
Theorem renamed_note_is_found (toLowerCase trim : string -> string)
    (st st' : App) (value query : string) :
  getNoteByPath (notes st) (NoteTree.selectedPath st) <> None ->
  step st (TitleChange value) = Some st' ->
  is_empty (trim query) = false ->
  Contains (toLowerCase value) (toLowerCase query) ->
  In (NoteTree.selectedPath st)
     (map fst (search toLowerCase trim (notes st') query)).
Proof.
  intros R S T C.
  destruct (getNoteByPath (notes st) (NoteTree.selectedPath st))
    as [cur|] eqn:H; [clear R|congruence].
  destruct (typed_step st cur (TitleChange value) (fun n => with_title n value)
              H (title_step st cur value H)) as (f' & S' & _ & _ & G).
  rewrite S in S'; injection S' as ->; cbn [notes].
  apply in_map_iff; exists (NoteTree.selectedPath st, with_title cur value).
  split; [reflexivity|].
  unfold search; rewrite T.
  apply filter_In; split.
  - rewrite gatherAllNotes_preorder; apply In_preorder_forest; exact G.
  - unfold matches; cbn [snd with_title title].
    apply orb_true_iff; left; apply includes_Contains; exact C.
Qed.

Lemma renamed_note_is_found_witness :
  In [0]
     (map fst
        (search AsciiText.toLowerCase AsciiText.trim
           [mkNote "Shopping List" "" (Some []) (Some false)] "LIST")).
Proof.
  apply (renamed_note_is_found AsciiText.toLowerCase AsciiText.trim
           (mkApp [newNote] [0])
           (mkApp [mkNote "Shopping List" "" (Some []) (Some false)] [0])
           "Shopping List" "LIST").
  - discriminate.
  - reflexivity.
  - reflexivity.
  - exists "shopping "%string, ""%string; reflexivity.
Defined.

Section Counting.
Implicit Types (l level : list Note) (p q c : Path) (n u : Note).

Lemma length_preorder_level l :
  Forall (fun m => forall p q,
              List.length (preorder m p) = List.length (preorder m q)) l ->
  forall p q i j,
    List.length (preorder_level l p i) = List.length (preorder_level l q j).
Proof.
  induction 1 as [|m l Hm _ IH]; intros p q i j; cbn [preorder_level];
    [reflexivity|].
  rewrite !length_app, (Hm (p ++ [i]) (q ++ [j])), (IH p q (i + 1) (j + 1)).
  reflexivity.
Qed.

(** How many entries a note's traversal has does not depend on where the
    note sits. *)
Lemma length_preorder n : forall p q,
  List.length (preorder n p) = List.length (preorder n q).
Proof.
  induction n as [t c col|t c sub col IH] using Note_ind; intros p q;
    rewrite !preorder_unfold; cbn [subNotes_or_empty subNotes List.length].
  - reflexivity.
  - f_equal; apply length_preorder_level; exact IH.
Qed.

Lemma preorder_level_app l l' p i :
  preorder_level (l ++ l') p i
  = preorder_level l p i ++ preorder_level l' p (i + len l).
Proof.
  revert i; induction l as [|m l IH]; intros i; cbn [app preorder_level].
  - rewrite len_nil, Z.add_0_r; reflexivity.
  - rewrite IH, len_cons, <- app_assoc.
    replace (i + 1 + len l) with (i + (1 + len l)) by lia; reflexivity.
Qed.

Lemma length_level_update l : forall k old u p i,
  nth_error l k = Some old ->
  (List.length (preorder_level (update l k u) p i)
   + List.length (preorder old [])
   = List.length (preorder_level l p i) + List.length (preorder u []))%nat.
Proof.
  induction l as [|m l IH]; intros [|k] old u p i N; cbn in N;
    try discriminate; cbn [update preorder_level]; rewrite !length_app.
  - injection N as ->.
    rewrite (length_preorder u (p ++ [i]) []),
      (length_preorder old (p ++ [i]) []); lia.
  - pose proof (IH k old u p (i + 1) N); lia.
Qed.

(** A write changes the number of entries by what the new note has more
    than the old one. *)
Lemma length_after_set p : forall level level' old u c i,
  getLoop level p = Some old ->
  setLoop level p u = Some (Dense level') ->
  (List.length (preorder_level level' c i) + List.length (preorder old [])
   = List.length (preorder_level level c i) + List.length (preorder u []))%nat.
Proof.
  induction p as [|k p IH]; intros level level' old u c i H S; [discriminate|].
  rewrite getLoop_cons in H.
  destruct (get level k) as [cur|] eqn:G; [|discriminate].
  destruct (get_inv _ _ _ _ G) as [Hr N].
  destruct p as [|j p].
  - injection H as ->.
    rewrite setLoop_last, array_store_inside in S by exact Hr.
    injection S as <-; apply length_level_update; exact N.
  - rewrite descend_cons in H; rewrite setLoop_inner, G in S.
    unfold subNotes_or_empty in S.
    destruct (subNotes cur) as [sub|] eqn:Es; [|discriminate].
    destruct (setLoop sub (j :: p) u) as [[sub'|]|] eqn:S'; try discriminate.
    injection S as <-.
    pose proof (length_level_update level (Z.to_nat k) cur
                  (with_subNotes cur (Some sub')) c i N) as L.
    rewrite !(preorder_unfold _ []) in L.
    unfold subNotes_or_empty in L; cbn [with_subNotes subNotes] in L.
    rewrite Es in L; cbn [List.length] in L.
    pose proof (IH sub sub' old u [] 0 H S'); lia.
Qed.

Lemma length_with_child parent child :
  List.length (preorder (with_child parent child) [])
  = (List.length (preorder parent []) + List.length (preorder child []))%nat.
Proof.
  rewrite !(preorder_unfold _ []); cbn [List.length].
  unfold with_child at 1; unfold subNotes_or_empty at 1.
  cbn [with_subNotes subNotes].
  rewrite preorder_level_app, length_app; cbn [preorder_level].
  rewrite app_nil_r, (length_preorder child _ []).
  rewrite (preorder_unfold child []); cbn [List.length]; lia.
Qed.

Lemma length_same_subNotes n u :
  subNotes u = subNotes n ->
  List.length (preorder u []) = List.length (preorder n []).
Proof.
  intros E; rewrite !(preorder_unfold _ []); unfold subNotes_or_empty.
  rewrite E; reflexivity.
Qed.

Lemma count_after_edit (f : Forest) p u old :
  getNoteByPath f p = Some old ->
  subNotes u = subNotes old ->
  exists f', setNoteByPath f p u = SetNotes f'
             /\ List.length (gatherAllNotes f')
                = List.length (gatherAllNotes f).
Proof.
  intros H E.
  destruct (guarded_write f p old u H) as (f' & S & G & W).
  exists f'; split; [exact S|].
  rewrite !gatherAllNotes_preorder; unfold preorder_forest.
  pose proof (length_after_set p f f' old u [] 0 G W).
  pose proof (length_same_subNotes old u E); lia.
Qed.
End Counting.

(** X8.  A step adds exactly one note to what [gatherAllNotes] lists when
    it is a create action that goes through, and leaves the number as it
    was otherwise: no action removes a note. *)
Theorem note_count (st st' : App) (op : Op) :
  step st op = Some st' ->
  List.length (gatherAllNotes (notes st'))
  = (List.length (gatherAllNotes (notes st))
     + match created st op with Some _ => 1 | None => 0 end)%nat.
Proof.
  destruct op as [|a|a|a| |value|value]; cbn [step created].
  - intros E; injection E as <-; cbn [handleNewNote notes].
    rewrite !gatherAllNotes_preorder; unfold preorder_forest.
    rewrite preorder_level_app, length_app; reflexivity.
  - unfold handleAddSubNote.
    destruct (getNoteByPath (notes st) a) as [parent|] eqn:H;
      [|intros E; injection E as <-; lia].
    destruct (len a >=? 4); [intros E; injection E as <-; lia|].
    destruct (guarded_write _ _ _ (with_child parent newSubNote) H)
      as (f' & S & G & W).
    unfold with_child in S; rewrite S; intros E; injection E as <-.
    cbn [notes]; rewrite !gatherAllNotes_preorder; unfold preorder_forest.
    pose proof (length_after_set a _ _ _ _ [] 0 G W) as L.
    rewrite length_with_child in L; cbn [preorder newSubNote subNotes] in L.
    cbn [List.length] in L; lia.
  - unfold handleToggleCollapse.
    destruct (getNoteByPath (notes st) a) as [note|] eqn:H;
      [|intros E; injection E as <-; lia].
    destruct (count_after_edit _ _
                (with_isCollapsed note
                   (Some (negb (truthy (isCollapsed note))))) _ H eq_refl)
      as (f' & -> & L).
    intros E; injection E as <-; cbn [notes]; lia.
  - intros E; injection E as <-; cbn [handleSelectPath notes]; lia.
  - intros E; injection E as <-; cbn [handleGoHome notes]; lia.
  - unfold handleNoteTitleChange.
    destruct (getNoteByPath (notes st) (NoteTree.selectedPath st))
      as [cur|] eqn:H; [|intros E; injection E as <-; lia].
    destruct (count_after_edit _ _ (with_title cur value) _ H eq_refl)
      as (f' & -> & L).
    intros E; injection E as <-; cbn [notes]; lia.
  - unfold handleNoteContentChange.
    destruct (getNoteByPath (notes st) (NoteTree.selectedPath st))
      as [cur|] eqn:H; [|intros E; injection E as <-; lia].
    destruct (count_after_edit _ _ (with_content cur value) _ H eq_refl)
      as (f' & -> & L).
    intros E; injection E as <-; cbn [notes]; lia.
Qed.

Lemma note_count_witness :
  List.length
    (gatherAllNotes [mkNote "Untitled Note" "" (Some [newSubNote]) (Some false)])
  = 2%nat.
Proof.
  apply (note_count (mkApp [newNote] [])
           (mkApp [mkNote "Untitled Note" "" (Some [newSubNote]) (Some false)]
              []) (AddSubNote [0])).
  reflexivity.
Defined.

(** * The note list *)

Module RenderFacts.

Import Render.

Section Rows.
Implicit Types (l level : list Note) (p q rest : Path) (n m x : Note) (r : Row).

Lemma renderNoteItem_unfold n p :
  renderNoteItem n p
  = row_of n p ::
    if negb (truthy (isCollapsed n)) && hasSubNotes n
    then renderItems_from (subNotes_or_empty n) p 0
    else [].
Proof.
  destruct n as [t c [sub|] col];
    cbn [renderNoteItem subNotes subNotes_or_empty isCollapsed].
  - destruct (negb (truthy col) && hasSubNotes (mkNote t c (Some sub) col));
      [|reflexivity].
    f_equal; generalize 0.
    induction sub as [|m sub IH]; intros i; cbn [renderItems_from];
      [reflexivity|].
    f_equal; apply IH.
  - unfold hasSubNotes; cbn [subNotes]; rewrite andb_false_r; reflexivity.
Qed.

Lemma visibleLoop_cons level i rest :
  visibleLoop level (i :: rest)
  = match get level i with
    | None => None
    | Some cur => visible_below cur rest
    end.
Proof. cbn [visibleLoop]; destruct (get level i), rest; reflexivity. Qed.

Lemma hasSubNotes_false n rest :
  hasSubNotes n = false -> rest <> [] -> visible_below n rest = None.
Proof.
  intros H Hr; destruct rest as [|i rest]; [congruence|].
  unfold visible_below, hasSubNotes in *.
  destruct (truthy (isCollapsed n)); [reflexivity|].
  destruct (subNotes n) as [sub|]; [|reflexivity].
  destruct sub as [|a sub]; [rewrite visibleLoop_cons, get_nil; reflexivity|].
  rewrite len_cons in H; pose proof (len_nonneg _ sub).
  destruct (Z.gtb_spec (1 + len sub) 0); [discriminate | lia].
Qed.

Lemma In_renderItems l :
  Forall (fun m => forall p r,
              In r (renderNoteItem m p)
              <-> exists rest x, visible_below m rest = Some x
                                 /\ r = row_of x (p ++ rest)) l ->
  forall p i r,
    In r (renderItems_from l p i)
    <-> exists k rest m x,
          0 <= k /\ get l k = Some m /\ visible_below m rest = Some x
          /\ r = row_of x (p ++ (i + k) :: rest).
Proof.
  induction 1 as [|m0 l Hm _ IH]; intros p i r; cbn [renderItems_from].
  - split; [intros []|].
    intros (k & rest & m & x & _ & G & _); rewrite get_nil in G; discriminate.
  - rewrite in_app_iff, Hm, IH; split.
    + intros [(rest & x & V & ->)|(k & rest & m & x & Hk & G & V & ->)].
      * exists 0, rest, m0, x.
        rewrite get_cons_0, <- app_assoc, Z.add_0_r; auto with zarith.
      * exists (k + 1), rest, m, x; rewrite get_cons_succ by exact Hk.
        replace (i + (k + 1)) with (i + 1 + k) by lia.
        repeat split; auto; lia.
    + intros (k & rest & m & x & Hk & G & V & ->).
      rewrite get_cons in G.
      destruct (Z.eqb_spec k 0) as [->|Hne].
      * injection G as ->; left; exists rest, x.
        rewrite <- app_assoc, Z.add_0_r; auto.
      * right; exists (k - 1), rest, m, x.
        replace (i + 1 + (k - 1)) with (i + k) by lia.
        repeat split; auto; lia.
Qed.

Lemma In_renderNoteItem n : forall p r,
  In r (renderNoteItem n p)
  <-> exists rest x, visible_below n rest = Some x /\ r = row_of x (p ++ rest).
Proof.
  induction n as [t c col|t c sub col IH] using Note_ind; intros p r.
  - rewrite renderNoteItem_unfold.
    unfold hasSubNotes at 1; cbn [subNotes]; rewrite andb_false_r.
    cbn [In]; split.
    + intros [<-|[]]; exists [], (mkNote t c None col).
      rewrite app_nil_r; auto.
    + intros ([|i rest] & x & V & ->).
      * injection V as <-; rewrite app_nil_r; auto.
      * rewrite hasSubNotes_false in V; [discriminate|reflexivity|discriminate].
  - set (n := mkNote t c (Some sub) col).
    rewrite renderNoteItem_unfold.
    change (subNotes_or_empty n) with sub.
    destruct (negb (truthy (isCollapsed n)) && hasSubNotes n) eqn:B;
      cbn [In].
    + apply andb_prop in B; destruct B as [Bc Bs].
      apply negb_true_iff in Bc.
      rewrite (In_renderItems sub IH).
      split.
      * intros [<-|(k & rest & m & x & Hk & G & V & ->)].
        -- exists [], n; rewrite app_nil_r; auto.
        -- exists (k :: rest), x; split; [|reflexivity].
           unfold visible_below at 1; rewrite Bc; cbn [n subNotes].
           rewrite visibleLoop_cons, G; exact V.
      * intros ([|k rest] & x & V & ->).
        -- injection V as <-; rewrite app_nil_r; auto.
        -- right; unfold visible_below at 1 in V; rewrite Bc in V.
           cbn [n subNotes] in V; rewrite visibleLoop_cons in V.
           destruct (get sub k) as [m|] eqn:G; [|discriminate].
           destruct (get_inv _ _ _ _ G) as [Hk _].
           exists k, rest, m, x; repeat split; auto; lia.
    + split.
      * intros [<-|[]]; exists [], n; rewrite app_nil_r; auto.
      * intros ([|k rest] & x & V & ->).
        -- injection V as <-; rewrite app_nil_r; auto.
        -- exfalso; apply andb_false_iff in B; destruct B as [B|B].
           ++ apply negb_false_iff in B.
              unfold visible_below in V; rewrite B in V; discriminate.
           ++ rewrite hasSubNotes_false in V;
                [discriminate | exact B | discriminate].
Qed.

Lemma In_renderNotes (notes : Forest) r :
  In r (renderNotes notes)
  <-> exists x, visibleLoop notes (row_path r) = Some x
                /\ r = row_of x (row_path r).
Proof.
  unfold renderNotes.
  rewrite In_renderItems
    by (apply Forall_forall; intros m _; apply In_renderNoteItem).
  split.
  - intros (k & rest & m & x & _ & G & V & ->); cbn [app Z.add row_of row_path].
    exists x; rewrite visibleLoop_cons, G; auto.
  - intros (x & V & E).
    destruct (row_path r) as [|k rest] eqn:Ep; [discriminate|].
    rewrite visibleLoop_cons in V.
    destruct (get notes k) as [m|] eqn:G; [|discriminate].
    destruct (get_inv _ _ _ _ G) as [Hk _].
    exists k, rest, m, x; repeat split; auto; lia.
Qed.

(** A path leads through expanded notes if it resolves and no note above
    it is collapsed. *)
Lemma visibleLoop_spec q : forall level x,
  visibleLoop level q = Some x
  <-> getLoop level q = Some x
      /\ forall a m, above a q -> getLoop level a = Some m ->
                     truthy (isCollapsed m) = false.
Proof.
  induction q as [|i q IH]; intros level x.
  - split; [discriminate | intros [H _]; discriminate].
  - rewrite visibleLoop_cons, getLoop_cons.
    destruct (get level i) as [cur|] eqn:G;
      [|split; [discriminate | intros [H _]; discriminate]].
    destruct q as [|j q].
    + cbn [visible_below descend]; split.
      * intros E; split; [exact E|].
        intros a m (r & Hr & Ea) Ha; exfalso.
        destruct a as [|k a]; [discriminate|].
        injection Ea as _ Ea; destruct a; destruct r; try discriminate.
        congruence.
      * intros [E _]; exact E.
    + unfold visible_below; rewrite descend_cons; split.
      * destruct (truthy (isCollapsed cur)) eqn:C; [discriminate|].
        destruct (subNotes cur) as [sub|] eqn:Es; [|discriminate].
        intros V; apply IH in V; destruct V as [D A]; split; [exact D|].
        intros a m (r & Hr & Ea) Ha.
        destruct a as [|k a]; [discriminate|].
        injection Ea as <- Ea.
        rewrite getLoop_cons, G in Ha.
        destruct a as [|k' a].
        -- injection Ha as <-; exact C.
        -- rewrite descend_cons, Es in Ha.
           apply (A (k' :: a) m); [exists r; auto | exact Ha].
      * intros [D A].
        assert (C : truthy (isCollapsed cur) = false).
        { apply (A [i] cur).
          - exists (j :: q); split; [discriminate | reflexivity].
          - rewrite getLoop_cons, G; reflexivity. }
        rewrite C.
        destruct (subNotes cur) as [sub|] eqn:Es; [|discriminate].
        apply IH; split; [exact D|].
        intros a m (r & Hr & Ea) Ha.
        destruct a as [|k a]; [discriminate|].
        apply (A (i :: k :: a) m).
        -- exists r; split; [exact Hr|]; cbn [app]; rewrite Ea; reflexivity.
        -- rewrite getLoop_cons, G, descend_cons, Es; exact Ha.
Qed.
End Rows.

Section Drawn.
Implicit Types (l : list Note) (notes : Forest) (p q : Path) (n m : Note)
         (r : Row).

Lemma row_path_of n q : row_path (row_of n q) = q.
Proof. reflexivity. Qed.

Lemma In_row_paths (L : list Row) q :
  In q (map row_path L) <-> exists r, In r L /\ row_path r = q.
Proof.
  rewrite in_map_iff; split; intros (r & A & B); exists r; auto.
Qed.

Lemma NoDup_rows_level l :
  Forall (fun m => forall p, NoDup (map row_path (renderNoteItem m p))) l ->
  forall p i, NoDup (map row_path (renderItems_from l p i)).
Proof.
  induction 1 as [|m0 l Hm _ IH]; intros p i; cbn [renderItems_from map].
  - constructor.
  - rewrite map_app; apply NoDup_app; [apply Hm | apply IH|].
    intros q H1 H2.
    apply In_row_paths in H1; destruct H1 as (r1 & H1 & E1).
    apply In_row_paths in H2; destruct H2 as (r2 & H2 & E2).
    apply In_renderNoteItem in H1; destruct H1 as (rest1 & x1 & _ & ->).
    apply In_renderItems in H2;
      [|apply Forall_forall; intros m _; apply In_renderNoteItem].
    destruct H2 as (k & rest2 & _ & x2 & Hk & _ & _ & ->).
    rewrite !row_path_of in *; subst q.
    rewrite <- app_assoc in E2; apply app_inv_head in E2.
    cbn [app] in E2; injection E2 as E2 _; lia.
Qed.

Lemma NoDup_rows n : forall p, NoDup (map row_path (renderNoteItem n p)).
Proof.
  induction n as [t c col|t c sub col IH] using Note_ind; intros p;
    rewrite renderNoteItem_unfold.
  - unfold hasSubNotes at 1; cbn [subNotes]; rewrite andb_false_r.
    cbn [map]; constructor; [intros [] | constructor].
  - set (n := mkNote t c (Some sub) col).
    change (subNotes_or_empty n) with sub.
    destruct (negb (truthy (isCollapsed n)) && hasSubNotes n); cbn [map].
    + constructor; [|apply NoDup_rows_level; exact IH].
      intros H; apply In_row_paths in H; destruct H as (r & H & E).
      apply In_renderItems in H;
        [|apply Forall_forall; intros m _; apply In_renderNoteItem].
      destruct H as (k & rest & _ & x & _ & _ & _ & ->).
      rewrite !row_path_of in E.
      apply (f_equal (@List.length Z)) in E; rewrite length_app in E.
      cbn [List.length] in E; lia.
    + constructor; [intros [] | constructor].
Qed.

(** A toggle seen from any path: the path resolves after it if and only
    if it did before, to a note with the same flag unless it is the
    toggled one. *)
Lemma toggle_view notes p note f' u a :
  getLoop notes p = Some note ->
  setLoop notes p u = Some (Dense f') ->
  subNotes u = subNotes note ->
  match getLoop notes a, getLoop f' a with
  | Some m, Some m' =>
      (a <> p -> isCollapsed m' = isCollapsed m) /\ (a = p -> m' = u)
  | None, None => True
  | _, _ => False
  end.
Proof.
  intros G W E.
  assert (Hp : p <> []) by (destruct p; [discriminate|congruence]).
  destruct a as [|k a]; [exact I|].
  assert (Ha : k :: a <> []) by discriminate.
  destruct (getLoop_after_set notes p u note f' (k :: a) G W Ha)
    as [(r & -> & D)|[(A & x & x' & Hx & Hx' & F & _)|(A & D)]].
  - rewrite D, getLoop_app, G by exact Hp.
    destruct r as [|j r].
    + cbn [descend]; split; [intros X; exfalso; apply X, app_nil_r | auto].
    + rewrite (descend_same_subNotes note u (j :: r) E) by discriminate.
      destruct (descend note (j :: r)); [|exact I].
      split; [reflexivity|].
      intros X; exfalso.
      apply (f_equal (@List.length Z)) in X; rewrite length_app in X.
      cbn [List.length] in X; lia.
  - rewrite Hx, Hx'; split; [intros _; symmetry; apply F|].
    intros X; exfalso; destruct A as (r & Hr & Er).
    rewrite X in Er.
    apply (f_equal (@List.length Z)) in Er; rewrite length_app in Er.
    destruct r; [congruence | cbn [List.length] in Er; lia].
  - rewrite D; destruct (getLoop notes (k :: a)); [|exact I].
    split; [reflexivity|].
    intros X; exfalso; destruct A as [A _]; apply A.
    exists []; rewrite X; symmetry; apply app_nil_r.
Qed.

(** With the note at [p] collapsed in one forest and expanded in the
    other, and the two alike in every other flag, the collapsed forest
    shows what the expanded one shows outside the part below [p]. *)
Lemma shown_collapsed (fc fe : Forest) p q :
  (forall a, match getLoop fc a, getLoop fe a with
             | Some m, Some m' => a <> p -> isCollapsed m' = isCollapsed m
             | None, None => True
             | _, _ => False
             end) ->
  (exists m, getLoop fc p = Some m /\ truthy (isCollapsed m) = true) ->
  (exists m, getLoop fe p = Some m /\ truthy (isCollapsed m) = false) ->
  ((exists x, visibleLoop fc q = Some x)
   <-> (exists x, visibleLoop fe q = Some x) /\ ~ above p q).
Proof.
  intros V (mc & Gc & Tc) (me & Ge & Te); split.
  - intros (x & Hx); apply visibleLoop_spec in Hx; destruct Hx as [Rx Ax].
    assert (Nab : ~ above p q).
    { intros A; rewrite (Ax p mc A Gc) in Tc; discriminate. }
    split; [|exact Nab].
    pose proof (V q) as Vq; rewrite Rx in Vq.
    destruct (getLoop fe q) as [x'|] eqn:Rx'; [|contradiction].
    exists x'; apply visibleLoop_spec; split; [exact Rx'|].
    intros a m' A Ha.
    pose proof (V a) as Va; rewrite Ha in Va.
    destruct (getLoop fc a) as [m|] eqn:Hm; [|contradiction].
    rewrite Va; [apply (Ax a m A Hm)|].
    intros ->; contradiction.
  - intros ((x' & Hx') & Nab).
    apply visibleLoop_spec in Hx'; destruct Hx' as [Rx' Ax'].
    pose proof (V q) as Vq; rewrite Rx' in Vq.
    destruct (getLoop fc q) as [x|] eqn:Rx; [|contradiction].
    exists x; apply visibleLoop_spec; split; [exact Rx|].
    intros a m A Ha.
    pose proof (V a) as Va; rewrite Ha in Va.
    destruct (getLoop fe a) as [m'|] eqn:Hm'; [|contradiction].
    rewrite <- Va; [apply (Ax' a m' A Hm')|].
    intros ->; contradiction.
Qed.

Lemma shown_iff notes q :
  In q (map row_path (renderNotes notes))
  <-> exists x, visibleLoop notes q = Some x.
Proof.
  rewrite In_row_paths; split.
  - intros (r & H & <-); apply In_renderNotes in H.
    destruct H as (x & V & _); eauto.
  - intros (x & V); exists (row_of x q); split; [|reflexivity].
    apply In_renderNotes; exists x; auto.
Qed.
End Drawn.

(** X9.  The rows of the note list are the notes no ancestor of which is
    collapsed: a row is drawn if and only if its path resolves to the note
    it shows and every note above that path is expanded; and no two rows
    have the same path. *)
Theorem rows_are_the_visible_notes (notes : Forest) :
  (forall r,
      In r (renderNotes notes)
      <-> exists n, getNoteByPath notes (row_path r) = Some n
                    /\ r = row_of n (row_path r)
                    /\ forall a m, above a (row_path r) ->
                                   getNoteByPath notes a = Some m ->
                                   truthy (isCollapsed m) = false)
  /\ NoDup (map row_path (renderNotes notes)).
Proof.
  split.
  - intros r; rewrite In_renderNotes; split.
    + intros (x & V & E); apply visibleLoop_spec in V; destruct V as [G A].
      exists x; rewrite getNoteByPath_getLoop; repeat split; auto.
      intros a m Ha Hm; rewrite getNoteByPath_getLoop in Hm; eauto.
    + intros (n & G & E & A); exists n; split; [|exact E].
      apply visibleLoop_spec; rewrite getNoteByPath_getLoop in G.
      split; [exact G|].
      intros a m Ha Hm; apply (A a m Ha).
      rewrite getNoteByPath_getLoop; exact Hm.
  - apply NoDup_rows_level, Forall_forall; intros m _; apply NoDup_rows.
Qed.

(** X10.  The buttons of a drawn row do what they offer: the note
    button's path resolves, a [+] that is drawn appends a sub-note (no
    alert, no silent return) and a row without [+] gets the alert, and a
    collapse button is drawn exactly for a note with sub-notes and its
    toggle goes through. *)
Theorem drawn_buttons_work (notes : Forest) (r : Row) :
  In r (renderNotes notes) ->
  exists n,
    getNoteByPath notes (row_path r) = Some n
    /\ (if row_add r
        then exists f',
            handleAddSubNote notes (row_path r) = Called (SetNotes f')
        else handleAddSubNote notes (row_path r)
             = Alerted "Maximum nesting depth of 4 reached.")
    /\ (row_toggle r <> None <-> hasSubNotes n = true)
    /\ exists f', handleToggleCollapse notes (row_path r)
                  = Called (SetNotes f').
Proof.
  intros H; apply In_renderNotes in H; destruct H as (n & V & E).
  apply visibleLoop_spec in V; destruct V as [G _].
  rewrite <- getNoteByPath_getLoop in G.
  exists n; split; [exact G|]; split; [|split].
  - rewrite E; cbn [row_add row_of row_path].
    unfold handleAddSubNote; rewrite G.
    destruct (Z.ltb_spec (len (row_path r)) 4) as [L|L].
    + destruct (Z.geb_spec (len (row_path r)) 4); [lia|].
      destruct (guarded_write _ _ _ (with_child n newSubNote) G)
        as (f' & S & _).
      exists f'; unfold with_child in S; rewrite S; reflexivity.
    + destruct (Z.geb_spec (len (row_path r)) 4); [reflexivity | lia].
  - rewrite E; cbn [row_toggle row_of].
    destruct (hasSubNotes n); split; congruence.
  - unfold handleToggleCollapse; rewrite G.
    destruct (guarded_write _ _ _
                (with_isCollapsed n (Some (negb (truthy (isCollapsed n))))) G)
      as (f' & S & _).
    exists f'; rewrite S; reflexivity.
Qed.

Lemma drawn_buttons_work_witness :
  exists f', handleAddSubNote [newNote] [0] = Called (SetNotes f').
Proof.
  assert (H : In (row_of newNote [0]) (renderNotes [newNote]))
    by (left; reflexivity).
  destruct (drawn_buttons_work [newNote] (row_of newNote [0]) H)
    as (n & _ & A & _).
  exact A.
Defined.

(** X11.  A toggle hides or shows the part below the toggled note and
    nothing else: of the forests before and after, the one in which the
    note is collapsed draws a row for a path exactly when the other one
    does and the path does not lie below the note. *)
Theorem toggle_hides_what_is_below (notes f' : Forest) (p q : Path)
    (note : Note) :
  getNoteByPath notes p = Some note ->
  handleToggleCollapse notes p = Called (SetNotes f') ->
  if truthy (isCollapsed note)
  then In q (map row_path (renderNotes notes))
       <-> In q (map row_path (renderNotes f')) /\ ~ above p q
  else In q (map row_path (renderNotes f'))
       <-> In q (map row_path (renderNotes notes)) /\ ~ above p q.
Proof.
  intros H S; unfold handleToggleCollapse in S; rewrite H in S.
  set (u := with_isCollapsed note (Some (negb (truthy (isCollapsed note)))))
    in S.
  destruct (guarded_write _ _ _ u H) as (f & S' & G & W).
  rewrite S' in S; injection S as ->.
  assert (Gu : getLoop f' p = Some u)
    by apply (getLoop_set_same _ _ _ _ _ G W).
  assert (V : forall a, match getLoop notes a, getLoop f' a with
                        | Some m, Some m' =>
                            a <> p -> isCollapsed m' = isCollapsed m
                        | None, None => True
                        | _, _ => False
                        end).
  { intros a; pose proof (toggle_view notes p note f' u a G W eq_refl) as T.
    destruct (getLoop notes a), (getLoop f' a); try exact T.
    apply T. }
  destruct (truthy (isCollapsed note)) eqn:T; rewrite !shown_iff.
  - apply (shown_collapsed notes f' p q V).
    + exists note; auto.
    + exists u; split; [exact Gu|]; unfold u; cbn; rewrite ?T; reflexivity.
  - apply (shown_collapsed f' notes p q).
    + intros a; specialize (V a).
      destruct (getLoop notes a), (getLoop f' a); try exact V.
      intros X; symmetry; apply V; exact X.
    + exists u; split; [exact Gu|]; unfold u; cbn; rewrite ?T; reflexivity.
    + exists note; auto.
Qed.

Lemma toggle_hides_what_is_below_witness :
  ~ In [0; 0]
      (map row_path
         (renderNotes
            [mkNote "Untitled Note" "" (Some [newSubNote]) (Some true)])).
Proof.
  pose proof (toggle_hides_what_is_below
                [mkNote "Untitled Note" "" (Some [newSubNote]) (Some false)]
                [mkNote "Untitled Note" "" (Some [newSubNote]) (Some true)]
                [0] [0; 0] _ eq_refl eq_refl) as T.
  cbn [truthy isCollapsed] in T.
  intros X; apply T in X; destruct X as [_ X]; apply X.
  exists [0]; split; [discriminate | reflexivity].
Defined.

End RenderFacts.

(** * The search panel *)

Module SearchKeysFacts.

Import SearchKeys.

Section Cursor.
Implicit Types (v : View) (p : Panel) (key : string).

Lemma len_zero_nil (A : Type) (l : list A) : len l = 0 -> l = [].
Proof.
  destruct l as [|a l]; [reflexivity|].
  rewrite len_cons; pose proof (len_nonneg _ l); lia.
Qed.

Lemma arrow_down_step v :
  0 <= searchSelectedIndex (panel v) < len (searchResults (panel v)) ->
  handleSearchKeyDown v "ArrowDown"
  = mkView (app v)
      (with_index (panel v)
         ((searchSelectedIndex (panel v) + 1)
          mod len (searchResults (panel v)))).
Proof.
  intros H; unfold handleSearchKeyDown.
  destruct (Z.eqb_spec (len (searchResults (panel v))) 0); [lia|].
  cbn [String.eqb Ascii.eqb Bool.eqb andb].
  do 2 f_equal.
  destruct (Z.geb_spec (searchSelectedIndex (panel v) + 1)
              (len (searchResults (panel v)))).
  - replace (searchSelectedIndex (panel v) + 1)
      with (len (searchResults (panel v))) by lia.
    symmetry; apply Z_mod_same_full.
  - symmetry; apply Z.mod_small; lia.
Qed.

Lemma arrow_up_step v :
  0 <= searchSelectedIndex (panel v) < len (searchResults (panel v)) ->
  handleSearchKeyDown v "ArrowUp"
  = mkView (app v)
      (with_index (panel v)
         ((searchSelectedIndex (panel v) - 1)
          mod len (searchResults (panel v)))).
Proof.
  intros H; unfold handleSearchKeyDown.
  destruct (Z.eqb_spec (len (searchResults (panel v))) 0); [lia|].
  cbn [String.eqb Ascii.eqb Bool.eqb andb].
  do 2 f_equal.
  destruct (Z.ltb_spec (searchSelectedIndex (panel v) - 1) 0).
  - apply Z.mod_unique_pos with (q := -1); lia.
  - symmetry; apply Z.mod_small; lia.
Qed.

Lemma press_arrows v (down : bool) (k : nat) :
  0 <= searchSelectedIndex (panel v) < len (searchResults (panel v)) ->
  press v (if down then "ArrowDown" else "ArrowUp") k
  = mkView (app v)
      (with_index (panel v)
         ((searchSelectedIndex (panel v)
           + (if down then 1 else -1) * Z.of_nat k)
          mod len (searchResults (panel v)))).
Proof.
  revert v; induction k as [|k IH]; intros v H.
  - cbn [press]; rewrite Z.mul_0_r, Z.add_0_r, Z.mod_small by exact H.
    destruct v as [a [o q rs i]]; reflexivity.
  - cbn [press].
    assert (N : 0 < len (searchResults (panel v))) by lia.
    destruct down.
    + rewrite (arrow_down_step v H), (IH _);
        unfold with_index;
        cbn [panel app searchResults searchSelectedIndex searchOpen
             searchQuery].
      * do 2 f_equal.
        rewrite Zplus_mod_idemp_l; f_equal; lia.
      * apply Z.mod_pos_bound; exact N.
    + rewrite (arrow_up_step v H), (IH _);
        unfold with_index;
        cbn [panel app searchResults searchSelectedIndex searchOpen
             searchQuery].
      * do 2 f_equal.
        rewrite Zplus_mod_idemp_l; f_equal; lia.
      * apply Z.mod_pos_bound; exact N.
Qed.
End Cursor.

(** X12.  The cursor of the search panel is always on a result (or at 0
    when there is none): opening, closing, typing, the search effect and
    every key keep it so. *)
Theorem cursor_stays_on_a_result (toLowerCase trim : string -> string)
    (notes : Forest) (v : View) (key value : string) :
  cursor_ok (panel v) ->
  cursor_ok (panel (handleSearchKeyDown v key))
  /\ cursor_ok (openSearchPanel (panel v))
  /\ cursor_ok (closeSearchPanel (panel v))
  /\ cursor_ok (setSearchQuery (panel v) value)
  /\ cursor_ok (searchEffect toLowerCase trim notes (panel v)).
Proof.
  intros C.
  assert (Z0 : forall rs : list SearchResult,
             (rs = [] /\ 0 = 0) \/ 0 <= 0 < len rs).
  { intros [|r rs]; [left; auto | right].
    rewrite len_cons; pose proof (len_nonneg _ rs); lia. }
  split; [|split; [|split; [|split]]].
  - unfold handleSearchKeyDown.
    destruct (Z.eqb_spec (len (searchResults (panel v))) 0) as [E|N];
      [exact C|].
    assert (R : 0 <= searchSelectedIndex (panel v)
                < len (searchResults (panel v))).
    { destruct C as [[E _]|R]; [|exact R].
      rewrite E, len_nil in N; congruence. }
    destruct (String.eqb key "ArrowDown").
    { right; cbn [panel with_index searchSelectedIndex searchResults].
      destruct (Z.geb_spec (searchSelectedIndex (panel v) + 1)
                  (len (searchResults (panel v)))); lia. }
    destruct (String.eqb key "ArrowUp").
    { right; cbn [panel with_index searchSelectedIndex searchResults].
      destruct (Z.ltb_spec (searchSelectedIndex (panel v) - 1) 0); lia. }
    destruct (String.eqb key "Enter").
    { destruct (get _ _); [left; split; reflexivity | right; exact R]. }
    destruct (String.eqb key "Escape");
      [left; split; reflexivity | right; exact R].
  - apply Z0.
  - left; split; reflexivity.
  - exact C.
  - unfold searchEffect; destruct (negb (searchOpen (panel v))); [exact C|].
    apply Z0.
Qed.

Lemma cursor_stays_on_a_result_witness :
  cursor_ok
    (panel (handleSearchKeyDown
              (mkView (mkApp [newNote] [])
                 (mkPanel true "n" [([0], newNote)] 0)) "ArrowDown")).
Proof.
  apply (cursor_stays_on_a_result AsciiText.toLowerCase AsciiText.trim []
           (mkView (mkApp [newNote] []) (mkPanel true "n" [([0], newNote)] 0))
           "ArrowDown" "").
  right; cbn; lia.
Defined.

(** X13.  With the cursor on one of [n] results, [k] presses of
    ArrowDown move it to [(i + k) mod n] and [k] presses of ArrowUp to
    [(i - k) mod n], and change nothing else; so ArrowUp undoes ArrowDown,
    and [n] presses of either come back to where they started. *)
Theorem arrows_cycle (v : View) (k : nat) :
  let i := searchSelectedIndex (panel v) in
  let n := len (searchResults (panel v)) in
  0 <= i < n ->
  press v "ArrowDown" k
  = mkView (app v) (with_index (panel v) ((i + Z.of_nat k) mod n))
  /\ press v "ArrowUp" k
     = mkView (app v) (with_index (panel v) ((i - Z.of_nat k) mod n))
  /\ handleSearchKeyDown (handleSearchKeyDown v "ArrowDown") "ArrowUp" = v
  /\ press v "ArrowDown" (Z.to_nat n) = v.
Proof.
  cbv zeta; intros H.
  pose proof (press_arrows v true k H) as D.
  pose proof (press_arrows v false k H) as U.
  cbv iota in D, U.
  replace (searchSelectedIndex (panel v) + 1 * Z.of_nat k)
    with (searchSelectedIndex (panel v) + Z.of_nat k) in D by lia.
  replace (searchSelectedIndex (panel v) + -1 * Z.of_nat k)
    with (searchSelectedIndex (panel v) - Z.of_nat k) in U by lia.
  assert (V : mkView (app v)
                (with_index (panel v) (searchSelectedIndex (panel v))) = v)
    by (destruct v as [a [o q rs i]]; reflexivity).
  split; [exact D|]; split; [exact U|]; split.
  - rewrite (arrow_down_step v H).
    rewrite arrow_up_step;
      cbn [panel app with_index searchResults searchSelectedIndex
           searchOpen searchQuery].
    + etransitivity; [|exact V].
      unfold with_index;
        cbn [searchResults searchSelectedIndex searchOpen searchQuery].
      do 2 f_equal.
      rewrite Zminus_mod_idemp_l.
      replace (searchSelectedIndex (panel v) + 1 - 1)
        with (searchSelectedIndex (panel v)) by lia.
      apply Z.mod_small; exact H.
    + apply Z.mod_pos_bound; lia.
  - pose proof (press_arrows v true
                  (Z.to_nat (len (searchResults (panel v)))) H) as P.
    cbv iota in P; rewrite P.
    etransitivity; [|exact V].
    do 2 f_equal.
    rewrite Z2Nat.id by lia.
    rewrite Z_mod_plus_full.
    apply Z.mod_small; exact H.
Qed.

Lemma arrows_cycle_witness :
  press (mkView (mkApp [] [])
           (mkPanel true "x" [([0], newNote); ([1], newNote); ([2], newNote)] 1))
    "ArrowDown" 5
  = mkView (mkApp [] [])
      (mkPanel true "x" [([0], newNote); ([1], newNote); ([2], newNote)] 0).
Proof.
  assert (H : 0 <= 1 < 3) by lia.
  destruct (arrows_cycle
              (mkView (mkApp [] [])
                 (mkPanel true "x"
                    [([0], newNote); ([1], newNote); ([2], newNote)] 1))
              5 H) as (D & _).
  exact D.
Defined.

(** X14.  With the results of the search on the current notes in the
    panel and the cursor on one of them, Enter closes and empties the
    panel, leaves the notes alone, and selects the path under the cursor,
    which resolves to a note that matches the query. *)
Theorem enter_selects_a_match (toLowerCase trim : string -> string)
    (v : View) :
  searchResults (panel v)
  = search toLowerCase trim (notes (app v)) (searchQuery (panel v)) ->
  0 <= searchSelectedIndex (panel v) < len (searchResults (panel v)) ->
  exists res,
    get (searchResults (panel v)) (searchSelectedIndex (panel v)) = Some res
    /\ handleSearchKeyDown v "Enter"
       = mkView (mkApp (notes (app v)) (fst res)) (mkPanel false "" [] 0)
    /\ Render.selectedNote (app (handleSearchKeyDown v "Enter"))
       = Some (snd res)
    /\ matches toLowerCase (toLowerCase (searchQuery (panel v))) res = true.
Proof.
  intros E R.
  destruct (get_in_range _ _ _ R) as (res & G).
  assert (K : handleSearchKeyDown v "Enter"
              = mkView (mkApp (notes (app v)) (fst res))
                  (mkPanel false "" [] 0)).
  { unfold handleSearchKeyDown.
    destruct (Z.eqb_spec (len (searchResults (panel v))) 0); [lia|].
    cbn [String.eqb Ascii.eqb Bool.eqb andb]; rewrite G; reflexivity. }
  assert (I : In res (search toLowerCase trim (notes (app v))
                        (searchQuery (panel v)))).
  { rewrite <- E; destruct (get_inv _ _ _ _ G) as [_ N].
    apply nth_error_In in N; exact N. }
  unfold search in I.
  destruct (is_empty (trim (searchQuery (panel v)))); [destruct I|].
  apply filter_In in I; destruct I as [I M].
  exists res; split; [exact G|]; split; [exact K|]; split; [|exact M].
  rewrite K; unfold Render.selectedNote; cbn [app notes NoteTree.selectedPath].
  rewrite gatherAllNotes_preorder in I.
  destruct res as [q x]; apply In_preorder_forest in I; exact I.
Qed.

Lemma enter_selects_a_match_witness :
  Render.selectedNote
    (app (handleSearchKeyDown
            (mkView (mkApp [newNote] [])
               (mkPanel true "note" [([0], newNote)] 0)) "Enter"))
  = Some newNote.
Proof.
  assert (R : 0 <= 0 < len [([0], newNote)]) by (cbn; lia).
  destruct (enter_selects_a_match AsciiText.toLowerCase AsciiText.trim
              (mkView (mkApp [newNote] [])
                 (mkPanel true "note" [([0], newNote)] 0)) eq_refl R)
    as (res & G & _ & S & _).
  injection G as <-; exact S.
Defined.

(** X15.  Opening the panel empties the query, so once the effect has
    run there are no results, whatever the panel held before; and with no
    results no key does anything: Escape does not close a panel that shows
    no result. *)
Theorem fresh_panel_ignores_keys (toLowerCase trim : string -> string)
    (v : View) (key : string) :
  is_empty (trim EmptyString) = true ->
  let p := searchEffect toLowerCase trim (notes (app v))
             (openSearchPanel (panel v)) in
  p = mkPanel true "" [] 0
  /\ handleSearchKeyDown (mkView (app v) p) key = mkView (app v) p
  /\ forall w, searchResults (panel w) = [] ->
               handleSearchKeyDown w "Escape" = w.
Proof.
  intros T; cbv zeta.
  assert (P : searchEffect toLowerCase trim (notes (app v))
                (openSearchPanel (panel v)) = mkPanel true "" [] 0).
  { unfold searchEffect, openSearchPanel, search.
    cbn [searchOpen searchQuery negb]; rewrite T; reflexivity. }
  rewrite P; split; [reflexivity|]; split; [reflexivity|].
  intros w E; unfold handleSearchKeyDown; rewrite E; reflexivity.
Qed.

Lemma fresh_panel_ignores_keys_witness :
  handleSearchKeyDown
    (mkView (mkApp [newNote] []) (mkPanel true "" [] 0)) "Escape"
  = mkView (mkApp [newNote] []) (mkPanel true "" [] 0).
Proof.
  destruct (fresh_panel_ignores_keys AsciiText.toLowerCase AsciiText.trim
              (mkView (mkApp [newNote] []) (mkPanel false "old" [] 0))
              "Escape" eq_refl) as (_ & K & _).
  exact K.
Defined.

End SearchKeysFacts.

(** * Tasks *)

Module TasksFacts.

Import Tasks.

Section TaskList.
Implicit Types (st : State) (t task : Task) (l : list Task) (i uuid : string).

Lemma same_id_same_task l :
  NoDup (map id l) ->
  forall a b, In a l -> In b l -> id a = id b -> a = b.
Proof.
  induction l as [|t l IH]; intros N a b Ha Hb E; [destruct Ha|].
  cbn [map] in N; apply NoDup_cons_iff in N; destruct N as [Nt Nl].
  destruct Ha as [<-|Ha], Hb as [<-|Hb]; auto.
  - exfalso; apply Nt; rewrite E; apply in_map; exact Hb.
  - exfalso; apply Nt; rewrite <- E; apply in_map; exact Ha.
Qed.

Lemma map_id_overwrite st i l :
  map id (map (overwrite st i) l) = map id l.
Proof.
  rewrite map_map; apply map_ext; intros t; unfold overwrite.
  destruct (String.eqb (id t) i); reflexivity.
Qed.

Lemma remove_at_past_end (A : Type) (arr : list A) :
  remove_at arr (List.length arr) = arr.
Proof.
  unfold remove_at; rewrite firstn_all, skipn_all2 by lia.
  apply app_nil_r.
Qed.

Lemma splice1_past_end (A : Type) (arr : list A) index :
  len arr <= index -> splice1 arr index = arr.
Proof.
  intros H; pose proof (len_nonneg _ arr); unfold splice1.
  destruct (Z.ltb_spec index 0); [lia|].
  rewrite Z.min_r by lia; unfold len; rewrite Nat2Z.id.
  apply remove_at_past_end.
Qed.
End TaskList.

(** X16.  Ticking the task at a position that exists removes that task
    and no other: the tasks before it stay where they are, the tasks
    after it move up by one, the modal is not touched.  At a position past
    the end nothing is removed. *)
Theorem handleCheck_removes_one (st : State) (index : Z) :
  0 <= index ->
  (index < len (tasks st) ->
   len (tasks (handleCheck st index)) = len (tasks st) - 1
   /\ (forall j, j < index ->
                 get (tasks (handleCheck st index)) j = get (tasks st) j)
   /\ (forall j, index <= j ->
                 get (tasks (handleCheck st index)) j
                 = get (tasks st) (j + 1)))
  /\ (len (tasks st) <= index -> handleCheck st index = st).
Proof.
  intros H0; split.
  - intros H; cbn [handleCheck tasks].
    rewrite splice1_inside by lia.
    split; [apply len_remove_at; lia|]; split.
    + intros j Hj; apply get_remove_before; lia.
    + intros j Hj; apply get_remove_after; lia.
  - intros H; unfold handleCheck; rewrite splice1_past_end by exact H.
    destruct st; reflexivity.
Qed.

Lemma handleCheck_removes_one_witness :
  tasks (handleCheck
           (mkState [mkTask "a" "A" "" ""; mkTask "b" "B" "" ""] false None
              "" "" "") 0)
  = [mkTask "b" "B" "" ""]
  /\ len [mkTask "b" "B" "" ""] = 2 - 1.
Proof.
  assert (H0 : 0 <= 0) by lia.
  destruct (handleCheck_removes_one
              (mkState [mkTask "a" "A" "" ""; mkTask "b" "B" "" ""] false None
                 "" "" "") 0 H0) as (A & _).
  split; [reflexivity|].
  assert (L : 0 < len [mkTask "a" "A" "" ""; mkTask "b" "B" "" ""])
    by (cbn; lia).
  destruct (A L) as (E & _); exact E.
Defined.

(** X17.  Saving the modal never changes the id of a task: with a blank
    title nothing changes at all (and the alert is shown); an update keeps
    the sequence of ids; a create appends the fresh id.  So ids that are
    pairwise different stay so, as long as the fresh id is a new one. *)
Theorem save_keeps_ids (trim : string -> string) (uuid : string) (st : State) :
  let st' := fst (handleCreateOrUpdateTask trim uuid st) in
  match snd (handleCreateOrUpdateTask trim uuid st) with
  | Some _ => Search.is_empty (trim (taskTitle st)) = true /\ st' = st
  | None =>
      Search.is_empty (trim (taskTitle st)) = false
      /\ taskModalOpen st' = false
      /\ match editing st with
         | Some _ => map id (tasks st') = map id (tasks st)
         | None => map id (tasks st') = map id (tasks st) ++ [uuid]
         end
  end
  /\ (NoDup (map id (tasks st)) -> ~ In uuid (map id (tasks st)) ->
      NoDup (map id (tasks st'))).
Proof.
  cbv zeta; unfold handleCreateOrUpdateTask.
  destruct (Search.is_empty (trim (taskTitle st))) eqn:T; cbn [fst snd].
  - split; [split; reflexivity | auto].
  - cbn [tasks taskModalOpen].
    destruct (editing st) as [i|].
    + rewrite map_id_overwrite; repeat split; auto.
    + rewrite map_app; cbn [map id]; repeat split; auto.
      intros N F; apply NoDup_app; auto.
      * constructor; [intros [] | constructor].
      * intros a Ha [<-|[]]; contradiction.
Qed.

(** X18.  Opening a task of the list in the modal and saving it as it is
    gives back the same task list and closes the modal, provided the ids
    are pairwise different, this one is not empty and the title is not
    blank.  For a task whose id is the empty string the save appends a
    copy under the fresh id instead. *)
Theorem edit_then_save (trim : string -> string) (uuid : string)
    (st : State) (task : Task) :
  In task (tasks st) ->
  Search.is_empty (trim (title task)) = false ->
  (NoDup (map id (tasks st)) -> id task <> EmptyString ->
   handleCreateOrUpdateTask trim uuid (handleTaskClick st task)
   = (mkState (tasks st) false (Some (id task)) (title task)
        (description task) (dueDate task), None))
  /\ (id task = EmptyString ->
      tasks (fst (handleCreateOrUpdateTask trim uuid
                    (handleTaskClick st task)))
      = tasks st ++ [mkTask uuid (title task) (description task)
                       (dueDate task)]).
Proof.
  intros I T; unfold handleTaskClick, handleCreateOrUpdateTask.
  cbn [openEditTaskModal taskTitle]; rewrite T.
  unfold editing; cbn [openEditTaskModal editingTaskId tasks taskTitle
                       taskDescription taskDueDate].
  split.
  - intros N E.
    destruct (id task) as [|c s] eqn:Ei; [congruence|].
    do 2 f_equal.
    rewrite <- (map_id (tasks st)) at 2.
    apply map_ext_in; intros t Ht; unfold overwrite.
    cbn [taskTitle taskDescription taskDueDate].
    destruct (String.eqb_spec (id t) (String c s)) as [Et|]; [|reflexivity].
    assert (t = task) as ->
      by (apply (same_id_same_task _ N); auto; congruence).
    destruct task; reflexivity.
  - intros E; rewrite E; reflexivity.
Qed.

Lemma edit_then_save_witness :
  handleCreateOrUpdateTask AsciiText.trim "fresh"
    (handleTaskClick
       (mkState [mkTask "a" "A" "" ""; mkTask "b" "B" "" ""] false None
          "" "" "") (mkTask "b" "B" "" ""))
  = (mkState [mkTask "a" "A" "" ""; mkTask "b" "B" "" ""] false
       (Some "b"%string) "B" "" "", None).
Proof.
  assert (I : In (mkTask "b" "B" "" "")
                (tasks (mkState [mkTask "a" "A" "" ""; mkTask "b" "B" "" ""]
                          false None "" "" "")))
    by (right; left; reflexivity).
  destruct (edit_then_save AsciiText.trim "fresh" _ _ I eq_refl) as (R & _).
  apply R.
  - cbn; repeat constructor; cbn; intuition discriminate.
  - discriminate.
Defined.

End TasksFacts.

(** * More on tabs *)

Section TabInvariant.
Implicit Types (st : TabSet) (p : Path) (tabs : list Path).

Lemma In_remove_at (A : Type) (l : list A) : forall i x,
  In x (remove_at l i) -> In x l.
Proof.
  induction l as [|a l IH]; intros i x H.
  - unfold remove_at in H; rewrite firstn_nil, skipn_nil in H; destruct H.
  - destruct i as [|i]; [right; exact H|].
    rewrite remove_at_cons in H; destruct H as [<-|H]; [left; auto|].
    right; apply (IH i); exact H.
Qed.

Lemma NoDup_remove_at (A : Type) (l : list A) : forall i,
  NoDup l -> NoDup (remove_at l i).
Proof.
  induction l as [|a l IH]; intros i N.
  - unfold remove_at; rewrite firstn_nil, skipn_nil; constructor.
  - apply NoDup_cons_iff in N; destruct N as [Na Nl].
    destruct i as [|i]; [exact Nl|].
    rewrite remove_at_cons; constructor; [|apply IH; exact Nl].
    intros H; apply Na, (In_remove_at _ _ _ _ H).
Qed.

Lemma remove_at_last (A : Type) (l : list A) (x : A) :
  remove_at (l ++ [x]) (List.length l) = l.
Proof.
  induction l as [|a l IH]; [reflexivity|].
  cbn [app List.length]; rewrite remove_at_cons, IH; reflexivity.
Qed.

(** The two ways [openNoteTab] ends. *)
Lemma openNoteTab_cases st p :
  (In p (openTabs st)
   /\ exists e, 0 <= e < len (openTabs st)
                /\ get (openTabs st) e = Some p
                /\ openNoteTab st p = mkTabs (openTabs st) e (Some p))
  \/ (~ In p (openTabs st)
      /\ openNoteTab st p
         = mkTabs (openTabs st ++ [p]) (len (openTabs st)) (Some p)).
Proof.
  set (f := fun t => pathsEqual t p).
  assert (Fp : f p = true) by (apply pathsEqual_eq; reflexivity).
  destruct (findIndex_from_result _ f (openTabs st) 0 (Z.le_refl 0))
    as [(E & H)|(x & Hl & G & Fx)].
  - right; split.
    + intros I; rewrite (H p I) in Fp; discriminate.
    + unfold openNoteTab, findIndex; fold f; rewrite E; reflexivity.
  - left; rewrite Z.sub_0_r in G.
    assert (x = p) as -> by (apply pathsEqual_eq; exact Fx).
    destruct (get_inv _ _ _ _ G) as [R N].
    split; [apply nth_error_In in N; exact N|].
    exists (findIndex_from f (openTabs st) 0); repeat split; try apply R.
    + exact G.
    + unfold openNoteTab, findIndex; fold f.
      destruct (Z.geb_spec (findIndex_from f (openTabs st) 0) 0);
        [reflexivity | lia].
Qed.

Lemma tabs_ok_open st p : tabs_ok st -> tabs_ok (openNoteTab st p).
Proof.
  intros [N A].
  destruct (openNoteTab_cases st p) as [(I & e & R & _ & ->)|(I & ->)];
    split; cbn [openTabs activeTabIndex]; auto.
  - apply NoDup_app; auto.
    + constructor; [intros [] | constructor].
    + intros a Ia [<-|[]]; contradiction.
  - right; rewrite len_app, len_cons, len_nil.
    pose proof (len_nonneg _ (openTabs st)); lia.
Qed.

Lemma tabs_ok_close st index :
  0 <= index < len (openTabs st) -> tabs_ok st ->
  tabs_ok (handleTabClose st index).
Proof.
  intros R [N A]; split.
  - rewrite openTabs_close, splice1_inside by exact R.
    apply NoDup_remove_at; exact N.
  - assert (L : len (openTabs (handleTabClose st index))
                = len (openTabs st) - 1).
    { rewrite openTabs_close, splice1_inside by exact R.
      apply len_remove_at; exact R. }
    destruct A as [[E _]|A]; [rewrite E, len_nil in R; lia|].
    destruct (Z.eq_dec (len (openTabs st)) 1) as [E1|N1].
    + left; split.
      * apply SearchKeysFacts.len_zero_nil; lia.
      * unfold handleTabClose.
        assert (index = 0) by lia; assert (activeTabIndex st = 0) by lia.
        ztests; cbn [activeTabIndex]; try reflexivity; exfalso; lia.
    + right; rewrite L; unfold handleTabClose.
      ztests; cbn [activeTabIndex]; lia.
Qed.
End TabInvariant.

(** X19.  The tab set stays well formed: if no path is open twice and the
    active index is on a tab (or [-1] with no tab), the same holds after
    [openNoteTab] on any path, and after a click on, or the closing of, a
    tab that exists. *)
Theorem tabs_stay_well_formed (st : TabSet) (p : Path) (index : Z) :
  tabs_ok st ->
  tabs_ok (openNoteTab st p)
  /\ (0 <= index < len (openTabs st) ->
      tabs_ok (handleTabClick st index)
      /\ selectedPath (handleTabClick st index) = get (openTabs st) index
      /\ get (openTabs st) index <> None
      /\ tabs_ok (handleTabClose st index)).
Proof.
  intros T; split; [apply tabs_ok_open; exact T|].
  intros R; split; [|split; [reflexivity|split]].
  - destruct T as [N _]; split; [exact N | right; exact R].
  - destruct (get_in_range _ _ _ R) as (x & ->); discriminate.
  - apply tabs_ok_close; assumption.
Qed.

Lemma tabs_stay_well_formed_witness :
  tabs_ok (openNoteTab (mkTabs [[0]] 0 (Some [0])) [1]).
Proof.
  apply (tabs_stay_well_formed (mkTabs [[0]] 0 (Some [0])) [1] 0).
  split; [repeat constructor; intros [] | right; cbn; lia].
Defined.

(** X20.  A tab opened for a path that was not open, and closed again at
    once, leaves the tabs that were there; the active tab is then the
    last of them, whichever was active before. *)
Theorem open_then_close (st : TabSet) (p : Path) :
  ~ In p (openTabs st) ->
  let opened := openNoteTab st p in
  let closed := handleTabClose opened (activeTabIndex opened) in
  activeTabIndex opened = len (openTabs st)
  /\ openTabs closed = openTabs st
  /\ activeTabIndex closed = len (openTabs st) - 1
  /\ (openTabs st = [] -> selectedPath closed = Some [])
  /\ (openTabs st <> [] -> selectedPath closed = Some p).
Proof.
  intros I; cbv zeta.
  destruct (openNoteTab_cases st p) as [(I' & _)|(_ & ->)]; [contradiction|].
  cbn [activeTabIndex].
  pose proof (len_nonneg _ (openTabs st)) as L0.
  assert (R : 0 <= len (openTabs st) < len (openTabs st ++ [p]))
    by (rewrite len_app, len_cons, len_nil; lia).
  split; [reflexivity|]; split; [|split; [|split]].
  - rewrite openTabs_close; cbn [openTabs].
    rewrite splice1_inside by exact R.
    unfold len; rewrite Nat2Z.id; apply remove_at_last.
  - unfold handleTabClose; cbn [activeTabIndex openTabs].
    rewrite len_app, len_cons, len_nil.
    ztests; cbn [activeTabIndex]; lia.
  - intros E; rewrite E; reflexivity.
  - intros E.
    assert (0 < len (openTabs st)).
    { destruct (openTabs st); [congruence|].
      rewrite len_cons; pose proof (len_nonneg _ l); lia. }
    unfold handleTabClose; cbn [activeTabIndex openTabs selectedPath].
    rewrite len_app, len_cons, len_nil.
    ztests; cbn [selectedPath]; try reflexivity; exfalso; lia.
Qed.

Lemma open_then_close_witness :
  openTabs (handleTabClose (openNoteTab (mkTabs [[0]; [1]] 0 (Some [0])) [2])
              2)
  = [[0]; [1]].
Proof.
  assert (I : ~ In [2] (openTabs (mkTabs [[0]; [1]] 0 (Some [0]))))
    by (cbn; intuition discriminate).
  destruct (open_then_close (mkTabs [[0]; [1]] 0 (Some [0])) [2] I)
    as (_ & C & _).
  exact C.
Defined.

(** X21.  Closing the active tab while another tab is open moves the
    active index but not the selection: [selectedPath] keeps the path of
    the tab that was closed, which is no longer among the tabs and is not
    the path of the tab now active. *)
Theorem close_keeps_the_selection (st : TabSet) (p : Path) :
  tabs_ok st ->
  1 < len (openTabs st) ->
  get (openTabs st) (activeTabIndex st) = Some p ->
  selectedPath st = Some p ->
  let closed := handleTabClose st (activeTabIndex st) in
  selectedPath closed = Some p
  /\ ~ In p (openTabs closed)
  /\ exists q, get (openTabs closed) (activeTabIndex closed) = Some q
               /\ q <> p.
Proof.
  intros [N A] L G S; cbv zeta.
  destruct (get_inv _ _ _ _ G) as [R Np].
  assert (T : openTabs (handleTabClose st (activeTabIndex st))
              = remove_at (openTabs st) (Z.to_nat (activeTabIndex st)))
    by (rewrite openTabs_close; apply splice1_inside; exact R).
  assert (Out : ~ In p (remove_at (openTabs st)
                          (Z.to_nat (activeTabIndex st)))).
  { clear - N Np; revert Np N.
    generalize (Z.to_nat (activeTabIndex st)) as i.
    induction (openTabs st) as [|a l IH]; intros i Np N;
      [destruct i; discriminate|].
    apply NoDup_cons_iff in N; destruct N as [Na Nl].
    destruct i as [|i]; cbn in Np.
    - injection Np as ->; exact Na.
    - rewrite remove_at_cons; intros [->|H].
      + apply Na, (nth_error_In _ _ Np).
      + apply (IH i Np Nl H). }
  split; [|split].
  - unfold handleTabClose; rewrite Z.eqb_refl.
    ztests; cbn [selectedPath]; try exact S; exfalso; lia.
  - rewrite T; exact Out.
  - assert (K : tabs_ok (handleTabClose st (activeTabIndex st)))
      by (apply tabs_ok_close; [exact R | split; assumption]).
    destruct K as [_ [[E _]|K]].
    + rewrite T in E.
      pose proof (len_remove_at _ (openTabs st) (activeTabIndex st) R) as X.
      rewrite E, len_nil in X; lia.
    + destruct (get_in_range _ _ _ K) as (q & Gq).
      exists q; split; [exact Gq|].
      intros ->; apply Out; rewrite <- T.
      destruct (get_inv _ _ _ _ Gq) as [_ Nq].
      apply (nth_error_In _ _ Nq).
Qed.

Lemma close_keeps_the_selection_witness :
  selectedPath (handleTabClose (mkTabs [[0]; [1]] 1 (Some [1])) 1)
  = Some [1].
Proof.
  assert (T : tabs_ok (mkTabs [[0]; [1]] 1 (Some [1]))).
  { split; [|right; cbn; lia].
    repeat constructor; cbn; intuition discriminate. }
  assert (L : 1 < len (openTabs (mkTabs [[0]; [1]] 1 (Some [1]))))
    by (cbn; lia).
  destruct (close_keeps_the_selection (mkTabs [[0]; [1]] 1 (Some [1])) [1]
              T L eq_refl eq_refl) as (S & _).
  exact S.
Defined.

(** * Notes and tabs together *)

Module TabAppFacts.

Import TabApp.

Section Sound.
Implicit Types (st : State) (p q : Path) (f : Forest).

Lemma sound_grows st f' :
  sound st -> grows (notes st) f' -> sound (mkState f' (tabs st)).
Proof.
  intros (T & R & x & Sx & Hx) G; split; [exact T|]; split.
  - intros p I; cbn [notes tabs] in *.
    rewrite getNoteByPath_getLoop; apply G.
    rewrite <- getNoteByPath_getLoop; apply R; exact I.
  - exists x; split; [exact Sx|].
    destruct Hx as [->|Hx]; [left; reflexivity | right].
    cbn [notes]; rewrite getNoteByPath_getLoop; apply G.
    rewrite <- getNoteByPath_getLoop; exact Hx.
Qed.

Lemma sound_open st p :
  sound st -> getNoteByPath (notes st) p <> None ->
  sound (mkState (notes st) (openNoteTab (tabs st) p)).
Proof.
  intros (T & R & _) H; split; [apply tabs_ok_open; exact T|].
  cbn [notes tabs].
  destruct (openNoteTab_cases (tabs st) p) as [(I & e & _ & _ & ->)|(I & ->)];
    cbn [openTabs Tabs.selectedPath]; split; eauto.
  intros x Hx; apply in_app_or in Hx; destruct Hx as [Hx|[<-|[]]]; auto.
Qed.

Lemma grows_new f : grows f (f ++ [newNote]).
Proof.
  intros q H; destruct (getLoop f q) as [n|] eqn:G; [|congruence].
  rewrite (getLoop_app_level _ [newNote] _ _ G); discriminate.
Qed.

(** The three guarded writes: they go through, keep the tabs, and keep
    every path that resolved. *)
Lemma commit_add st p :
  exists st', commit st (handleAddSubNote (notes st) p) = Some st'
              /\ tabs st' = tabs st /\ grows (notes st) (notes st').
Proof.
  unfold handleAddSubNote.
  destruct (getNoteByPath (notes st) p) as [parent|] eqn:H;
    [|exists st; repeat split; intros q; auto].
  destruct (len p >=? 4); [exists st; repeat split; intros q; auto|].
  destruct (guarded_write _ _ _ (with_child parent newSubNote) H)
    as (f' & S & _).
  unfold with_child in S; rewrite S.
  exists (mkState f' (tabs st)); repeat split.
  intros q; destruct (resolves_after_child _ _ _ q H) as (f & S' & M).
  unfold with_child in S'; rewrite S in S'; injection S' as <-; exact M.
Qed.

Lemma commit_edit st p (old u : Note) :
  getNoteByPath (notes st) p = Some old ->
  subNotes u = subNotes old ->
  exists st', commit st (Called (setNoteByPath (notes st) p u)) = Some st'
              /\ tabs st' = tabs st /\ grows (notes st) (notes st').
Proof.
  intros H E.
  destruct (guarded_write _ _ _ u H) as (f' & S & _); rewrite S.
  exists (mkState f' (tabs st)); repeat split.
  intros q; destruct (resolves_after_edit _ _ u _ q H E) as (f & S' & M).
  rewrite S in S'; injection S' as <-; exact M.
Qed.

Lemma commit_toggle st p :
  exists st', commit st (handleToggleCollapse (notes st) p) = Some st'
              /\ tabs st' = tabs st /\ grows (notes st) (notes st').
Proof.
  unfold handleToggleCollapse.
  destruct (getNoteByPath (notes st) p) as [note|] eqn:H;
    [|exists st; repeat split; intros q; auto].
  apply (commit_edit st p note
           (with_isCollapsed note (Some (negb (truthy (isCollapsed note)))))
           H eq_refl).
Qed.

Lemma commit_selection st (change : Note -> Note) :
  (forall n, subNotes (change n) = subNotes n) ->
  exists st', commit st (on_selection st change) = Some st'
              /\ tabs st' = tabs st /\ grows (notes st) (notes st').
Proof.
  intros C; unfold on_selection.
  destruct (Tabs.selectedPath (tabs st)) as [p|];
    [|exists st; repeat split; intros q; auto].
  destruct (getNoteByPath (notes st) p) as [cur|] eqn:H;
    [|exists st; repeat split; intros q; auto].
  apply (commit_edit st p cur (change cur) H (C cur)).
Qed.

Lemma handle_total st (e : Event) : exists st', handle st e = Some st'.
Proof.
  destruct e; cbn [handle]; eauto.
  - destruct (commit_add st path) as (s & -> & _); eauto.
  - destruct (commit_toggle st path) as (s & -> & _); eauto.
  - destruct (commit_selection st (fun n => with_title n value))
      as (s & E & _); [reflexivity|].
    unfold handleNoteTitleChange; rewrite E; eauto.
  - destruct (commit_selection st (fun n => with_content n value))
      as (s & E & _); [reflexivity|].
    unfold handleNoteContentChange; rewrite E; eauto.
Qed.

Lemma row_resolves (f : Forest) (r : Render.Row) :
  In r (Render.renderNotes f) ->
  getNoteByPath f (Render.row_path r) <> None.
Proof.
  intros H; apply RenderFacts.In_renderNotes in H.
  destruct H as (x & V & _).
  apply RenderFacts.visibleLoop_spec in V; destruct V as [G _].
  rewrite getNoteByPath_getLoop, G; discriminate.
Qed.

Variable toLowerCase : string -> string.
Variable trim : string -> string.

Lemma sound_step st st' (e : Event) :
  sound st -> offered toLowerCase trim st e -> handle st e = Some st' ->
  sound st'.
Proof.
  intros S O H; destruct e; cbn [handle offered] in *.
  - (* a new note *)
    injection H as <-; unfold handleNewNote.
    apply (sound_open (mkState (notes st ++ [newNote]) (tabs st))).
    + apply sound_grows; [exact S | apply grows_new].
    + cbn [notes getNoteByPath].
      rewrite getLoop_cons, get_snoc_last; discriminate.
  - destruct (commit_add st path) as (s & E & T & G).
    rewrite E in H; injection H as <-.
    destruct s as [f t]; cbn [tabs notes] in *; subst t.
    apply sound_grows; assumption.
  - destruct (commit_toggle st path) as (s & E & T & G).
    rewrite E in H; injection H as <-.
    destruct s as [f t]; cbn [tabs notes] in *; subst t.
    apply sound_grows; assumption.
  - injection H as <-; destruct O as (r & I & <-).
    apply sound_open; [exact S | apply row_resolves; exact I].
  - (* a click on a tab *)
    injection H as <-; destruct S as ((N & _) & R & _).
    destruct (get_in_range _ _ _ O) as (x & G).
    destruct (get_inv _ _ _ _ G) as [_ Nx]; apply nth_error_In in Nx.
    split; [split; [exact N | right; exact O]|].
    split; [exact R|].
    exists x; cbn [tabs handleTabClick Tabs.selectedPath notes].
    split; [exact G | right; apply R; exact Nx].
  - (* a tab closed *)
    injection H as <-; destruct S as (T & R & x & Sx & Hx).
    split; [apply tabs_ok_close; assumption|]; cbn [tabs notes].
    assert (Sub : forall p, In p (openTabs (handleTabClose (tabs st) index))
                            -> In p (openTabs (tabs st))).
    { intros p; rewrite openTabs_close, splice1_inside by exact O.
      apply In_remove_at. }
    split; [intros p I; apply R, Sub, I|].
    unfold handleTabClose.
    repeat match goal with
           | |- context [if ?c then _ else _] => destruct c eqn:?
           end; cbn [Tabs.selectedPath]; eauto.
    assert (B : 0 <= len (openTabs (tabs st)) - 2 < len (openTabs (tabs st))).
    { match goal with
      | X : (len (openTabs (tabs st)) - 1 <=? 0) = false |- _ =>
          ztests_in X; [discriminate|lia]
      end. }
    destruct (get_in_range _ _ _ B) as (y & G); rewrite G.
    destruct (get_inv _ _ _ _ G) as [_ Ny]; apply nth_error_In in Ny.
    exists y; split; [reflexivity | right; apply R; exact Ny].
  - (* a search result *)
    injection H as <-; destruct O as (query & I).
    apply sound_open; [exact S|].
    unfold Search.search in I.
    destruct (Search.is_empty (trim query)); [destruct I|].
    apply filter_In in I; destruct I as [I _].
    rewrite gatherAllNotes_preorder in I; destruct res as [q x].
    apply In_preorder_forest in I; cbn [fst]; rewrite I; discriminate.
  - injection H as <-; destruct S as (T & R & _).
    split; [exact T|]; split; [exact R|].
    exists []; split; [reflexivity | left; reflexivity].
  - destruct (commit_selection st (fun n => with_title n value))
      as (s & E & T & G); [reflexivity|].
    unfold handleNoteTitleChange in H; rewrite E in H; injection H as <-.
    destruct s as [f t]; cbn [tabs notes] in *; subst t.
    apply sound_grows; assumption.
  - destruct (commit_selection st (fun n => with_content n value))
      as (s & E & T & G); [reflexivity|].
    unfold handleNoteContentChange in H; rewrite E in H; injection H as <-.
    destruct s as [f t]; cbn [tabs notes] in *; subst t.
    apply sound_grows; assumption.
Qed.

Lemma reachable_sound (start : Forest) st :
  reachable toLowerCase trim start st -> sound st.
Proof.
  induction 1 as [|st st' e _ IH O H].
  - split; [split; [constructor | left; split; reflexivity]|].
    split; [intros p []|].
    exists []; split; [reflexivity | left; reflexivity].
  - apply (sound_step st st' e IH O H).
Qed.

(** How many tabs are drawn active. *)
Lemma count_active (f : Forest) (active : Z) (l : list Path) : forall i,
  List.length (filter snd (renderTabs_from f active l i))
  = if (i <=? active) && (active <? i + len l) then 1%nat else 0%nat.
Proof.
  induction l as [|p l IH]; intros i; cbn [renderTabs_from filter snd].
  - rewrite len_nil; ztests; reflexivity || (exfalso; lia).
  - rewrite len_cons; pose proof (len_nonneg _ l).
    destruct (Z.eqb_spec i active) as [->|Hne]; cbn [List.length];
      rewrite IH; ztests; reflexivity || (exfalso; lia).
Qed.

Lemma length_renderTabs (f : Forest) (active : Z) (l : list Path) : forall i,
  List.length (renderTabs_from f active l i) = List.length l.
Proof.
  induction l as [|p l IH]; intros i; cbn [renderTabs_from List.length];
    [reflexivity|].
  f_equal; apply IH.
Qed.
End Sound.

(** X22.  In every state a session reaches, from whatever notes were
    stored and through whatever the page offers, no path is open in two
    tabs, every open tab and the selection name a note that is there (the
    selection may also be empty, and is never undefined), and every action
    the page offers goes through. *)
Theorem session_keeps_tabs_on_notes (toLowerCase trim : string -> string)
    (start : Forest) (st : State) :
  reachable toLowerCase trim start st ->
  NoDup (openTabs (tabs st))
  /\ (forall p, In p (openTabs (tabs st)) ->
                getNoteByPath (notes st) p <> None)
  /\ (exists p, Tabs.selectedPath (tabs st) = Some p
                /\ (p = [] \/ getNoteByPath (notes st) p <> None))
  /\ forall e, offered toLowerCase trim st e ->
               exists st', handle st e = Some st'
                           /\ reachable toLowerCase trim start st'.
Proof.
  intros R.
  destruct (reachable_sound toLowerCase trim start st R)
    as ((N & _) & T & S).
  split; [exact N|]; split; [exact T|]; split; [exact S|].
  intros e O; destruct (handle_total st e) as (st' & H).
  exists st'; split; [exact H|].
  apply (@after toLowerCase trim start st st' e R O H).
Qed.

Lemma session_keeps_tabs_on_notes_witness :
  NoDup (openTabs (tabs (handleNewNote (mkState [] (mkTabs [] (-1) (Some [])))))).
Proof.
  assert (R : reachable AsciiText.toLowerCase AsciiText.trim []
                (handleNewNote (mkState [] (mkTabs [] (-1) (Some []))))).
  { apply (@after _ _ _ (mkState [] (mkTabs [] (-1) (Some []))) _
             ClickNewNote).
    - apply at_start.
    - exact I.
    - reflexivity. }
  destruct (session_keeps_tabs_on_notes _ _ _ _ R) as (N & _).
  exact N.
Defined.

(** X23.  In every such state the tab bar shows, for each tab, the title
    of the note at its path (or "Untitled" for an empty title), not the
    placeholder for a missing note; and it draws exactly one tab active
    when a tab is open, none when none is. *)
Theorem tab_bar_shows_notes (toLowerCase trim : string -> string)
    (start : Forest) (st : State) :
  reachable toLowerCase trim start st ->
  (forall p, In p (openTabs (tabs st)) ->
             exists n, getNoteByPath (notes st) p = Some n
                       /\ tab_label (notes st) p
                          = Render.or_untitled (title n))
  /\ List.length (renderTabBar st) = List.length (openTabs (tabs st))
  /\ List.length (filter snd (renderTabBar st))
     = match openTabs (tabs st) with [] => 0%nat | _ :: _ => 1%nat end.
Proof.
  intros R.
  destruct (reachable_sound toLowerCase trim start st R)
    as ((_ & A) & T & _).
  split; [|split].
  - intros p I; specialize (T p I); unfold tab_label.
    destruct (getNoteByPath (notes st) p) as [n|]; [|congruence].
    exists n; split; reflexivity.
  - apply length_renderTabs.
  - unfold renderTabBar; rewrite count_active.
    destruct A as [[E Ea]|A].
    + rewrite E, Ea; reflexivity.
    + destruct (openTabs (tabs st)) as [|p l];
        [rewrite len_nil in A; lia|].
      ztests; reflexivity || (exfalso; lia).
Qed.

Lemma tab_bar_shows_notes_witness :
  List.length
    (filter snd
       (renderTabBar (handleNewNote (mkState [] (mkTabs [] (-1) (Some []))))))
  = 1%nat.
Proof.
  assert (R : reachable AsciiText.toLowerCase AsciiText.trim []
                (handleNewNote (mkState [] (mkTabs [] (-1) (Some []))))).
  { apply (@after _ _ _ (mkState [] (mkTabs [] (-1) (Some []))) _
             ClickNewNote).
    - apply at_start.
    - exact I.
    - reflexivity. }
  destruct (tab_bar_shows_notes _ _ _ _ R) as (_ & _ & C).
  exact C.
Defined.

End TabAppFacts.
